(** * simpleperf/scripts/unwinding_result_reporter.py

    A shallow embedding of the address-space registry ([ProcessMaps]), the
    timing statistics, the sample classifier and aggregation tree
    ([UnwindingResultErrorReport]) and the call-chain record parser
    ([parse_callchain_record]), with the properties stated about them. *)

From Stdlib Require Import ZArith List Lia Bool Ascii String.
From stdpp Require Import base option list gmap strings.

Local Open Scope Z_scope.

(** ** MapEntry objects and the object store

    Python's [MapEntry] instances are mutable objects: [ProcessMaps.add]
    assigns to [entry.end] and [entry.start] of objects that stay in the
    per-pid lists.  The store below is the part of the Python heap that holds
    the [MapEntry] objects; a reference is the index of the object in
    allocation order.  The lists only ever hold references to allocated
    objects (see [separated]), so reading an object is a total lookup. *)

Record MapEntry := mkMapEntry {
  start : Z;
  end_ : Z;
  filename : string
}.

#[global] Instance MapEntry_inhabited : Inhabited MapEntry :=
  populate (mkMapEntry 0 0 EmptyString).

Definition set_start (e : MapEntry) (v : Z) : MapEntry :=
  mkMapEntry v (end_ e) (filename e).

Definition set_end (e : MapEntry) (v : Z) : MapEntry :=
  mkMapEntry (start e) v (filename e).

(** [MapEntry.__lt__] *)
Definition MapEntry_lt (self other : MapEntry) : bool :=
  start self <? start other.

(** [ProcessMaps]: [process_maps] is the dict from pid to a list of
    references; [store] holds the referenced objects. *)
Record ProcessMaps := mkProcessMaps {
  store : list MapEntry;
  process_maps : gmap Z (list nat)
}.

(** [ProcessMaps.__init__] *)
Definition ProcessMaps_init : ProcessMaps := mkProcessMaps [] ∅.

(** [MapEntry(start, end, filename)]: allocate a new object. *)
Definition new_MapEntry (s e : Z) (f : string) (pm : ProcessMaps)
  : nat * ProcessMaps :=
  (length (store pm),
   mkProcessMaps (store pm ++ [mkMapEntry s e f]) (process_maps pm)).

(** The [for entry in old_list] loop of [ProcessMaps.add].  The loop state is
    the store (entries are truncated in place), [new_list] and
    [map_entry_used]. *)
Fixpoint add_loop (map_entry : nat) (old_list : list nat)
    (st : list MapEntry) (new_list : list nat) (map_entry_used : bool)
  : list MapEntry * list nat * bool :=
  match old_list with
  | [] => (st, new_list, map_entry_used)
  | entry :: rest =>
    if end_ (st !!! entry) <=? start (st !!! map_entry) then
      add_loop map_entry rest st (new_list ++ [entry]) map_entry_used
    else if start (st !!! entry) <? start (st !!! map_entry) then
      let st1 := <[entry := set_end (st !!! entry) (start (st !!! map_entry))]> st in
      add_loop map_entry rest st1 (new_list ++ [entry]) map_entry_used
    else
      let new_list1 :=
        if map_entry_used then new_list else new_list ++ [map_entry] in
      if start (st !!! entry) >=? end_ (st !!! map_entry) then
        add_loop map_entry rest st (new_list1 ++ [entry]) true
      else if end_ (st !!! entry) >? end_ (st !!! map_entry) then
        let st1 := <[entry := set_start (st !!! entry) (end_ (st !!! map_entry))]> st in
        add_loop map_entry rest st1 (new_list1 ++ [entry]) true
      else
        add_loop map_entry rest st new_list1 true
  end.

(** [ProcessMaps.add(pid, map_entry)] *)
Definition add (pid : Z) (map_entry : nat) (pm : ProcessMaps) : ProcessMaps :=
  let old_list := default [] (process_maps pm !! pid) in
  let '(st, new_list, map_entry_used) :=
    add_loop map_entry old_list (store pm) [] false in
  let new_list :=
    if map_entry_used then new_list else new_list ++ [map_entry] in
  mkProcessMaps st (<[pid := new_list]> (process_maps pm)).

(** [process_maps.add(pid, MapEntry(start, end, filename))], the way
    [build_unwinding_result_report] inserts a mapping: the entry is a newly
    constructed object. *)
Definition add_range (pid s e : Z) (f : string) (pm : ProcessMaps)
  : ProcessMaps :=
  let '(r, pm1) := new_MapEntry s e f pm in add pid r pm1.

(** The ranges a pid's list denotes: the referenced objects, in list order. *)
Definition ranges (pm : ProcessMaps) (pid : Z) : list MapEntry :=
  (λ r, store pm !!! r) <$> default [] (process_maps pm !! pid).

(** [copy.deepcopy(entry_list)] on a list of [MapEntry] objects: every
    object reachable from the list is copied into a new object, once (the
    memo maps an already copied object to its copy); the integer and string
    attributes are immutable and are carried over. *)
Fixpoint deepcopy_list (l : list nat) (st : list MapEntry)
    (memo : gmap nat nat) : list MapEntry * list nat :=
  match l with
  | [] => (st, [])
  | r :: rest =>
    match memo !! r with
    | Some r' =>
      let '(st', l') := deepcopy_list rest st memo in (st', r' :: l')
    | None =>
      let r' := length st in
      let '(st', l') :=
        deepcopy_list rest (st ++ [st !!! r]) (<[r := r']> memo) in
      (st', r' :: l')
    end
  end.

(** [ProcessMaps.fork_pid(pid, ppid)] *)
Definition fork_pid (pid ppid : Z) (pm : ProcessMaps) : ProcessMaps :=
  if decide (pid = ppid) then pm
  else
    let entry_list := default [] (process_maps pm !! ppid) in
    let '(st, l) := deepcopy_list entry_list (store pm) ∅ in
    mkProcessMaps st (<[pid := l]> (process_maps pm)).

(** [bisect.bisect_right(a, x)]: the standard library's loop
    [while lo < hi: mid = (lo+hi)//2; if x < a[mid]: hi = mid else: lo = mid+1],
    with [<] being [MapEntry.__lt__].  Every iteration shrinks [hi - lo], so
    [length a] iterations are enough (lemma [bisect_right_loop_spec]). *)
Fixpoint bisect_right_loop (fuel : nat) (a : list MapEntry) (x : MapEntry)
    (lo hi : nat) : nat :=
  match fuel with
  | O => lo
  | S fuel' =>
    if (lo <? hi)%nat then
      let mid := ((lo + hi) / 2)%nat in
      if MapEntry_lt x (a !!! mid) then bisect_right_loop fuel' a x lo mid
      else bisect_right_loop fuel' a x (S mid) hi
    else lo
  end.

Definition bisect_right (a : list MapEntry) (x : MapEntry) : nat :=
  bisect_right_loop (length a) a x 0 (length a).

(** [ProcessMaps.find(pid, addr)]: the found object, or [None].  [pos] is at
    most the length of the list (lemma [bisect_right_le]), so
    [entry_list[pos - 1]] is in range whenever [pos > 0]. *)
Definition find (pid addr : Z) (pm : ProcessMaps) : option nat :=
  let key := mkMapEntry addr addr EmptyString in
  let entry_list := default [] (process_maps pm !! pid) in
  let pos := bisect_right ((λ r, store pm !!! r) <$> entry_list) key in
  if (0 <? pos)%nat && (end_ (store pm !!! (entry_list !!! (pos - 1)%nat)) >? addr)
  then Some (entry_list !!! (pos - 1)%nat)
  else None.

(** The value of the object [find] returns. *)
Definition find_range (pid addr : Z) (pm : ProcessMaps) : option MapEntry :=
  (λ r, store pm !!! r) <$> find pid addr pm.

(** The events that change the registry, as [build_unwinding_result_report]
    applies them: [record mmap] and [record fork]. *)
Inductive MapEvent :=
| Mmap (pid s e : Z) (f : string)
| Fork (pid ppid : Z).

Definition apply_event (ev : MapEvent) (pm : ProcessMaps) : ProcessMaps :=
  match ev with
  | Mmap pid s e f => add_range pid s e f pm
  | Fork pid ppid => fork_pid pid ppid pm
  end.

Definition apply_events (evs : list MapEvent) (pm : ProcessMaps)
  : ProcessMaps :=
  foldl (λ pm ev, apply_event ev pm) pm evs.

(** ** The value-level reading of [add]

    What the loop of [add] computes on the values of the entries, when no
    object occurs twice: [overlay m old used] is the rest of [new_list] for
    the remaining entries [old], [used] being [map_entry_used]. *)
Fixpoint overlay (m : MapEntry) (old : list MapEntry) (used : bool)
  : list MapEntry :=
  match old with
  | [] => if used then [] else [m]
  | entry :: rest =>
    if end_ entry <=? start m then entry :: overlay m rest used
    else if start entry <? start m then
      set_end entry (start m) :: overlay m rest used
    else
      (if used then [] else [m]) ++
      (if start entry >=? end_ m then [entry]
       else if end_ entry >? end_ m then [set_start entry (end_ m)]
       else []) ++
      overlay m rest true
  end.

(** What [find] computes on the values of a pid's list. *)
Definition find_in (l : list MapEntry) (addr : Z) : option MapEntry :=
  let pos := bisect_right l (mkMapEntry addr addr EmptyString) in
  if (0 <? pos)%nat && (end_ (l !!! (pos - 1)%nat) >? addr)
  then Some (l !!! (pos - 1)%nat)
  else None.

(** No object is shared: every list holds allocated objects, each once, and
    two pids never hold the same object. *)
Definition separated (pm : ProcessMaps) : Prop :=
  ∀ pid l, process_maps pm !! pid = Some l →
    NoDup l ∧
    Forall (λ r, (r < length (store pm))%nat) l ∧
    ∀ pid' l', pid' ≠ pid → process_maps pm !! pid' = Some l' →
      ∀ r, r ∈ l → r ∉ l'.

(** [chain lo l]: the ranges of [l] lie at or above [lo], in order, each
    ending where or before the next begins. *)
Fixpoint chain (lo : Z) (l : list MapEntry) : Prop :=
  match l with
  | [] => True
  | e :: rest => lo ≤ start e ∧ start e ≤ end_ e ∧ chain (end_ e) rest
  end.

(** Every pid's list is in order, starting from some lower bound. *)
Definition ordered (pm : ProcessMaps) : Prop :=
  ∀ pid, ∃ lo, chain lo (ranges pm pid).

(** A [record mmap] of the dump has [end = start + len] with [len >= 0]. *)
Definition event_ok (ev : MapEvent) : Prop :=
  match ev with
  | Mmap _ s e _ => s ≤ e
  | Fork _ _ => True
  end.

(** An insert of a non-empty range, [start < end]. *)
Definition event_strict (ev : MapEvent) : Prop :=
  match ev with
  | Mmap _ s e _ => s < e
  | Fork _ _ => True
  end.

(** The event does not assign the list of [q]: it is an insert into another
    pid, a fork of another child, or a self-fork. *)
Definition leaves (q : Z) (ev : MapEvent) : Prop :=
  match ev with
  | Mmap pid _ _ _ => pid ≠ q
  | Fork pid ppid => pid ≠ q ∨ pid = ppid
  end.

(** Inserting a sequence of ranges into one pid. *)
Definition add_ranges (pid : Z) (rs : list (Z * Z * string))
    (pm : ProcessMaps) : ProcessMaps :=
  foldl (λ pm r, add_range pid r.1.1 r.1.2 r.2 pm) pm rs.

(** ** Exceptions

    An uncaught exception aborts the run.  [Fatal i] is the exception of
    [log_fatal], with the line number of its message; the others are the
    exceptions Python raises on a missing dict key, an index outside a list
    and a failed [int()]. *)
Inductive exn :=
| KeyError
| IndexError
| ValueError
| Fatal (line : nat).

Inductive result (A : Type) :=
| Ok (a : A)
| Raise (e : exn).
Arguments Ok {A} a.
Arguments Raise {A} e.

Definition bind {A B} (m : result A) (f : A → result B) : result B :=
  match m with
  | Ok a => f a
  | Raise e => Raise e
  end.

Notation "'let*' x ':=' m 'in' k" := (bind m (λ x, k))
  (at level 10, x name, m at level 100, k at level 200).

(** Modelled from the spec: [log_fatal] of utils.py, which is not among the
    sources.  A fatal parse error aborts the whole run with a diagnostic that
    identifies the offending position in the input; nothing is returned. *)
Definition log_fatal {A} (line : nat) : result A := Raise (Fatal line).

Definition of_option {A} (e : exn) (o : option A) : result A :=
  match o with
  | Some a => Ok a
  | None => Raise e
  end.

(** ** Library functions

    The behaviour of Python's [int] and of the three regular expressions of
    [parse_callchain_record] is taken as given: [py_int base s] is
    [int(s, base)] ([None] when it raises ValueError), the searches return
    the captured groups of the match ([None] when there is no match). *)
Class PyLib := {
  py_int : Z → string → option Z;
  (** [re.search(r'ip\s+0x(\w+),\s+sp\s+0x(\w+)$', line)] *)
  re_search_ip : string → option (string * string);
  (** [re.search(r'\)\[\+\w+\]\)$', line)] *)
  re_search_deleted : string → bool;
  (** [re.match('(.+)\[\+(\w+)\]\)', s)] *)
  re_match_frame : string → option (string * string)
}.

(** ** Strings *)

(** [s.startswith(pre)] *)
Definition startswith (pre s : string) : bool := String.prefix pre s.

(** [s.endswith(suf)] *)
Definition endswith (suf s : string) : bool :=
  let n := String.length s in
  let k := String.length suf in
  (k <=? n)%nat && String.eqb (String.substring (n - k) k s) suf.

(** [sub in s] *)
Fixpoint contains (sub s : string) : bool :=
  String.prefix sub s ||
  match s with
  | EmptyString => false
  | String _ s' => contains sub s'
  end.

(** The whitespace of [str.strip()] and [str.split()] on byte strings. *)
Definition is_space (c : ascii) : bool :=
  let n := nat_of_ascii c in
  ((n =? 32) || (n =? 9) || (n =? 10) || (n =? 11) || (n =? 12) || (n =? 13))%nat.

Fixpoint lstrip (s : string) : string :=
  match s with
  | EmptyString => EmptyString
  | String c s' => if is_space c then lstrip s' else s
  end.

Fixpoint rstrip (s : string) : string :=
  match s with
  | EmptyString => EmptyString
  | String c s' =>
    match rstrip s' with
    | EmptyString => if is_space c then EmptyString else String c EmptyString
    | r => String c r
    end
  end.

(** [s.strip()] *)
Definition strip (s : string) : string := rstrip (lstrip s).

(** [s.split()]: the maximal runs of non-whitespace characters.  [cur] is
    the run being read, [None] between runs. *)
Fixpoint split_go (s : string) (cur : option string) : list string :=
  match s with
  | EmptyString =>
    match cur with
    | Some w => [w]
    | None => []
    end
  | String c s' =>
    if is_space c then
      match cur with
      | Some w => w :: split_go s' None
      | None => split_go s' None
      end
    else
      split_go s' (Some (default EmptyString cur +:+ String c EmptyString))
  end.

Definition split (s : string) : list string := split_go s None.

(** [s.rfind(c, 0, stop)] for a one-character [c]: the highest index
    [i < stop] with [s[i] == c], or [-1].  A negative [stop] counts from the
    end of the string, as in a slice. *)
Fixpoint rfind_go (c : ascii) (s : string) (i stop : Z) (best : Z) : Z :=
  match s with
  | EmptyString => best
  | String d s' =>
    rfind_go c s' (i + 1) stop
      (if (i <? stop) && Ascii.eqb d c then i else best)
  end.

Definition rfind_before (c : ascii) (s : string) (stop : Z) : Z :=
  let n := Z.of_nat (String.length s) in
  let stop := if stop <? 0 then Z.max 0 (n + stop) else stop in
  rfind_go c s 0 stop (-1).

(** [s.rfind(c)] *)
Definition rfind (c : ascii) (s : string) : Z :=
  rfind_before c s (Z.of_nat (String.length s)).

(** ** Timing statistics *)

Record UnwindingTimes := mkUnwindingTimes {
  total_time : Z;
  count : Z;
  max_time : Z
}.

Definition UnwindingTimes_init : UnwindingTimes := mkUnwindingTimes 0 0 0.

(** [UnwindingTimes.add_time] *)
Definition add_time (used_time : Z) (self : UnwindingTimes) : UnwindingTimes :=
  mkUnwindingTimes (total_time self + used_time) (count self + 1)
                   (Z.max (max_time self) used_time).

(** ** Call chains and samples *)

Record CallChainNode := mkCallChainNode {
  ip : Z;
  sp : Z;
  node_filename : string;
  vaddr_in_file : Z;
  function_name : string;
  map_start_addr : Z;
  map_end_addr : Z
}.

Record SampleResult := mkSampleResult {
  pid : Z;
  tid : Z;
  unwinding_result : gmap string string;
  callchain : list CallChainNode
}.

Record CallChainRecord := mkCallChainRecord {
  rec_pid : option Z;
  rec_tid : option Z;
  rec_callchain : list CallChainNode
}.

(** [callchain[-1]] *)
Definition anchor (callchain : list CallChainNode) : result CallChainNode :=
  of_option IndexError (last callchain).

(** [d[key]] *)
Definition getitem (key : string) (d : gmap string string) : result string :=
  of_option KeyError (d !! key).

(** ** Aggregation *)

Record FunctionResult := mkFunctionResult {
  sample_results : gmap string (list SampleResult)
}.

Definition FunctionResult_init : FunctionResult := mkFunctionResult ∅.

(** The [for result in result_list] loop of
    [FunctionResult.add_sample_result]: [true] when it returns early. *)
Fixpoint duplicates (result_list : list SampleResult)
    (sample_result : SampleResult) : result bool :=
  match result_list with
  | [] => Ok false
  | r :: rest =>
    let* a := anchor (callchain r) in
    let* b := anchor (callchain sample_result) in
    if vaddr_in_file a =? vaddr_in_file b then Ok true
    else duplicates rest sample_result
  end.

(** [FunctionResult.add_sample_result] *)
Definition FunctionResult_add_sample_result (sample_result : SampleResult)
    (self : FunctionResult) : result FunctionResult :=
  let* stop_reason := getitem "stop_reason" (unwinding_result sample_result) in
  let created :=
    match sample_results self !! stop_reason with
    | Some (r :: l) => (r :: l, sample_results self)
    | _ => ([], <[stop_reason := []]> (sample_results self))
    end in
  let result_list := created.1 in
  let results := created.2 in
  let* dup := duplicates result_list sample_result in
  if dup then Ok (mkFunctionResult results)
  else if (length result_list <? 10)%nat then
    Ok (mkFunctionResult
          (<[stop_reason := result_list ++ [sample_result]]> results))
  else Ok (mkFunctionResult results).

Record FileResult := mkFileResult {
  function_results : gmap string FunctionResult
}.

Definition FileResult_init : FileResult := mkFileResult ∅.

(** [FileResult.add_sample_result] *)
Definition FileResult_add_sample_result (sample_result : SampleResult)
    (self : FileResult) : result FileResult :=
  let* node := anchor (callchain sample_result) in
  let function_name := function_name node in
  let function_result :=
    default FunctionResult_init (function_results self !! function_name) in
  let* function_result' :=
    FunctionResult_add_sample_result sample_result function_result in
  Ok (mkFileResult
        (<[function_name := function_result']> (function_results self))).

Record UnwindingResultErrorReport := mkReport {
  omit_callchains_fixed_by_joiner : bool;
  report_process_maps : ProcessMaps;
  unwinding_times : UnwindingTimes;
  file_results : gmap string FileResult
}.

(** [UnwindingResultErrorReport.__init__] *)
Definition Report_init (omit_callchains_fixed_by_joiner : bool)
  : UnwindingResultErrorReport :=
  mkReport omit_callchains_fixed_by_joiner ProcessMaps_init
           UnwindingTimes_init ∅.

(** Step 1 of [should_omit]: the loop over the two in-memory names. *)
Fixpoint in_memory_code (names : list string) (sample_result : SampleResult)
  : result bool :=
  match names with
  | [] => Ok false
  | name :: rest =>
    let* node := anchor (callchain sample_result) in
    if contains name (node_filename node) then Ok true
    else in_memory_code rest sample_result
  end.

(** [is_callchain_complete], the local function of [should_omit]. *)
Fixpoint is_callchain_complete (callchain : list CallChainNode) : bool :=
  match callchain with
  | [] => false
  | node :: rest =>
    if endswith "libc.so" (node_filename node) &&
       bool_decide (function_name node ∈ ["__libc_init"; "__start_thread"])
    then true
    else is_callchain_complete rest
  end.

(** [UnwindingResultErrorReport.should_omit] *)
Definition should_omit (self : UnwindingResultErrorReport)
    (sample_result : SampleResult) (joined_record : CallChainRecord)
  : result bool :=
  let* in_memory := in_memory_code
    ["/dev/ashmem/dalvik-jit-code-cache"; "//anon"] sample_result in
  if in_memory then Ok true
  else if is_callchain_complete (callchain sample_result) then Ok true
  else if omit_callchains_fixed_by_joiner self &&
          is_callchain_complete (rec_callchain joined_record) then Ok true
  else Ok false.

(** [UnwindingResultErrorReport.add_sample_result] *)
Definition add_sample_result `{PyLib} (sample_result : SampleResult)
    (joined_record : CallChainRecord) (self : UnwindingResultErrorReport)
  : result UnwindingResultErrorReport :=
  let* used_time_str := getitem "used_time" (unwinding_result sample_result) in
  let* used_time := of_option ValueError (py_int 10 used_time_str) in
  let times := add_time used_time (unwinding_times self) in
  let* omit := should_omit self sample_result joined_record in
  if omit then
    Ok (mkReport (omit_callchains_fixed_by_joiner self)
                 (report_process_maps self) times (file_results self))
  else
    let* node := anchor (callchain sample_result) in
    let filename := node_filename node in
    let file_result :=
      default FileResult_init (file_results self !! filename) in
    let* file_result' := FileResult_add_sample_result sample_result file_result in
    Ok (mkReport (omit_callchains_fixed_by_joiner self)
                 (report_process_maps self) times
                 (<[filename := file_result']> (file_results self))).

(** Feeding a sequence of samples, each with its joined record, in order. *)
Fixpoint add_sample_results `{PyLib}
    (samples : list (SampleResult * CallChainRecord))
    (self : UnwindingResultErrorReport) : result UnwindingResultErrorReport :=
  match samples with
  | [] => Ok self
  | (sample_result, joined_record) :: rest =>
    let* self' := add_sample_result sample_result joined_record self in
    add_sample_results rest self'
  end.

(** The list stored for a (filename, function name, stop reason) triple. *)
Definition stored (self : UnwindingResultErrorReport)
    (filename function_name stop_reason : string) : list SampleResult :=
  default []
    (file_result ← file_results self !! filename;
     function_result ← function_results file_result !! function_name;
     sample_results function_result !! stop_reason).

(** The sample's [used_time] is there and [int()] reads it as [t]. *)
Definition timed `{PyLib} (s : SampleResult) (t : Z) : Prop :=
  ∃ ut, unwinding_result s !! "used_time" = Some ut ∧ py_int 10 ut = Some t.

(** The sample has a last call-chain node. *)
Definition anchored (s : SampleResult) : Prop :=
  is_Some (last (callchain s)).

(** The offset-in-file of the sample's last call-chain node. *)
Definition anchor_vaddr (s : SampleResult) : option Z :=
  vaddr_in_file <$> last (callchain s).

(** A sample as [build_unwinding_result_report] builds it: the keys it
    checks for are there, [int()] reads [used_time], and the call chain is
    not empty. *)
Definition well_formed_sample `{PyLib} (s : SampleResult) : Prop :=
  (∃ t, timed s t) ∧ anchored s ∧
  is_Some (unwinding_result s !! "stop_reason").

(** Every stored list has at most ten samples, each with a last node. *)
Definition report_ok (self : UnwindingResultErrorReport) : Prop :=
  ∀ a b c, (length (stored self a b c) ≤ 10)%nat ∧
           Forall anchored (stored self a b c).

(** A sample that is kept for the triple (filename, function name, stop
    reason): [should_omit] answers [False], its last node names the file and
    the function, and its stop reason is [sr]. *)
Definition kept_for `{PyLib} (flag : bool) (fname func sr : string)
    (sj : SampleResult * CallChainRecord) : Prop :=
  (∃ t, timed sj.1 t) ∧
  should_omit (Report_init flag) sj.1 sj.2 = Ok false ∧
  (∃ node, last (callchain sj.1) = Some node ∧
           node_filename node = fname ∧ function_name node = func) ∧
  unwinding_result sj.1 !! "stop_reason" = Some sr.

(** Sample data: a sample that stopped in function "f" of "lib.so" at
    offset [k], and eleven of them at the offsets 0..10. *)
Definition sample_at (k : Z) : SampleResult * CallChainRecord :=
  (mkSampleResult 1 2 {[ "used_time" := "5"; "stop_reason" := "X" ]}
     [mkCallChainNode 16 32 "lib.so" k "f" 0 0],
   mkCallChainRecord (Some 1) (Some 2) []).

Definition eleven_samples : list (SampleResult * CallChainRecord) :=
  sample_at <$> seqZ 0 11.

(** ** parse_callchain_record *)

(** [s[n:]] and [s[:n]] for [0 <= n] *)
Definition str_from (n : nat) (s : string) : string :=
  String.substring n (String.length s - n) s.

Definition str_upto (n : nat) (s : string) : string :=
  String.substring 0 n s.

(** The local variables of [parse_callchain_record] that its [while] loop
    updates. *)
Record ParseState := mkParseState {
  ps_pid : option Z;
  ps_tid : option Z;
  ips : list Z;
  sps : list Z;
  function_names : list string;
  filenames : list string;
  vaddr_in_files : list Z;
  in_callchain : bool
}.

Definition ParseState_init : ParseState :=
  mkParseState None None [] [] [] [] [] false.

(** The body of the [while] loop for the line [l] at index [i]. *)
Definition parse_line `{PyLib} (chain_type : string) (i : nat) (l : string)
    (st : ParseState) : result ParseState :=
  let line := strip l in
  let items := split line in
  match items with
  | [] => Ok st
  | item0 :: _ =>
    if String.eqb item0 "pid" && (length items =? 2)%nat then
      let* v := of_option ValueError (py_int 10 (items !!! 1%nat)) in
      Ok (mkParseState (Some v) (ps_tid st) (ips st) (sps st)
            (function_names st) (filenames st) (vaddr_in_files st)
            (in_callchain st))
    else if String.eqb item0 "tid" && (length items =? 2)%nat then
      let* v := of_option ValueError (py_int 10 (items !!! 1%nat)) in
      Ok (mkParseState (ps_pid st) (Some v) (ips st) (sps st)
            (function_names st) (filenames st) (vaddr_in_files st)
            (in_callchain st))
    else if String.eqb item0 "chain_type" && (length items =? 2)%nat then
      if negb (String.eqb (items !!! 1%nat) chain_type) then log_fatal i
      else Ok st
    else if String.eqb item0 "ip" then
      match re_search_ip line with
      | Some (g1, g2) =>
        let* a := of_option ValueError (py_int 16 g1) in
        let* b := of_option ValueError (py_int 16 g2) in
        Ok (mkParseState (ps_pid st) (ps_tid st) (ips st ++ [a])
              (sps st ++ [b]) (function_names st) (filenames st)
              (vaddr_in_files st) (in_callchain st))
      | None => Ok st
      end
    else if String.eqb item0 "callchain:" then
      Ok (mkParseState (ps_pid st) (ps_tid st) (ips st) (sps st)
            (function_names st) (filenames st) (vaddr_in_files st) true)
    else if in_callchain st then
      let break_pos :=
        if re_search_deleted line
        then rfind_before "(" line (rfind "(" line)
        else rfind "(" line in
      if 0 <? break_pos then
        match re_match_frame (str_from (Z.to_nat (break_pos + 1)) line) with
        | Some (g1, g2) =>
          let* v := of_option ValueError (py_int 16 g2) in
          Ok (mkParseState (ps_pid st) (ps_tid st) (ips st) (sps st)
                (function_names st ++ [strip (str_upto (Z.to_nat break_pos) line)])
                (filenames st ++ [g1]) (vaddr_in_files st ++ [v])
                (in_callchain st))
        | None => Ok st
        end
      else Ok st
    else Ok st
  end.

(** [while i < len(lines) and not lines[i].startswith('record')]; [ls] is
    [lines[i:]]. *)
Fixpoint parse_loop `{PyLib} (chain_type : string) (ls : list string)
    (i : nat) (st : ParseState) : result (nat * ParseState) :=
  match ls with
  | [] => Ok (i, st)
  | l :: rest =>
    if startswith "record" l then Ok (i, st)
    else
      let* st' := parse_line chain_type i l st in
      parse_loop chain_type rest (S i) st'
  end.

(** [process_maps.find(record.pid, ip)]: [record.pid] may still be [None],
    which is the key of no list. *)
Definition find_record (pid : option Z) (addr : Z) (pm : ProcessMaps)
  : option nat :=
  match pid with
  | Some p => find p addr pm
  | None => None
  end.

(** The [for ip in ips] loop: [map_start_addrs] and [map_end_addrs]. *)
Fixpoint map_addrs (pid : option Z) (ips : list Z) (pm : ProcessMaps)
    (map_start_addrs map_end_addrs : list Z) : list Z * list Z :=
  match ips with
  | [] => (map_start_addrs, map_end_addrs)
  | ip :: rest =>
    match find_record pid ip pm with
    | Some map_entry =>
      map_addrs pid rest pm
        (map_start_addrs ++ [start (store pm !!! map_entry)])
        (map_end_addrs ++ [end_ (store pm !!! map_entry)])
    | None =>
      map_addrs pid rest pm (map_start_addrs ++ [0]) (map_end_addrs ++ [0])
    end
  end.

(** [parse_callchain_record(lines, i, chain_type, process_maps)] *)
Definition parse_callchain_record `{PyLib} (lines : list string) (i : nat)
    (chain_type : string) (process_maps : ProcessMaps)
  : result (nat * CallChainRecord) :=
  match lines !! i with
  | None =>
    if (i =? length lines)%nat then log_fatal i else Raise IndexError
  | Some l =>
    if negb (startswith "record callchain:" l) then log_fatal i
    else
      let* scanned :=
        parse_loop chain_type (drop (S i) lines) (S i) ParseState_init in
      let i := scanned.1 in
      let st := scanned.2 in
      let addrs := map_addrs (ps_pid st) (ips st) process_maps [] [] in
      let map_start_addrs := addrs.1 in
      let map_end_addrs := addrs.2 in
      let n := length (ips st) in
      if bool_decide (ps_pid st = None) || bool_decide (ps_tid st = None) ||
         (n =? 0)%nat || negb (length (sps st) =? n)%nat ||
         negb (length (function_names st) =? n)%nat ||
         negb (length (filenames st) =? n)%nat ||
         negb (length (vaddr_in_files st) =? n)%nat ||
         negb (length map_start_addrs =? n)%nat ||
         negb (length map_end_addrs =? n)%nat
      then log_fatal i
      else
        Ok (i, mkCallChainRecord (ps_pid st) (ps_tid st)
                 ((λ j, mkCallChainNode (ips st !!! j) (sps st !!! j)
                          (filenames st !!! j) (vaddr_in_files st !!! j)
                          (function_names st !!! j) (map_start_addrs !!! j)
                          (map_end_addrs !!! j)) <$> seq 0 n))
  end.

(** The lists of the parse state grow together: one [sp] per [ip], one
    filename and one offset per function name. *)
Definition balanced (st : ParseState) : Prop :=
  length (sps st) = length (ips st) ∧
  length (filenames st) = length (function_names st) ∧
  length (vaddr_in_files st) = length (function_names st).

(** [log_fatal] was called. *)
Definition is_fatal {A} (r : result A) : Prop := ∃ k, r = Raise (Fatal k).

(** The bounds [parse_callchain_record] attaches to an instruction pointer:
    those of the range found, or zero and zero. *)
Definition map_bounds (pid : option Z) (pm : ProcessMaps) (ip : Z) : Z * Z :=
  match find_record pid ip pm with
  | Some map_entry =>
    (start (store pm !!! map_entry), end_ (store pm !!! map_entry))
  | None => (0, 0)
  end.

(** The call chain [parse_callchain_record] builds from the scanned lists:
    one node per instruction pointer, in order. *)
Definition chain_nodes (st : ParseState) (pm : ProcessMaps)
  : list CallChainNode :=
  (λ j, mkCallChainNode (ips st !!! j) (sps st !!! j) (filenames st !!! j)
          (vaddr_in_files st !!! j) (function_names st !!! j)
          (map_bounds (ps_pid st) pm (ips st !!! j)).1
          (map_bounds (ps_pid st) pm (ips st !!! j)).2)
  <$> seq 0 (length (ips st)).


(** Sample data: a trace whose line 0 is not a callchain header, followed
    by a complete record body. *)
Definition headless_lines : list string :=
  ["record sample:"; "  pid 7"; "  tid 8"; "  chain_type ORIGINAL_OFFLINE";
   "  ip 0x10, sp 0x7f00"; "  callchain:"; "    f (lib.so[+4])"]%string.

(** ** A reference instance of the library functions

    Unsigned digit strings for [int]: it reads the plain digit strings of
    the dump as Python's [int()] does, and rejects a sign, surrounding white
    space and a 0x prefix, which [int()] accepts; it is used for sample data
    only, the theorems hold for every [py_int].  Matchers for the three
    patterns on lines without a newline.  In each pattern a repetition is followed by a
    character outside its class, so the longest run is the only candidate. *)

Definition digit_value (c : ascii) : option Z :=
  let n := Z.of_nat (nat_of_ascii c) in
  if (48 <=? n) && (n <=? 57) then Some (n - 48)
  else if (97 <=? n) && (n <=? 102) then Some (n - 87)
  else if (65 <=? n) && (n <=? 70) then Some (n - 55)
  else None.

Fixpoint digits_go (base : Z) (s : string) (acc : Z) : option Z :=
  match s with
  | EmptyString => Some acc
  | String c s' =>
    match digit_value c with
    | Some d => if d <? base then digits_go base s' (acc * base + d) else None
    | None => None
    end
  end.

Definition digits_int (base : Z) (s : string) : option Z :=
  match s with
  | EmptyString => None
  | _ => digits_go base s 0
  end.

(** [\w] *)
Definition is_word (c : ascii) : bool :=
  let n := Z.of_nat (nat_of_ascii c) in
  ((48 <=? n) && (n <=? 57)) || ((97 <=? n) && (n <=? 122)) ||
  ((65 <=? n) && (n <=? 90)) || (n =? 95).

Fixpoint span (p : ascii → bool) (s : string) : string * string :=
  match s with
  | EmptyString => (EmptyString, EmptyString)
  | String c s' =>
    if p c then (String c (span p s').1, (span p s').2)
    else (EmptyString, s)
  end.

Definition lit (pre s : string) : option string :=
  if String.prefix pre s then Some (str_from (String.length pre) s) else None.

Definition many1 (p : ascii → bool) (s : string) : option (string * string) :=
  match (span p s).1 with
  | EmptyString => None
  | g => Some (g, (span p s).2)
  end.

Fixpoint search {A} (m : string → option A) (s : string) : option A :=
  match m s with
  | Some a => Some a
  | None =>
    match s with
    | EmptyString => None
    | String _ s' => search m s'
    end
  end.

Definition ip_here (s : string) : option (string * string) :=
  r ← lit "ip" s;
  r ← many1 is_space r;
  r ← lit "0x" r.2;
  g1 ← many1 is_word r;
  r ← lit "," g1.2;
  r ← many1 is_space r;
  r ← lit "sp" r.2;
  r ← many1 is_space r;
  r ← lit "0x" r.2;
  g2 ← many1 is_word r;
  match g2.2 with
  | EmptyString => Some (g1.1, g2.1)
  | _ => None
  end.

Definition deleted_here (s : string) : option unit :=
  r ← lit ")[+" s;
  g ← many1 is_word r;
  r ← lit "])" g.2;
  match r with
  | EmptyString => Some ()
  | _ => None
  end.

Definition frame_tail (s : string) : option string :=
  r ← lit "[+" s;
  g ← many1 is_word r;
  _ ← lit "])" g.2;
  Some g.1.

(** [(.+)] is greedy: the last position where the tail matches wins. *)
Fixpoint frame_go (pre s : string) (best : option (string * string))
  : option (string * string) :=
  match s with
  | EmptyString => best
  | String c s' =>
    if Ascii.eqb c "010" then best
    else
      let pre' := pre +:+ String c EmptyString in
      frame_go pre' s'
        (match frame_tail s' with
         | Some g => Some (pre', g)
         | None => best
         end)
  end.

Definition PyLib_ref : PyLib := {|
  py_int := digits_int;
  re_search_ip := search ip_here;
  re_search_deleted := λ s, bool_decide (is_Some (search deleted_here s));
  re_match_frame := λ s, frame_go EmptyString s None
|}.

(** ** The record body, read from its lines

    What [parse_callchain_record] takes from each line of the record, said
    of the line itself: the record and its defects are then read off the
    lines, in their order, and compared with what the loop computes. *)
























(** * Declarative readings, and the loop over the dump *)

(** ** The registry, read declaratively *)

(** What is left of an old range on the low side of an insert at [s]. *)
Definition clip_left (s : Z) (x : MapEntry) : option MapEntry :=
  if end_ x <=? s then Some x
  else if start x <? s then Some (set_end x s)
  else None.

(** What is left of an old range on the high side of an insert of [s, e):
    nothing of a range that reaches below [s]. *)
Definition clip_right (s e : Z) (x : MapEntry) : option MapEntry :=
  if (end_ x <=? s) || (start x <? s) then None
  else if start x >=? e then Some x
  else if end_ x >? e then Some (set_start x e)
  else None.

(** [r'] is a part of [r]: the same file, within its bounds. *)
Definition part_of (r' r : MapEntry) : Prop :=
  filename r' = filename r ∧ start r ≤ start r' ∧ end_ r' ≤ end_ r.

(** ** Timing, read from the samples *)

(** The time [add_sample_result] reads from a sample: the [used_time] entry
    as [int()] reads it, when there is one. *)
Definition used_time_of `{PyLib} (s : SampleResult) : option Z :=
  unwinding_result s !! "used_time" ≫= py_int 10.

Definition times_of `{PyLib} (samples : list (SampleResult * CallChainRecord))
  : list Z :=
  omap (λ sj, used_time_of sj.1) samples.

(** A node in libc.so at one of the two entry functions. *)
Definition entry_node (node : CallChainNode) : Prop :=
  (∃ pre, node_filename node = pre +:+ "libc.so") ∧
  (function_name node = "__libc_init" ∨ function_name node = "__start_thread").

(** ** The aggregation, read declaratively *)

(** The sample belongs under the triple: its last node names the file and
    the function, and its stop reason is [c]. *)
Definition filed_under (a b c : string) (s : SampleResult) : Prop :=
  ∃ node, last (callchain s) = Some node ∧
          node_filename node = a ∧ function_name node = b ∧
          unwinding_result s !! "stop_reason" = Some c.

(** The sample passes the two checks of [should_omit] that look at the
    sample alone. *)
Definition reportable (s : SampleResult) : Prop :=
  ∃ node, last (callchain s) = Some node ∧
    contains "/dev/ashmem/dalvik-jit-code-cache" (node_filename node) = false ∧
    contains "//anon" (node_filename node) = false ∧
    is_callchain_complete (callchain s) = false.

(** What holds of every stored list. *)
Definition buckets_ok (self : UnwindingResultErrorReport) : Prop :=
  ∀ a b c,
    NoDup (anchor_vaddr <$> stored self a b c) ∧
    Forall (λ s, filed_under a b c s ∧ reportable s) (stored self a b c).

(** No dict of the aggregation and no list in it is empty. *)
Definition no_empty_bucket (self : UnwindingResultErrorReport) : Prop :=
  ∀ a fr, file_results self !! a = Some fr →
    function_results fr ≠ ∅ ∧
    ∀ b fnr, function_results fr !! b = Some fnr →
      sample_results fnr ≠ ∅ ∧
      ∀ c l, sample_results fnr !! c = Some l → l ≠ [].

(** The map bounds of a node are right for the pid's ranges: zero and zero
    with no range covering the ip, or the bounds of a stored range that
    covers it. *)
Definition bounds_right (pm : ProcessMaps) (pid : Z) (node : CallChainNode)
  : Prop :=
  (map_start_addr node = 0 ∧ map_end_addr node = 0 ∧
   ∀ r, r ∈ ranges pm pid → ¬ (start r ≤ ip node < end_ r)) ∨
  (∃ r, r ∈ ranges pm pid ∧
        start r = map_start_addr node ∧ end_ r = map_end_addr node ∧
        map_start_addr node ≤ ip node < map_end_addr node).

(** ** build_unwinding_result_report

    The part of [build_unwinding_result_report] that works on the lines of
    the dump: the [while i < len(lines)] loop with its three kinds of
    records.  Running simpleperf, the check that the dump has callchain and
    unwinding_result records at all ([log_exit]) and the split of the output
    into lines come before it and are not modelled. *)

(** The two regular expressions of the loop, taken as given like those of
    [PyLib]: the captured groups of the match, [None] when there is none. *)
Class DumpLib := {
  (** [re.search(r'pid\s+(\d+).+addr\s+0x(\w+).+len\s+0x(\w+)', line)] *)
  re_search_mmap : string → option (string * string * string);
  (** [re.search(r'pid\s+(\w+),\s+ppid\s+(\w+)', line)] *)
  re_search_fork : string → option (string * string)
}.

(** [s.find(sub)]: the lowest index where [sub] occurs in [s], or [-1]. *)
Fixpoint find_go (sub s : string) (i : Z) : Z :=
  if String.prefix sub s then i
  else
    match s with
    | EmptyString => -1
    | String _ s' => find_go sub s' (i + 1)
    end.

Definition str_find (sub s : string) : Z := find_go sub s 0.

(** [while i < len(lines) and not lines[i].startswith('record')], the inner
    loop of each record kind, with the statements for one line as [body];
    [ls] is [lines[i:]]. *)
Fixpoint record_body {St : Type} (body : string → St → result St)
    (ls : list string) (i : nat) (st : St) : result (nat * St) :=
  match ls with
  | [] => Ok (i, st)
  | l :: rest =>
    if startswith "record" l then Ok (i, st)
    else
      let* st' := body l st in
      record_body body rest (S i) st'
  end.

(** The variables [pid], [start], [end], [filename] of a [record mmap]. *)
Record MmapState := mkMmapState {
  mm_pid : option Z;
  mm_start : option Z;
  mm_end : option Z;
  mm_filename : option string
}.

(** One line of a [record mmap]. *)
Definition mmap_line `{PyLib} `{DumpLib} (l : string) (st : MmapState)
  : result MmapState :=
  if startswith "  pid" l then
    match re_search_mmap l with
    | Some (g1, g2, g3) =>
      let* pid := of_option ValueError (py_int 10 g1) in
      let* start := of_option ValueError (py_int 16 g2) in
      let* len := of_option ValueError (py_int 16 g3) in
      Ok (mkMmapState (Some pid) (Some start) (Some (start + len))
            (mm_filename st))
    | None => Ok st
    end
  else if startswith "  pgoff" l then
    let pos := str_find "filename" l + 8 in
    Ok (mkMmapState (mm_pid st) (mm_start st) (mm_end st)
          (Some (strip (str_from (Z.to_nat pos) l))))
  else Ok st.

(** One line of a [record unwinding_result]. *)
Definition result_line (l : string) (unwinding_result : gmap string string)
  : result (gmap string string) :=
  let strs := split (strip l) in
  if (length strs =? 2)%nat
  then Ok (<[strs !!! 0%nat := strs !!! 1%nat]> unwinding_result)
  else Ok unwinding_result.

(** One line of a [record fork]: [pid] and [ppid]. *)
Definition fork_line `{PyLib} `{DumpLib} (l : string)
    (st : option Z * option Z) : result (option Z * option Z) :=
  if startswith "  pid" l then
    match re_search_fork l with
    | Some (g1, g2) =>
      let* pid := of_option ValueError (py_int 10 g1) in
      let* ppid := of_option ValueError (py_int 10 g2) in
      Ok (Some pid, Some ppid)
    | None => Ok st
    end
  else Ok st.

(** The report with its registry replaced: [process_maps] is the registry
    object of the report, so what [add] and [fork_pid] do to it shows in the
    report. *)
Definition with_process_maps (pm : ProcessMaps)
    (self : UnwindingResultErrorReport) : UnwindingResultErrorReport :=
  mkReport (omit_callchains_fixed_by_joiner self) pm (unwinding_times self)
           (file_results self).

(** The [for key in ['time', 'used_time', 'stop_reason']] loop. *)
Fixpoint check_keys {A} (keys : list string) (d : gmap string string)
    (i : nat) (k : result A) : result A :=
  match keys with
  | [] => k
  | key :: rest =>
    match d !! key with
    | None => log_fatal i
    | Some _ => check_keys rest d i k
    end
  end.

(** One turn of the [while i < len(lines)] loop, for [i < len(lines)]: the
    next index and the report.  A record that [parse_callchain_record]
    returns has its pid and tid (it ends with [log_fatal] otherwise), so the
    defaults of the sample's pid and tid are never used. *)
Definition build_step `{PyLib} `{DumpLib} (lines : list string) (i : nat)
    (report : UnwindingResultErrorReport)
  : result (nat * UnwindingResultErrorReport) :=
  match lines !! i with
  | None => Raise IndexError
  | Some l =>
    if startswith "record mmap:" l then
      let* r := record_body mmap_line (drop (S i) lines) (S i)
                  (mkMmapState None None None None) in
      match mm_pid r.2, mm_start r.2, mm_end r.2, mm_filename r.2 with
      | Some pid, Some start, Some end_, Some filename =>
        Ok (r.1, with_process_maps
                   (add_range pid start end_ filename
                      (report_process_maps report)) report)
      | _, _, _, _ => log_fatal r.1
      end
    else if startswith "record unwinding_result:" l then
      let* r := record_body result_line (drop (S i) lines) (S i) ∅ in
      let unwinding_result := r.2 in
      check_keys ["time"; "used_time"; "stop_reason"] unwinding_result r.1
        (let* original :=
           parse_callchain_record lines r.1 "ORIGINAL_OFFLINE"
             (report_process_maps report) in
         let* joined :=
           parse_callchain_record lines original.1 "JOINED_OFFLINE"
             (report_process_maps report) in
         let sample_result :=
           mkSampleResult (default 0 (rec_pid original.2))
             (default 0 (rec_tid original.2)) unwinding_result
             (rec_callchain original.2) in
         let* report' := add_sample_result sample_result joined.2 report in
         Ok (joined.1, report'))
    else if startswith "record fork:" l then
      let* r := record_body fork_line (drop (S i) lines) (S i) (None, None) in
      match r.2 with
      | (Some pid, Some ppid) =>
        Ok (r.1, with_process_maps
                   (fork_pid pid ppid (report_process_maps report)) report)
      | _ => log_fatal r.1
      end
    else Ok (S i, report)
  end.

(** The [while i < len(lines)] loop.  Every turn moves [i] forward (lemma
    [build_step_spec]), so [len(lines)] turns are enough; [None] would be a
    loop that is cut short. *)
Fixpoint build_loop `{PyLib} `{DumpLib} (fuel : nat) (lines : list string)
    (i : nat) (report : UnwindingResultErrorReport)
  : option (result UnwindingResultErrorReport) :=
  if (i <? length lines)%nat then
    match fuel with
    | O => None
    | S fuel' =>
      match build_step lines i report with
      | Ok r => build_loop fuel' lines r.1 r.2
      | Raise e => Some (Raise e)
      end
    end
  else Some (Ok report).

(** The report [build_unwinding_result_report] builds from the lines of the
    dump. *)
Definition build_report `{PyLib} `{DumpLib} (lines : list string)
    (omit_callchains_fixed_by_joiner : bool)
  : option (result UnwindingResultErrorReport) :=
  build_loop (length lines) lines 0 (Report_init omit_callchains_fixed_by_joiner).

(** The records that make the report count a sample. *)
Definition is_unwinding_header (l : string) : bool :=
  startswith "record unwinding_result:" l.

(** ** A backtracking matcher for the two patterns

    Enough of Python's [re] for the two patterns of the loop: literal
    characters, a greedy [+] on a character class, groups and a search from
    left to right.  [Many1] tries the longest run first and gives characters
    back one by one, as the backtracking matcher of [re] does. *)
Inductive re_item :=
| Lit (c : ascii)
| Many1 (p : ascii → bool)
| GroupOpen
| GroupClose.

Fixpoint re_run (items : list re_item) (s : string) (opened : list string)
    (groups : list string) : option (list string) :=
  match items with
  | [] => Some groups
  | Lit c :: rest =>
    match s with
    | String a s' => if Ascii.eqb a c then re_run rest s' opened groups else None
    | EmptyString => None
    end
  | Many1 p :: rest =>
    (fix many (s : string) : option (list string) :=
       match s with
       | String a s' =>
         if p a then
           match many s' with
           | Some g => Some g
           | None => re_run rest s' opened groups
           end
         else None
       | EmptyString => None
       end) s
  | GroupOpen :: rest => re_run rest s (s :: opened) groups
  | GroupClose :: rest =>
    match opened with
    | from :: opened' =>
      re_run rest s opened'
        (groups ++ [str_upto (String.length from - String.length s) from])
    | [] => None
    end
  end.

(** [re.search]: the first position, from the left, with a match. *)
Fixpoint re_search (items : list re_item) (s : string)
  : option (list string) :=
  match re_run items s [] [] with
  | Some g => Some g
  | None =>
    match s with
    | EmptyString => None
    | String _ s' => re_search items s'
    end
  end.

Definition lits (s : string) : list re_item :=
  Lit <$> list_ascii_of_string s.

(** [\d] and [.] *)
Definition is_digit (c : ascii) : bool :=
  let n := Z.of_nat (nat_of_ascii c) in (48 <=? n) && (n <=? 57).

Definition is_dot (c : ascii) : bool := negb (Ascii.eqb c "010").

Definition mmap_pattern : list re_item :=
  lits "pid" ++ [Many1 is_space; GroupOpen; Many1 is_digit; GroupClose;
                 Many1 is_dot] ++
  lits "addr" ++ [Many1 is_space] ++ lits "0x" ++
  [GroupOpen; Many1 is_word; GroupClose; Many1 is_dot] ++
  lits "len" ++ [Many1 is_space] ++ lits "0x" ++
  [GroupOpen; Many1 is_word; GroupClose].

Definition fork_pattern : list re_item :=
  lits "pid" ++ [Many1 is_space; GroupOpen; Many1 is_word; GroupClose] ++
  lits "," ++ [Many1 is_space] ++ lits "ppid" ++
  [Many1 is_space; GroupOpen; Many1 is_word; GroupClose].

Definition DumpLib_ref : DumpLib := {|
  re_search_mmap := λ s,
    match re_search mmap_pattern s with
    | Some [g1; g2; g3] => Some (g1, g2, g3)
    | _ => None
    end;
  re_search_fork := λ s,
    match re_search fork_pattern s with
    | Some [g1; g2] => Some (g1, g2)
    | _ => None
    end
|}.

(** Sample data: a dump with an mmap record, a fork record and one sample. *)
Definition sample_dump : list string :=
  ["record mmap: type 1";
   "  pid 7, tid 7, addr 0x1000, len 0x2000";
   "  pgoff 0x0, filename /system/lib/libfoo.so";
   "record fork: type 7";
   "  pid 8, ppid 7";
   "record unwinding_result: type 70";
   "  time 12345";
   "  used_time 678";
   "  stop_reason ACCESS_REG_FAILED";
   "record callchain: type 71";
   "  pid 8";
   "  tid 9";
   "  chain_type ORIGINAL_OFFLINE";
   "  ip 0x1010, sp 0x7f00";
   "  callchain:";
   "    foo (/system/lib/libfoo.so[+10])";
   "record callchain: type 71";
   "  pid 8";
   "  tid 9";
   "  chain_type JOINED_OFFLINE";
   "  ip 0x1010, sp 0x7f00";
   "  callchain:";
   "    foo (/system/lib/libfoo.so[+10])";
   EmptyString]%string.


(** The number of [record unwinding_result] lines of a dump. *)
Definition unwinding_headers (lines : list string) : nat :=
  length (List.filter is_unwinding_header lines).

(** [int(.., 16)] of the length a [record mmap] line gives is not negative
    (the group is [\w+], which has no sign). *)
Definition lengths_nonneg `{PyLib} `{DumpLib} : Prop :=
  ∀ l g1 g2 g3 v,
    re_search_mmap l = Some (g1, g2, g3) → py_int 16 g3 = Some v → 0 ≤ v.

(** The report is a new report after the events [evs] on its registry and
    the samples [samples], fed in order. *)
Definition built_from `{PyLib} (flag : bool) (evs : list MapEvent)
    (samples : list (SampleResult * CallChainRecord))
    (report : UnwindingResultErrorReport) : Prop :=
  ∃ r, add_sample_results samples (Report_init flag) = Ok r ∧
       report = with_process_maps (apply_events evs ProcessMaps_init) r.

(** Sample data: an mmap record that ends before its filename line. *)
Definition truncated_dump : list string :=
  ["record mmap: type 1";
   "  pid 7, tid 7, addr 0x1000, len 0x2000"]%string.

(** Sample data: the report built from [sample_dump]. *)
Definition sample_report : UnwindingResultErrorReport :=
  match @build_report PyLib_ref DumpLib_ref sample_dump false with
  | Some (Ok report) => report
  | _ => Report_init false
  end.

(** Proof steps: [simpl] unfolds the list map; fold it back. *)
Ltac refold_fmap :=
  change (list_fmap nat MapEntry) with (@fmap list list_fmap nat MapEntry) in *.

(** * Properties *)

Example add_inside_eval :
  ranges (add_range 7 10 20 "b" (add_range 7 0 100 "a" ProcessMaps_init)) 7
  = [mkMapEntry 0 10 "a"; mkMapEntry 10 20 "b"].
Proof. vm_compute. reflexivity. Qed.

Example find_eval :
  let pm := apply_events [Mmap 7 0 100 "a"; Mmap 7 10 20 "b"; Fork 8 7; Mmap 7 5 15 "c"] ProcessMaps_init in
  (ranges pm 7, ranges pm 8, find_range 7 12 pm, find_range 8 12 pm, find_range 8 20 pm, find_range 9 0 pm)
  = ([mkMapEntry 0 5 "a"; mkMapEntry 5 15 "c"; mkMapEntry 15 20 "b"],
     [mkMapEntry 0 10 "a"; mkMapEntry 10 20 "b"],
     Some (mkMapEntry 5 15 "c"), Some (mkMapEntry 10 20 "b"), None, None).
Proof. vm_compute. reflexivity. Qed.

Example strings_eval :
  (strip "  pid   7 ", split "  pid   7 ", split EmptyString, rfind "(" "f (a) (b)",
   rfind_before "(" "f (a) (b)" 6, rfind "(" "none",
   endswith "libc.so" "/system/lib/libc.so", endswith "libc.so" "c.so",
   contains "//anon" "/dev//anon_inode", contains "//anon" "/anon/")
  = ("pid   7"%string, ["pid"; "7"]%string, [], 6, 2, -1, true, false, true, false).
Proof. vm_compute. reflexivity. Qed.

Example parse_eval :
  @parse_callchain_record PyLib_ref
    ["record callchain: type 1"; "  pid 7"; "  tid 8";
     "  chain_type ORIGINAL_OFFLINE"; "  ip 0x10, sp 0x7f00";
     "  ip 0x3, sp 0x7f08";
     "  callchain:"; "    f (lib.so[+4])";
     "    dalvik-jit-code-cache (deleted)[+346c] (/dev/ashmem/dalvik-jit-code-cache (deleted)[+346c])";
     "record x"] 0 "ORIGINAL_OFFLINE"
    (apply_events [Mmap 7 0 100 "a"; Mmap 7 10 20 "b"] ProcessMaps_init)
  = Ok (9%nat, mkCallChainRecord (Some 7) (Some 8)
         [mkCallChainNode 16 32512 "lib.so" 4 "f" 10 20;
          mkCallChainNode 3 32520 "/dev/ashmem/dalvik-jit-code-cache (deleted)" 13420
             "dalvik-jit-code-cache (deleted)[+346c]" 0 10]).
Proof. vm_compute. reflexivity. Qed.

(** ** The object store *)

Lemma fmap_store_ext (st st' : list MapEntry) (l : list nat) :
  (∀ r, r ∈ l → st' !!! r = st !!! r) →
  (λ r, st' !!! r) <$> l = (λ r, st !!! r) <$> l.
Proof.
  intros Hext. apply list_fmap_ext. intros i r Hr.
  apply Hext. eapply list_elem_of_lookup_2; eauto.
Qed.

Lemma store_insert_other (st : list MapEntry) (l : list nat) entry v :
  entry ∉ l →
  (λ r, <[entry := v]> st !!! r) <$> l = (λ r, st !!! r) <$> l.
Proof.
  intros Hnotin. apply fmap_store_ext. intros r Hr.
  apply list_lookup_total_insert_ne. intros ->. contradiction.
Qed.

Lemma store_app_other (st ext : list MapEntry) (l : list nat) :
  Forall (λ r, (r < length st)%nat) l →
  (λ r, (st ++ ext) !!! r) <$> l = (λ r, st !!! r) <$> l.
Proof.
  intros Hall. apply fmap_store_ext. intros r Hr.
  apply lookup_total_app_l. rewrite Forall_forall in Hall. by apply Hall.
Qed.

(** ** [add] computes [overlay] *)

Lemma add_loop_spec map_entry old :
  ∀ st acc used,
    NoDup old → map_entry ∉ old →
    Forall (λ r, (r < length st)%nat) old →
    ∃ st' refs used',
      add_loop map_entry old st acc used = (st', acc ++ refs, used') ∧
      length st' = length st ∧
      (∀ r, r ∉ old → st' !!! r = st !!! r) ∧
      (λ r, st' !!! r) <$> (refs ++ (if used' then [] else [map_entry]))
        = overlay (st !!! map_entry) ((λ r, st !!! r) <$> old) used ∧
      (used = true → used' = true) ∧
      (∀ r, r ∈ refs → r ∈ old ∨ (r = map_entry ∧ used = false)) ∧
      NoDup (refs ++ (if used' then [] else [map_entry])).
Proof.
  induction old as [|entry rest IH]; intros st acc used Hnd Hme Hall.
  - exists st, [], used. simpl. rewrite app_nil_r.
    repeat split; try done.
    + by destruct used.
    + intros r Hr. by apply elem_of_nil in Hr.
    + destruct used; [constructor | apply NoDup_singleton].
  - apply NoDup_cons in Hnd as [Hentry Hnd].
    apply not_elem_of_cons in Hme as [Hne Hme].
    apply Forall_cons in Hall as [Hlt Hall].
    assert (Hkeep : ∀ st1 : list MapEntry, length st1 = length st →
              Forall (λ r, (r < length st1)%nat) rest)
      by (intros st1 ->; done).
    simpl; refold_fmap.
    destruct (end_ (st !!! entry) <=? start (st !!! map_entry)) eqn:E1;
      [|destruct (start (st !!! entry) <? start (st !!! map_entry)) eqn:E2;
        [|destruct (start (st !!! entry) >=? end_ (st !!! map_entry)) eqn:E3;
          [|destruct (end_ (st !!! entry) >? end_ (st !!! map_entry)) eqn:E4]]].
    + destruct (IH st (acc ++ [entry]) used Hnd Hme Hall)
        as (st' & refs & used' & Heq & Hlen & Hframe & Hval & Hmono & Hin & Hnd').
      exists st', (entry :: refs), used'. rewrite Heq.
      repeat split; try done.
      * by rewrite <- app_assoc.
      * intros r Hr. apply not_elem_of_cons in Hr as [_ Hr]. by apply Hframe.
      * simpl; refold_fmap. rewrite Hval, (Hframe entry Hentry). done.
      * intros r Hr. apply elem_of_cons in Hr as [->|Hr].
        -- left. apply elem_of_cons. by left.
        -- destruct (Hin r Hr) as [?|?]; [left; apply elem_of_cons; by right | by right].
      * simpl. apply NoDup_cons. split; [|done].
        intros Hbad. apply elem_of_app in Hbad as [Hbad|Hbad].
        -- destruct (Hin _ Hbad) as [?|[? _]]; [done | congruence].
        -- destruct used'; [by apply elem_of_nil in Hbad|].
           apply list_elem_of_singleton in Hbad. congruence.
    + set (st1 := <[entry := set_end (st !!! entry) (start (st !!! map_entry))]> st).
      assert (Hlen1 : length st1 = length st) by apply length_insert.
      destruct (IH st1 (acc ++ [entry]) used Hnd Hme (Hkeep st1 Hlen1))
        as (st' & refs & used' & Heq & Hlen & Hframe & Hval & Hmono & Hin & Hnd').
      exists st', (entry :: refs), used'. rewrite Heq.
      repeat split; try done.
      * by rewrite <- app_assoc.
      * congruence.
      * intros r Hr. apply not_elem_of_cons in Hr as [Hr1 Hr].
        rewrite (Hframe r Hr). subst st1.
        by apply list_lookup_total_insert_ne.
      * simpl; refold_fmap. rewrite Hval, (Hframe entry Hentry). subst st1.
        rewrite list_lookup_total_insert_eq by done.
        rewrite list_lookup_total_insert_ne by done.
        by rewrite store_insert_other.
      * intros r Hr. apply elem_of_cons in Hr as [->|Hr].
        -- left. apply elem_of_cons. by left.
        -- destruct (Hin r Hr) as [?|?]; [left; apply elem_of_cons; by right | by right].
      * simpl. apply NoDup_cons. split; [|done].
        intros Hbad. apply elem_of_app in Hbad as [Hbad|Hbad].
        -- destruct (Hin _ Hbad) as [?|[? _]]; [done | congruence].
        -- destruct used'; [by apply elem_of_nil in Hbad|].
           apply list_elem_of_singleton in Hbad. congruence.
    + destruct (IH st ((if used then acc else acc ++ [map_entry]) ++ [entry])
                  true Hnd Hme Hall)
        as (st' & refs & used' & Heq & Hlen & Hframe & Hval & Hmono & Hin & Hnd').
      rewrite (Hmono eq_refl) in *. rewrite app_nil_r in Hval, Hnd'.
      exists st', ((if used then [] else [map_entry]) ++ entry :: refs), true.
      rewrite Heq.
      assert (Hrefs : ∀ r, r ∈ refs → r ∈ rest).
      { intros r Hr. destruct (Hin r Hr) as [?|[_ ?]]; [done | discriminate]. }
      repeat split; try done.
      * f_equal. destruct used; simpl; by rewrite <- !app_assoc.
      * intros r Hr. apply not_elem_of_cons in Hr as [_ Hr]. by apply Hframe.
      * rewrite app_nil_r, fmap_app. simpl; refold_fmap. rewrite Hval, (Hframe entry Hentry).
        f_equal. destruct used; simpl; [done|]. by rewrite (Hframe _ Hme).
      * intros r Hr. apply elem_of_app in Hr as [Hr|Hr].
        -- destruct used; [by apply elem_of_nil in Hr|].
           apply list_elem_of_singleton in Hr. by right.
        -- left. apply elem_of_cons in Hr as [->|Hr]; apply elem_of_cons;
             [by left | right; by apply Hrefs].
      * rewrite app_nil_r.
        assert (NoDup (entry :: refs)).
        { apply NoDup_cons. split; [|done]. intros Hbad. by apply Hrefs in Hbad. }
        destruct used; simpl; [done|].
        apply NoDup_cons. split; [|done].
        intros Hbad. apply elem_of_cons in Hbad as [?|Hbad]; [congruence|].
        by apply Hrefs in Hbad.
    + set (st1 := <[entry := set_start (st !!! entry) (end_ (st !!! map_entry))]> st).
      assert (Hlen1 : length st1 = length st) by apply length_insert.
      destruct (IH st1 ((if used then acc else acc ++ [map_entry]) ++ [entry])
                  true Hnd Hme (Hkeep st1 Hlen1))
        as (st' & refs & used' & Heq & Hlen & Hframe & Hval & Hmono & Hin & Hnd').
      rewrite (Hmono eq_refl) in *. rewrite app_nil_r in Hval, Hnd'.
      exists st', ((if used then [] else [map_entry]) ++ entry :: refs), true.
      rewrite Heq.
      assert (Hrefs : ∀ r, r ∈ refs → r ∈ rest).
      { intros r Hr. destruct (Hin r Hr) as [?|[_ ?]]; [done | discriminate]. }
      repeat split; try done.
      * f_equal. destruct used; simpl; by rewrite <- !app_assoc.
      * congruence.
      * intros r Hr. apply not_elem_of_cons in Hr as [Hr1 Hr].
        rewrite (Hframe r Hr). subst st1.
        by apply list_lookup_total_insert_ne.
      * rewrite app_nil_r, fmap_app. simpl; refold_fmap. rewrite Hval, (Hframe entry Hentry).
        subst st1.
        rewrite list_lookup_total_insert_eq by done.
        rewrite list_lookup_total_insert_ne by done.
        rewrite store_insert_other by done.
        f_equal. destruct used; simpl; [done|].
        rewrite (Hframe _ Hme). by rewrite list_lookup_total_insert_ne.
      * intros r Hr. apply elem_of_app in Hr as [Hr|Hr].
        -- destruct used; [by apply elem_of_nil in Hr|].
           apply list_elem_of_singleton in Hr. by right.
        -- left. apply elem_of_cons in Hr as [->|Hr]; apply elem_of_cons;
             [by left | right; by apply Hrefs].
      * rewrite app_nil_r.
        assert (NoDup (entry :: refs)).
        { apply NoDup_cons. split; [|done]. intros Hbad. by apply Hrefs in Hbad. }
        destruct used; simpl; [done|].
        apply NoDup_cons. split; [|done].
        intros Hbad. apply elem_of_cons in Hbad as [?|Hbad]; [congruence|].
        by apply Hrefs in Hbad.
    + destruct (IH st (if used then acc else acc ++ [map_entry])
                  true Hnd Hme Hall)
        as (st' & refs & used' & Heq & Hlen & Hframe & Hval & Hmono & Hin & Hnd').
      rewrite (Hmono eq_refl) in *. rewrite app_nil_r in Hval, Hnd'.
      exists st', ((if used then [] else [map_entry]) ++ refs), true.
      rewrite Heq.
      assert (Hrefs : ∀ r, r ∈ refs → r ∈ rest).
      { intros r Hr. destruct (Hin r Hr) as [?|[_ ?]]; [done | discriminate]. }
      repeat split; try done.
      * f_equal. destruct used; simpl; by rewrite <- ?app_assoc.
      * intros r Hr. apply not_elem_of_cons in Hr as [_ Hr]. by apply Hframe.
      * rewrite app_nil_r, fmap_app. simpl; refold_fmap. rewrite Hval.
        f_equal. destruct used; simpl; [done|]. by rewrite (Hframe _ Hme).
      * intros r Hr. apply elem_of_app in Hr as [Hr|Hr].
        -- destruct used; [by apply elem_of_nil in Hr|].
           apply list_elem_of_singleton in Hr. by right.
        -- left. apply elem_of_cons. right. by apply Hrefs.
      * rewrite app_nil_r. destruct used; simpl; [done|].
        apply NoDup_cons. split; [|done].
        intros Hbad. by apply Hrefs in Hbad.
Qed.

Lemma separated_lookup pm pid :
  separated pm →
  let old := default [] (process_maps pm !! pid) in
  NoDup old ∧ Forall (λ r, (r < length (store pm))%nat) old.
Proof.
  intros Hsep. simpl. destruct (process_maps pm !! pid) as [l|] eqn:E; simpl.
  - destruct (Hsep pid l E) as (? & ? & _). done.
  - split; constructor.
Qed.

Lemma add_range_spec pid s e f pm :
  separated pm →
  ranges (add_range pid s e f pm) pid
    = overlay (mkMapEntry s e f) (ranges pm pid) false ∧
  (∀ pid', pid' ≠ pid →
     ranges (add_range pid s e f pm) pid' = ranges pm pid') ∧
  separated (add_range pid s e f pm).
Proof.
  intros Hsep.
  destruct (separated_lookup pm pid Hsep) as [Hnd Hall].
  set (old := default [] (process_maps pm !! pid)) in *.
  set (m := mkMapEntry s e f).
  set (me := length (store pm)).
  assert (Hme : me ∉ old).
  { intros Hin. rewrite Forall_forall in Hall. apply Hall in Hin. unfold me in Hin. lia. }
  assert (Hall1 : Forall (λ r, (r < length (store pm ++ [m]))%nat) old).
  { eapply Forall_impl; [exact Hall|]. intros r Hr. rewrite length_app. simpl in *. lia. }
  destruct (add_loop_spec me old (store pm ++ [m]) [] false Hnd Hme Hall1)
    as (st' & refs & used' & Heq & Hlen & Hframe & Hval & _ & Hin & Hnd').
  simpl in Heq.
  assert (Hadd : add_range pid s e f pm
            = mkProcessMaps st'
                (<[pid := refs ++ (if used' then [] else [me])]> (process_maps pm))).
  { unfold add_range, new_MapEntry, add. simpl. fold old me m. rewrite Heq.
    destruct used'; by rewrite ?app_nil_r. }
  assert (Hme_val : (store pm ++ [m]) !!! me = m)
    by apply list_lookup_total_middle, eq_refl.
  assert (Hnew : ∀ r, r ∈ refs ++ (if used' then [] else [me]) →
                      r ∈ old ∨ r = me).
  { intros r Hr. apply elem_of_app in Hr as [Hr|Hr].
    - destruct (Hin r Hr) as [?|[? _]]; auto.
    - destruct used'; [by apply elem_of_nil in Hr|].
      apply list_elem_of_singleton in Hr. auto. }
  assert (Hother : ∀ pid' l', pid' ≠ pid → process_maps pm !! pid' = Some l' →
            Forall (λ r, (r < me)%nat) l' ∧
            (∀ r, r ∈ l' → r ∉ old) ∧
            (λ r, st' !!! r) <$> l' = (λ r, store pm !!! r) <$> l').
  { intros pid' l' Hne Hl'. destruct (Hsep pid' l' Hl') as (_ & Hall' & Hdisj).
    assert (Hno : ∀ r, r ∈ l' → r ∉ old).
    { intros r Hr. unfold old. destruct (process_maps pm !! pid) as [l|] eqn:E; simpl.
      - eapply Hdisj; eauto.
      - apply not_elem_of_nil. }
    repeat split; [done..|].
    rewrite <- (store_app_other (store pm) [m] l' Hall').
    apply fmap_store_ext. intros r Hr. apply Hframe. by apply Hno. }
  rewrite Hadd. split; [|split].
  - unfold ranges. simpl. rewrite lookup_insert_eq. simpl.
    rewrite Hval, Hme_val. f_equal. by apply store_app_other.
  - intros pid' Hne. unfold ranges. simpl. rewrite lookup_insert_ne by done.
    destruct (process_maps pm !! pid') as [l'|] eqn:E; simpl; [|done].
    by destruct (Hother pid' l' Hne E) as (_ & _ & ->).
  - intros p lp Hl. simpl in Hl.
    assert (Hlen' : length st' = S me).
    { rewrite Hlen, length_app. simpl. unfold me. lia. }
    destruct (decide (p = pid)) as [->|Hp].
    + rewrite lookup_insert_eq in Hl. injection Hl as <-.
      repeat split; [done| |].
      * apply Forall_forall. intros r Hr. simpl. rewrite Hlen'.
        destruct (Hnew r Hr) as [Hr'| ->]; [|lia].
        rewrite Forall_forall in Hall. apply Hall in Hr'. unfold me. lia.
      * intros pid' l' Hne Hl' r Hr Hr'. simpl in Hl'.
        rewrite lookup_insert_ne in Hl' by done.
        destruct (Hother pid' l' Hne Hl') as (Hlt & Hno & _).
        destruct (Hnew r Hr) as [Hr0| ->]; [by apply (Hno r)|].
        rewrite Forall_forall in Hlt. apply Hlt in Hr'. lia.
    + rewrite lookup_insert_ne in Hl by done.
      destruct (Hsep p lp Hl) as (Hndl & Halll & Hdisj).
      destruct (Hother p lp Hp Hl) as (Hlt & Hno & _).
      repeat split; [done| |].
      * eapply Forall_impl; [exact Hlt|]. intros r Hr. simpl in *. lia.
      * intros pid' l' Hne Hl' r Hr Hr'. simpl in Hl'.
        destruct (decide (pid' = pid)) as [->|Hp'].
        -- rewrite lookup_insert_eq in Hl'. injection Hl' as <-.
           destruct (Hnew r Hr') as [Hr0| ->]; [by apply (Hno r)|].
           rewrite Forall_forall in Hlt. apply Hlt in Hr. lia.
        -- rewrite lookup_insert_ne in Hl' by done. by eapply Hdisj.
Qed.

(** ** [fork_pid] copies *)

Lemma deepcopy_list_spec l :
  ∀ st memo,
    NoDup l →
    Forall (λ r, (r < length st)%nat ∧ memo !! r = None) l →
    deepcopy_list l st memo
      = (st ++ ((λ r, st !!! r) <$> l), seq (length st) (length l)).
Proof.
  induction l as [|r rest IH]; intros st memo Hnd Hall.
  - simpl. by rewrite app_nil_r.
  - apply NoDup_cons in Hnd as [Hr Hnd].
    apply Forall_cons in Hall as [[Hlt Hmemo] Hall].
    simpl. rewrite Hmemo. rewrite IH; [|done|].
    + rewrite length_app. simpl. rewrite Nat.add_1_r. f_equal.
      rewrite <- app_assoc. simpl. do 2 f_equal.
      apply store_app_other. eapply Forall_impl; [exact Hall|].
      by intros ? [? _].
    + rewrite Forall_forall in Hall. apply Forall_forall. intros r' Hr'.
      destruct (Hall r' Hr') as [Hlt' Hmemo']. split.
      * rewrite length_app. simpl. lia.
      * rewrite lookup_insert_ne; [done|]. intros ->. contradiction.
Qed.

Lemma fmap_seq_app (st vs : list MapEntry) :
  (λ r, (st ++ vs) !!! r) <$> seq (length st) (length vs) = vs.
Proof.
  revert st. induction vs as [|v vs IH]; intros st; [done|].
  simpl. rewrite list_lookup_total_middle by done. f_equal.
  specialize (IH (st ++ [v])). rewrite length_app in IH. simpl in IH.
  rewrite Nat.add_1_r, <- app_assoc in IH. exact IH.
Qed.

Lemma fork_pid_eq pid ppid pm :
  separated pm → pid ≠ ppid →
  fork_pid pid ppid pm
    = mkProcessMaps (store pm ++ ranges pm ppid)
        (<[pid := seq (length (store pm)) (length (ranges pm ppid))]>
           (process_maps pm)).
Proof.
  intros Hsep Hne. unfold fork_pid. rewrite decide_False by done.
  destruct (separated_lookup pm ppid Hsep) as [Hnd Hall]. simpl in Hnd, Hall.
  rewrite deepcopy_list_spec; [|done|].
  - unfold ranges. by rewrite length_fmap.
  - eapply Forall_impl; [exact Hall|]. intros r Hr. split; [done|].
    apply lookup_empty.
Qed.

Lemma fork_pid_spec pid ppid pm :
  separated pm → pid ≠ ppid →
  ranges (fork_pid pid ppid pm) pid = ranges pm ppid ∧
  (∀ pid', pid' ≠ pid → ranges (fork_pid pid ppid pm) pid' = ranges pm pid') ∧
  separated (fork_pid pid ppid pm).
Proof.
  intros Hsep Hne. rewrite fork_pid_eq by done.
  set (vs := ranges pm ppid). split; [|split].
  - unfold ranges at 1. simpl. rewrite lookup_insert_eq. simpl.
    apply fmap_seq_app.
  - intros pid' Hne'. unfold ranges. simpl. rewrite lookup_insert_ne by done.
    destruct (process_maps pm !! pid') as [l'|] eqn:E; simpl; [|done].
    apply store_app_other. by destruct (Hsep pid' l' E) as (_ & ? & _).
  - intros p lp Hl. simpl in Hl.
    assert (Hseq : ∀ r, r ∈ seq (length (store pm)) (length vs) →
                        (length (store pm) ≤ r < length (store pm ++ vs))%nat).
    { intros r Hr. apply elem_of_seq in Hr. rewrite length_app. lia. }
    assert (Hold : ∀ p' l', process_maps pm !! p' = Some l' →
                     ∀ r, r ∈ l' → (r < length (store pm))%nat).
    { intros p' l' Hl' r Hr. destruct (Hsep p' l' Hl') as (_ & Hall & _).
      rewrite Forall_forall in Hall. by apply Hall. }
    destruct (decide (p = pid)) as [->|Hp].
    + rewrite lookup_insert_eq in Hl. injection Hl as <-.
      split; [apply NoDup_seq|]. split.
      * apply Forall_forall. intros r Hr. simpl. apply Hseq in Hr. lia.
      * intros pid' l' Hne' Hl' r Hr Hr'. simpl in Hl'.
        rewrite lookup_insert_ne in Hl' by done.
        apply Hseq in Hr. apply (Hold _ _ Hl') in Hr'. lia.
    + rewrite lookup_insert_ne in Hl by done.
      destruct (Hsep p lp Hl) as (Hndl & Halll & Hdisj).
      split; [done|]. split.
      * eapply Forall_impl; [exact Halll|]. intros r Hr. simpl in *.
        rewrite length_app. lia.
      * intros pid' l' Hne' Hl' r Hr Hr'. simpl in Hl'.
        destruct (decide (pid' = pid)) as [->|Hp'].
        -- rewrite lookup_insert_eq in Hl'. injection Hl' as <-.
           apply Hseq in Hr'. apply (Hold _ _ Hl) in Hr. lia.
        -- rewrite lookup_insert_ne in Hl' by done. by eapply Hdisj.
Qed.

Lemma separated_init : separated ProcessMaps_init.
Proof. intros pid l Hl. simpl in Hl. by rewrite lookup_empty in Hl. Qed.

Lemma apply_event_separated ev pm :
  separated pm → separated (apply_event ev pm).
Proof.
  intros Hsep. destruct ev as [pid s e f|pid ppid]; simpl.
  - by apply add_range_spec.
  - destruct (decide (pid = ppid)) as [->|Hne].
    + unfold fork_pid. by rewrite decide_True.
    + by apply fork_pid_spec.
Qed.

Lemma apply_events_separated evs pm :
  separated pm → separated (apply_events evs pm).
Proof.
  revert pm. induction evs as [|ev evs IH]; intros pm Hsep; [done|].
  simpl. apply IH. by apply apply_event_separated.
Qed.

Lemma add_ranges_separated pid rs pm :
  separated pm → separated (add_ranges pid rs pm).
Proof.
  revert pm. induction rs as [|r rs IH]; intros pm Hsep; [done|].
  simpl. apply IH. by apply add_range_spec.
Qed.

Lemma add_ranges_other pid rs pm pid' :
  separated pm → pid' ≠ pid →
  ranges (add_ranges pid rs pm) pid' = ranges pm pid'.
Proof.
  revert pm. induction rs as [|r rs IH]; intros pm Hsep Hne; [done|].
  simpl. rewrite IH; [|by apply add_range_spec|done].
  by apply add_range_spec.
Qed.

(** ** [overlay] keeps the ranges in order and disjoint *)

Lemma chain_weaken lo lo' l : lo' ≤ lo → chain lo l → chain lo' l.
Proof. destruct l as [|e rest]; simpl; [done|]. intros ? (? & ? & ?). repeat split; [lia|done..]. Qed.

Lemma overlay_chain_used m old :
  start m ≤ end_ m →
  ∀ lo, start m < lo → chain lo old →
        chain (Z.max lo (end_ m)) (overlay m old true).
Proof.
  intros Hm. induction old as [|entry rest IH]; intros lo Hlo Hch; [done|].
  simpl in Hch. destruct Hch as (H1 & H2 & Hch).
  assert (Hrest := IH (end_ entry) ltac:(lia) Hch).
  simpl.
  destruct (Z.leb_spec (end_ entry) (start m)); [lia|].
  destruct (Z.ltb_spec (start entry) (start m)); [lia|].
  simpl. unfold Z.geb, Z.gtb.
  destruct (Z.compare_spec (start entry) (end_ m)); simpl;
    try (repeat split; [lia..|]; eapply chain_weaken; [|exact Hrest]; lia).
  destruct (Z.compare_spec (end_ entry) (end_ m)); simpl;
    try (repeat split; [lia..|]);
    (eapply chain_weaken; [|exact Hrest]; lia).
Qed.

Lemma overlay_chain m old :
  start m ≤ end_ m →
  ∀ lo, lo ≤ start m → chain lo old → chain lo (overlay m old false).
Proof.
  intros Hm. induction old as [|entry rest IH]; intros lo Hlo Hch.
  - simpl. repeat split; lia.
  - simpl in Hch. destruct Hch as (H1 & H2 & Hch). simpl.
    destruct (Z.leb_spec (end_ entry) (start m)).
    { simpl. repeat split; [done..|]. apply IH; [lia|done]. }
    destruct (Z.ltb_spec (start entry) (start m)).
    { simpl. repeat split; [done|lia|]. apply IH; [lia|].
      eapply chain_weaken; [|exact Hch]. lia. }
    assert (Hrest := overlay_chain_used m rest Hm (end_ entry) ltac:(lia) Hch).
    simpl. split; [done|]. split; [done|]. unfold Z.geb, Z.gtb.
    destruct (Z.compare_spec (start entry) (end_ m)); simpl;
      try (repeat split; [lia..|]; eapply chain_weaken; [|exact Hrest]; lia).
    destruct (Z.compare_spec (end_ entry) (end_ m)); simpl;
      try (repeat split; [lia..|]);
      (eapply chain_weaken; [|exact Hrest]; lia).
Qed.

Lemma overlay_nonempty m old used :
  start m < end_ m →
  Forall (λ e, start e < end_ e) old →
  Forall (λ e, start e < end_ e) (overlay m old used).
Proof.
  intros Hm. revert used. induction old as [|entry rest IH]; intros used Hall.
  - simpl. destruct used; repeat constructor. done.
  - apply Forall_cons in Hall as [He Hall]. simpl.
    destruct (Z.leb_spec (end_ entry) (start m)); [constructor; auto|].
    destruct (Z.ltb_spec (start entry) (start m)).
    { constructor; [simpl; lia|auto]. }
    apply Forall_app. split; [destruct used; repeat constructor; done|].
    apply Forall_app. split; [|auto]. unfold Z.geb, Z.gtb.
    destruct (Z.compare_spec (start entry) (end_ m)); simpl;
      try (repeat constructor; done).
    destruct (Z.compare_spec (end_ entry) (end_ m)); simpl;
      repeat constructor; simpl; lia.
Qed.

Lemma chain_lower lo l :
  chain lo l → ∀ j b, l !! j = Some b → lo ≤ start b.
Proof.
  revert lo. induction l as [|e rest IH]; intros lo Hch j b Hb.
  - by rewrite lookup_nil in Hb.
  - simpl in Hch. destruct Hch as (H1 & H2 & Hch).
    destruct j as [|j]; simpl in Hb.
    + by injection Hb as <-.
    + specialize (IH _ Hch j b Hb). lia.
Qed.

Lemma chain_pairwise lo l :
  chain lo l →
  ∀ i j a b, l !! i = Some a → l !! j = Some b → (i < j)%nat →
             end_ a ≤ start b.
Proof.
  revert lo. induction l as [|e rest IH]; intros lo Hch i j a b Ha Hb Hij.
  - by rewrite lookup_nil in Ha.
  - simpl in Hch. destruct Hch as (H1 & H2 & Hch).
    destruct j as [|j]; [lia|]. simpl in Hb.
    destruct i as [|i]; simpl in Ha.
    + injection Ha as <-. by eapply chain_lower.
    + eapply (IH _ Hch i j); eauto. lia.
Qed.

Lemma chain_each lo l :
  chain lo l → ∀ i a, l !! i = Some a → start a ≤ end_ a.
Proof.
  revert lo. induction l as [|e rest IH]; intros lo Hch i a Ha.
  - by rewrite lookup_nil in Ha.
  - simpl in Hch. destruct Hch as (H1 & H2 & Hch).
    destruct i as [|i]; simpl in Ha.
    + by injection Ha as <-.
    + by eapply IH.
Qed.

Lemma apply_event_ordered ev pm :
  event_ok ev → separated pm → ordered pm → ordered (apply_event ev pm).
Proof.
  intros Hok Hsep Hord p. destruct ev as [pid s e f|pid ppid]; simpl in *.
  - destruct (add_range_spec pid s e f pm Hsep) as (Hval & Hoth & _).
    destruct (decide (p = pid)) as [->|Hne].
    + rewrite Hval. destruct (Hord pid) as [lo Hch].
      exists (Z.min lo s). apply overlay_chain; simpl; [done|lia|].
      eapply chain_weaken; [|exact Hch]. lia.
    + rewrite Hoth by done. apply Hord.
  - destruct (decide (pid = ppid)) as [->|Hne].
    + unfold fork_pid. rewrite decide_True by done. apply Hord.
    + destruct (fork_pid_spec pid ppid pm Hsep Hne) as (Hval & Hoth & _).
      destruct (decide (p = pid)) as [->|Hp].
      * rewrite Hval. apply Hord.
      * rewrite Hoth by done. apply Hord.
Qed.

Lemma ordered_init : ordered ProcessMaps_init.
Proof. intros pid. exists 0. unfold ranges. simpl. by rewrite lookup_empty. Qed.

Lemma apply_events_ordered evs pm :
  Forall event_ok evs → separated pm → ordered pm →
  ordered (apply_events evs pm).
Proof.
  revert pm. induction evs as [|ev evs IH]; intros pm Hok Hsep Hord; [done|].
  apply Forall_cons in Hok as [Hev Hok]. simpl. apply IH; [done| |].
  - by apply apply_event_separated.
  - by apply apply_event_ordered.
Qed.

Lemma event_strict_ok ev : event_strict ev → event_ok ev.
Proof. destruct ev; simpl; [lia|done]. Qed.

Lemma apply_event_nonempty ev pm :
  event_strict ev → separated pm →
  (∀ pid, Forall (λ e, start e < end_ e) (ranges pm pid)) →
  ∀ pid, Forall (λ e, start e < end_ e) (ranges (apply_event ev pm) pid).
Proof.
  intros Hok Hsep Hall p. destruct ev as [pid s e f|pid ppid]; simpl in *.
  - destruct (add_range_spec pid s e f pm Hsep) as (Hval & Hoth & _).
    destruct (decide (p = pid)) as [->|Hne].
    + rewrite Hval. by apply overlay_nonempty.
    + by rewrite Hoth.
  - destruct (decide (pid = ppid)) as [->|Hne].
    + unfold fork_pid. by rewrite decide_True.
    + destruct (fork_pid_spec pid ppid pm Hsep Hne) as (Hval & Hoth & _).
      destruct (decide (p = pid)) as [->|Hp].
      * by rewrite Hval.
      * by rewrite Hoth.
Qed.

Lemma apply_events_nonempty evs pm :
  Forall event_strict evs → separated pm →
  (∀ pid, Forall (λ e, start e < end_ e) (ranges pm pid)) →
  ∀ pid, Forall (λ e, start e < end_ e) (ranges (apply_events evs pm) pid).
Proof.
  revert pm. induction evs as [|ev evs IH]; intros pm Hok Hsep Hall; [done|].
  apply Forall_cons in Hok as [Hev Hok]. simpl. apply IH; [done| |].
  - by apply apply_event_separated.
  - by apply apply_event_nonempty.
Qed.

(** ** [bisect_right] and [find] *)

Lemma half_between lo hi :
  (lo < hi)%nat → (lo ≤ (lo + hi) / 2 < hi)%nat.
Proof.
  intros Hlt. pose proof (Nat.div_mod_eq (lo + hi) 2) as Hdm.
  pose proof (Nat.mod_upper_bound (lo + hi) 2 ltac:(lia)). lia.
Qed.

Lemma bisect_right_loop_bounds fuel a x :
  ∀ lo hi, (lo ≤ hi)%nat →
    (lo ≤ bisect_right_loop fuel a x lo hi ≤ hi)%nat.
Proof.
  induction fuel as [|fuel IH]; intros lo hi Hle; cbn [bisect_right_loop]; [lia|].
  destruct (Nat.ltb_spec lo hi) as [Hlt|]; [|lia].
  pose proof (half_between lo hi Hlt).
  destruct (MapEntry_lt x (a !!! ((lo + hi) / 2)%nat)).
  - specialize (IH lo ((lo + hi) / 2)%nat ltac:(lia)). lia.
  - specialize (IH (S ((lo + hi) / 2)) hi ltac:(lia)). lia.
Qed.

Lemma bisect_right_le a x : (bisect_right a x ≤ length a)%nat.
Proof.
  unfold bisect_right.
  pose proof (bisect_right_loop_bounds (length a) a x 0 (length a)). lia.
Qed.

(** With enough iterations the loop ends with everything left of the result
    at or below [x] and everything from the result on above [x]. *)
Lemma bisect_right_loop_spec a x :
  (∀ i j ei ej, a !! i = Some ei → a !! j = Some ej → (i < j)%nat →
                start ei ≤ start ej) →
  ∀ fuel lo hi,
    (hi - lo ≤ fuel)%nat → (lo ≤ hi ≤ length a)%nat →
    (∀ i e, (i < lo)%nat → a !! i = Some e → start e ≤ start x) →
    (∀ i e, (hi ≤ i)%nat → a !! i = Some e → start x < start e) →
    let pos := bisect_right_loop fuel a x lo hi in
    (∀ i e, (i < pos)%nat → a !! i = Some e → start e ≤ start x) ∧
    (∀ i e, (pos ≤ i)%nat → a !! i = Some e → start x < start e).
Proof.
  intros Hsorted. induction fuel as [|fuel IH]; intros lo hi Hfuel Hb Hlo Hhi.
  - cbn [bisect_right_loop]. split; [exact Hlo|]. intros i e Hi. apply Hhi. lia.
  - cbn [bisect_right_loop]. destruct (Nat.ltb_spec lo hi) as [Hlt|Hge].
    2:{ split; [exact Hlo|]. intros i e Hi. apply Hhi. lia. }
    pose proof (half_between lo hi Hlt) as Hmid.
    set (mid := ((lo + hi) / 2)%nat) in *.
    destruct (lookup_lt_is_Some_2 a mid ltac:(lia)) as [em Hem].
    rewrite (list_lookup_total_correct a mid em Hem).
    unfold MapEntry_lt. destruct (Z.ltb_spec (start x) (start em)) as [Hx|Hx].
    + apply IH; [lia|lia|exact Hlo|].
      intros i e Hi He. destruct (decide (i = mid)) as [->|Hne].
      * rewrite Hem in He. by injection He as <-.
      * pose proof (Hsorted mid i em e Hem He ltac:(lia)). lia.
    + apply IH; [lia|lia| |exact Hhi].
      intros i e Hi He. destruct (decide (i = mid)) as [->|Hne].
      * rewrite Hem in He. by injection He as <-.
      * pose proof (Hsorted i mid e em He Hem ltac:(lia)). lia.
Qed.

Lemma bisect_right_spec lo0 a x :
  chain lo0 a →
  (∀ i e, (i < bisect_right a x)%nat → a !! i = Some e → start e ≤ start x) ∧
  (∀ i e, (bisect_right a x ≤ i)%nat → a !! i = Some e → start x < start e).
Proof.
  intros Hch. unfold bisect_right. apply bisect_right_loop_spec.
  - intros i j ei ej Hi Hj Hij.
    pose proof (chain_pairwise _ _ Hch i j ei ej Hi Hj Hij).
    pose proof (chain_each _ _ Hch i ei Hi). lia.
  - lia.
  - lia.
  - intros i e Hi. lia.
  - intros i e Hi He. apply lookup_lt_Some in He. lia.
Qed.

Lemma find_range_values pid addr pm :
  find_range pid addr pm = find_in (ranges pm pid) addr.
Proof.
  unfold find_range, find, find_in, ranges.
  set (l := default [] (process_maps pm !! pid)).
  set (pos := bisect_right _ _).
  assert (Hpos : (pos ≤ length l)%nat).
  { unfold pos. etransitivity; [apply bisect_right_le|]. by rewrite length_fmap. }
  destruct (Nat.ltb_spec 0 pos) as [Hgt|]; simpl; [|done].
  rewrite (list_lookup_total_fmap (λ r, store pm !!! r) l (pos - 1)) by lia.
  by destruct (_ >? _).
Qed.

(** [find_in] on an ordered list: a hit covers the address, a miss means no
    range covers it. *)
Lemma find_in_spec lo l addr :
  chain lo l →
  match find_in l addr with
  | Some e => e ∈ l ∧ start e ≤ addr < end_ e
  | None => ∀ e, e ∈ l → ¬ (start e ≤ addr < end_ e)
  end.
Proof.
  intros Hch. unfold find_in.
  destruct (bisect_right_spec lo l (mkMapEntry addr addr EmptyString) Hch) as [Hleft Hright].
  pose proof (bisect_right_le l (mkMapEntry addr addr EmptyString)) as Hle.
  set (pos := bisect_right l _) in *. simpl in Hleft, Hright.
  destruct (Nat.ltb_spec 0 pos) as [Hgt|Hz]; simpl.
  - destruct (lookup_lt_is_Some_2 l (pos - 1)%nat ltac:(lia)) as [v Hv].
    rewrite (list_lookup_total_correct l _ v Hv).
    pose proof (Hleft (pos - 1)%nat v ltac:(lia) Hv) as Hstart.
    unfold Z.gtb. destruct (Z.compare_spec (end_ v) addr) as [Heq|Hlt|Hgt'].
    + intros e He [H1 H2]. apply list_elem_of_lookup in He as [i Hi].
      destruct (Nat.lt_trichotomy i (pos - 1)) as [Hi'|[->|Hi']].
      * pose proof (chain_pairwise _ _ Hch _ _ _ _ Hi Hv Hi'). lia.
      * rewrite Hv in Hi. injection Hi as <-. lia.
      * pose proof (Hright i e ltac:(lia) Hi). lia.
    + intros e He [H1 H2]. apply list_elem_of_lookup in He as [i Hi].
      destruct (Nat.lt_trichotomy i (pos - 1)) as [Hi'|[->|Hi']].
      * pose proof (chain_pairwise _ _ Hch _ _ _ _ Hi Hv Hi'). lia.
      * rewrite Hv in Hi. injection Hi as <-. lia.
      * pose proof (Hright i e ltac:(lia) Hi). lia.
    + split; [|lia]. eapply list_elem_of_lookup_2; eauto.
  - intros e He [H1 H2]. apply list_elem_of_lookup in He as [i Hi].
    pose proof (Hright i e ltac:(lia) Hi). lia.
Qed.

(** Two ranges of an ordered list that cover the same address are the same
    range. *)
Lemma chain_cover_unique lo l addr a b :
  chain lo l → a ∈ l → b ∈ l →
  start a ≤ addr < end_ a → start b ≤ addr < end_ b → a = b.
Proof.
  intros Hch Ha Hb Hca Hcb.
  apply list_elem_of_lookup in Ha as [i Hi].
  apply list_elem_of_lookup in Hb as [j Hj].
  destruct (Nat.lt_trichotomy i j) as [Hij|[->|Hij]].
  - pose proof (chain_pairwise _ _ Hch _ _ _ _ Hi Hj Hij). lia.
  - congruence.
  - pose proof (chain_pairwise _ _ Hch _ _ _ _ Hj Hi Hij). lia.
Qed.

Lemma reachable_separated evs :
  separated (apply_events evs ProcessMaps_init).
Proof. apply apply_events_separated, separated_init. Qed.

Lemma reachable_ordered evs pid :
  Forall event_ok evs →
  ∃ lo, chain lo (ranges (apply_events evs ProcessMaps_init) pid).
Proof.
  intros Hok.
  apply (apply_events_ordered evs _ Hok separated_init ordered_init).
Qed.

Lemma add_ranges_events pid rs pm :
  add_ranges pid rs pm
    = apply_events ((λ r, Mmap pid r.1.1 r.1.2 r.2) <$> rs) pm.
Proof.
  revert pm. induction rs as [|r rs IH]; intros pm; [done|].
  simpl. by rewrite IH.
Qed.

Lemma apply_events_leaves q evs :
  ∀ pm, separated pm → Forall (leaves q) evs →
        ranges (apply_events evs pm) q = ranges pm q.
Proof.
  induction evs as [|ev evs IH]; intros pm Hsep Hall; [done|].
  apply Forall_cons in Hall as [Hev Hall]. simpl.
  rewrite IH; [|by apply apply_event_separated|done].
  destruct ev as [pid s e f|pid ppid]; simpl in *.
  - apply add_range_spec; [done|]. congruence.
  - destruct (decide (pid = ppid)) as [->|Hne].
    + unfold fork_pid. by rewrite decide_True.
    + destruct Hev as [Hev|Hev]; [|done].
      apply fork_pid_spec; [done..|]. congruence.
Qed.

(** ** C1 *)

(** C1, evaluated on the code: from an empty overlay of any pid, inserting
    [0,100) "a" and then [10,20) "b" leaves exactly the two ranges
    [0,10) "a" and [10,20) "b".  The entry "a" starts before the new range, so
    [add] only truncates its end; the tail [20,100) is not kept, and an
    address in it, such as 50, which was found before the second insert, is
    no longer found. *)
Theorem C1_insert_inside_loses_tail (pid : Z) :
  let pm1 := add_range pid 0 100 "a" ProcessMaps_init in
  let pm2 := add_range pid 10 20 "b" pm1 in
  ranges pm2 pid = [mkMapEntry 0 10 "a"; mkMapEntry 10 20 "b"] ∧
  ranges pm2 pid ≠ [mkMapEntry 0 10 "a"; mkMapEntry 10 20 "b";
                    mkMapEntry 20 100 "a"] ∧
  find_range pid 50 pm1 = Some (mkMapEntry 0 100 "a") ∧
  find_range pid 50 pm2 = None.
Proof.
  intros pm1 pm2.
  assert (H1 : ranges pm1 pid = [mkMapEntry 0 100 "a"]).
  { unfold pm1.
    destruct (add_range_spec pid 0 100 "a" _ separated_init) as (-> & _).
    unfold ranges. simpl. by rewrite lookup_empty. }
  assert (H2 : ranges pm2 pid = [mkMapEntry 0 10 "a"; mkMapEntry 10 20 "b"]).
  { unfold pm2.
    destruct (add_range_spec pid 10 20 "b" pm1) as (-> & _).
    - apply (apply_event_separated (Mmap pid 0 100 "a")), separated_init.
    - by rewrite H1. }
  split; [exact H2|]. split; [by rewrite H2|].
  rewrite !find_range_values, H1, H2. split; reflexivity.
Qed.

(** ** C2 *)

(** C2: after any finite sequence of inserts of non-empty ranges
    ([start < end]) into any pids (forks may come in between), every pid's
    stored list is sorted ascending by start, every stored range still has
    [start < end], and the stored ranges are pairwise non-overlapping. *)
Theorem C2_add_keeps_sorted_disjoint (evs : list MapEvent) (pid : Z) :
  Forall event_strict evs →
  let l := ranges (apply_events evs ProcessMaps_init) pid in
  (∀ i j a b, l !! i = Some a → l !! j = Some b → (i < j)%nat →
              start a < start b) ∧
  Forall (λ e, start e < end_ e) l ∧
  (∀ i j a b, l !! i = Some a → l !! j = Some b → i ≠ j →
              end_ a ≤ start b ∨ end_ b ≤ start a).
Proof.
  intros Hstrict l.
  assert (Hok : Forall event_ok evs)
    by (eapply Forall_impl; [exact Hstrict | apply event_strict_ok]).
  destruct (reachable_ordered evs pid Hok) as [lo Hch]. fold l in Hch.
  assert (Hne : Forall (λ e, start e < end_ e) l).
  { apply apply_events_nonempty; [done|apply separated_init|].
    intros p. unfold ranges. simpl. rewrite lookup_empty. constructor. }
  split; [|split; [done|]].
  - intros i j a b Ha Hb Hij.
    pose proof (chain_pairwise _ _ Hch i j a b Ha Hb Hij).
    rewrite Forall_lookup in Hne. pose proof (Hne i a Ha). simpl in *. lia.
  - intros i j a b Ha Hb Hij.
    destruct (Nat.lt_trichotomy i j) as [Hlt|[?|Hlt]]; [|done|].
    + left. by eapply (chain_pairwise _ _ Hch i j).
    + right. by eapply (chain_pairwise _ _ Hch j i).
Qed.

Lemma C2_add_keeps_sorted_disjoint_witness :
  let l := ranges (apply_events
                     [Mmap 7 0 100 "a"; Mmap 7 10 20 "b"; Mmap 7 5 15 "c"]
                     ProcessMaps_init) 7 in
  l = [mkMapEntry 0 5 "a"; mkMapEntry 5 15 "c"; mkMapEntry 15 20 "b"] ∧
  Forall (λ e, start e < end_ e) l.
Proof.
  split; [vm_compute; reflexivity|].
  apply (C2_add_keeps_sorted_disjoint
           [Mmap 7 0 100 "a"; Mmap 7 10 20 "b"; Mmap 7 5 15 "c"] 7).
  repeat constructor; simpl; lia.
Defined.

(** ** C3 *)

(** C3 as stated fails where two ranges are adjacent: with [0,10) "a" and
    [10,20) "b" stored, the address 10 is the exclusive end of a stored
    range, and [find] returns the range "b" that starts there. *)
Lemma C3_end_of_range_can_be_found :
  let pm := add_ranges 7 [(0, 10, "a"); (10, 20, "b")] ProcessMaps_init in
  mkMapEntry 0 10 "a" ∈ ranges pm 7 ∧
  find_range 7 (end_ (mkMapEntry 0 10 "a")) pm = Some (mkMapEntry 10 20 "b") ∧
  find_range 7 (end_ (mkMapEntry 0 10 "a")) pm ≠ None.
Proof.
  assert (H : ranges (add_ranges 7 [(0, 10, "a"); (10, 20, "b")]
                        ProcessMaps_init) 7
              = [mkMapEntry 0 10 "a"; mkMapEntry 10 20 "b"])
    by (vm_compute; reflexivity).
  simpl in *. rewrite H. split; [apply elem_of_cons; by left|].
  assert (Hf : find_range 7 10
                 (add_range 7 10 20 "b" (add_range 7 0 10 "a" ProcessMaps_init))
               = Some (mkMapEntry 10 20 "b")) by (vm_compute; reflexivity).
  rewrite Hf. done.
Qed.

(** C3, amended: in every registry built from mmap records (with
    [start <= end]) and fork records, [find] returns a stored object of the
    pid; it returns a range exactly when that range is stored for the pid and
    covers the address ([start <= addr < end]), and it returns [None] exactly
    when no stored range of the pid covers the address.  So an address below
    every stored start and any address for a pid without ranges are not
    found, and a range is never returned for its own exclusive end (another
    range that covers that address is). *)
Theorem C3_find_returns_covering_range (evs : list MapEvent) (pid addr : Z) :
  Forall event_ok evs →
  let pm := apply_events evs ProcessMaps_init in
  (∀ r, find pid addr pm = Some r →
        r ∈ default [] (process_maps pm !! pid)) ∧
  (∀ e, find_range pid addr pm = Some e ↔
        e ∈ ranges pm pid ∧ start e ≤ addr < end_ e) ∧
  (find_range pid addr pm = None ↔
   ∀ e, e ∈ ranges pm pid → ¬ (start e ≤ addr < end_ e)) ∧
  ((∀ e, e ∈ ranges pm pid → addr < start e) →
   find_range pid addr pm = None) ∧
  (ranges pm pid = [] → find_range pid addr pm = None) ∧
  (∀ e, e ∈ ranges pm pid → addr = end_ e →
        find_range pid addr pm ≠ Some e).
Proof.
  intros Hok pm.
  destruct (reachable_ordered evs pid Hok) as [lo Hch]. fold pm in Hch.
  pose proof (find_in_spec lo _ addr Hch) as Hspec.
  rewrite <- find_range_values in Hspec.
  assert (Hsome : ∀ e, find_range pid addr pm = Some e ↔
                       e ∈ ranges pm pid ∧ start e ≤ addr < end_ e).
  { intros e. split.
    - intros Hf. by rewrite Hf in Hspec.
    - intros [He Hcov]. destruct (find_range pid addr pm) as [e'|].
      + destruct Hspec as [He' Hcov']. f_equal.
        by eapply (chain_cover_unique lo _ addr).
      + by destruct (Hspec e He). }
  assert (Hnone : find_range pid addr pm = None ↔
                  ∀ e, e ∈ ranges pm pid → ¬ (start e ≤ addr < end_ e)).
  { split.
    - intros Hf. by rewrite Hf in Hspec.
    - intros Hno. destruct (find_range pid addr pm) as [e'|]; [|done].
      destruct Hspec as [He' Hcov']. by destruct (Hno e' He'). }
  split; [|split; [exact Hsome|split; [exact Hnone|split; [|split]]]].
  - intros r. unfold find.
    set (l := default [] (process_maps pm !! pid)).
    set (pos := bisect_right _ _).
    assert (Hpos : (pos ≤ length l)%nat).
    { unfold pos. etransitivity; [apply bisect_right_le|]. by rewrite length_fmap. }
    destruct (Nat.ltb_spec 0 pos) as [Hgt|]; simpl; [|done].
    destruct (_ >? _); [|done]. intros [= <-].
    apply list_elem_of_lookup_total_2. lia.
  - intros Hbelow. apply Hnone. intros e He [H1 _].
    specialize (Hbelow e He). lia.
  - intros Hnil. apply Hnone. intros e He. rewrite Hnil in He.
    by apply elem_of_nil in He.
  - intros e He -> Hf. apply Hsome in Hf as [_ ?]. lia.
Qed.

Lemma C3_find_returns_covering_range_witness :
  let pm := apply_events [Mmap 7 0 10 "a"; Mmap 7 10 20 "b"] ProcessMaps_init in
  find_range 7 20 pm = None ↔
  ∀ e, e ∈ ranges pm 7 → ¬ (start e ≤ 20 < end_ e).
Proof.
  apply (C3_find_returns_covering_range
           [Mmap 7 0 10 "a"; Mmap 7 10 20 "b"] 7 20).
  repeat constructor; simpl; lia.
Defined.

(** ** C4 *)

(** The store does matter: were the child given the parent's list itself
    (the same objects) instead of a copy, an insert into the parent would
    truncate the child's ranges too. *)
Example shared_objects_interfere :
  let pm := add_range 1 0 100 "a" ProcessMaps_init in
  let shared :=
    mkProcessMaps (store pm)
      (<[2 := default [] (process_maps pm !! 1)]> (process_maps pm)) in
  ranges shared 2 = [mkMapEntry 0 100 "a"] ∧
  ranges (add_range 1 10 20 "b" shared) 2 = [mkMapEntry 0 10 "a"].
Proof. split; vm_compute; reflexivity. Qed.

(** C4: [fork_pid(pid, pid)] returns any registry unchanged.  With
    [pid <> ppid], in a registry built from mmap and fork records, the child
    gets a list of new objects, none shared with the parent, denoting the
    parent's current ranges; the parent's ranges stay as they were; any later
    inserts into the parent leave the child's ranges unchanged, and any later
    inserts into the child leave the parent's ranges unchanged; more
    generally the ranges of a pid are not changed by any later records other
    than inserts into that pid and forks that create it. *)
Theorem C4_fork_copy_is_independent (evs : list MapEvent) (pid ppid : Z) :
  let pm0 := apply_events evs ProcessMaps_init in
  (∀ pm, fork_pid pid pid pm = pm) ∧
  (pid ≠ ppid →
   let pm1 := fork_pid pid ppid pm0 in
   ranges pm1 pid = ranges pm0 ppid ∧
   ranges pm1 ppid = ranges pm0 ppid ∧
   (∀ r, r ∈ default [] (process_maps pm1 !! pid) →
         r ∉ default [] (process_maps pm1 !! ppid)) ∧
   (∀ later, ranges (add_ranges ppid later pm1) pid = ranges pm1 pid) ∧
   (∀ later, ranges (add_ranges pid later pm1) ppid = ranges pm1 ppid) ∧
   (∀ q later, Forall (leaves q) later →
               ranges (apply_events later pm1) q = ranges pm1 q)).
Proof.
  intros pm0. split.
  { intros pm. unfold fork_pid. by rewrite decide_True. }
  intros Hne pm1.
  pose proof (reachable_separated evs) as Hsep0. fold pm0 in Hsep0.
  destruct (fork_pid_spec pid ppid pm0 Hsep0 Hne) as (Hval & Hoth & Hsep1).
  fold pm1 in Hval, Hoth, Hsep1.
  split; [exact Hval|]. split; [by apply Hoth|]. split; [|split].
  - intros r Hr Hr'.
    destruct (process_maps pm1 !! pid) as [l|] eqn:El; simpl in Hr;
      [|by apply elem_of_nil in Hr].
    destruct (process_maps pm1 !! ppid) as [l'|] eqn:El'; simpl in Hr';
      [|by apply elem_of_nil in Hr'].
    destruct (Hsep1 pid l El) as (_ & _ & Hdisj).
    by apply (Hdisj ppid l' ltac:(done) El' r).
  - intros later. by apply add_ranges_other.
  - split; [intros later; by apply add_ranges_other|].
    intros q later Hl. by apply apply_events_leaves.
Qed.

Lemma C4_fork_copy_is_independent_witness :
  let pm1 := fork_pid 8 7 (apply_events [Mmap 7 0 100 "a"] ProcessMaps_init) in
  ranges (add_ranges 7 [(10, 20, "b")] pm1) 8 = ranges pm1 8 ∧
  ranges pm1 8 = [mkMapEntry 0 100 "a"].
Proof.
  split; [|vm_compute; reflexivity].
  apply (C4_fork_copy_is_independent [Mmap 7 0 100 "a"] 8 7). lia.
Defined.

(** ** C10 *)

(** C10: in a registry built from mmap and fork records, [fork_pid(pid, ppid)]
    with [pid <> ppid] sets the child's list to a copy of the parent's
    current list whatever the child held before: the child's ranges become
    the parent's, no object of the child's earlier list remains in it, and
    when the parent has no list the child's list is the empty list. *)
Theorem C10_fork_overwrites_child (evs : list MapEvent) (pid ppid : Z) :
  pid ≠ ppid →
  let pm0 := apply_events evs ProcessMaps_init in
  let pm1 := fork_pid pid ppid pm0 in
  ranges pm1 pid = ranges pm0 ppid ∧
  (∀ r, r ∈ default [] (process_maps pm1 !! pid) →
        r ∉ default [] (process_maps pm0 !! pid)) ∧
  (process_maps pm0 !! ppid = None → process_maps pm1 !! pid = Some []).
Proof.
  intros Hne pm0 pm1.
  pose proof (reachable_separated evs) as Hsep0. fold pm0 in Hsep0.
  destruct (fork_pid_spec pid ppid pm0 Hsep0 Hne) as (Hval & _ & _).
  fold pm1 in Hval. split; [exact Hval|].
  unfold pm1. rewrite (fork_pid_eq pid ppid pm0 Hsep0 Hne). simpl.
  rewrite lookup_insert_eq. simpl. split.
  - intros r Hr Hr'. apply elem_of_seq in Hr.
    destruct (separated_lookup pm0 pid Hsep0) as [_ Hall]. simpl in Hall.
    rewrite Forall_forall in Hall. apply Hall in Hr'. lia.
  - intros Hnone. unfold ranges. by rewrite Hnone.
Qed.

Lemma C10_fork_overwrites_child_witness :
  let pm0 := apply_events [Mmap 7 0 100 "a"; Mmap 8 5 6 "c"] ProcessMaps_init in
  ranges pm0 8 = [mkMapEntry 5 6 "c"] ∧
  ranges (fork_pid 8 7 pm0) 8 = ranges pm0 7.
Proof.
  split; [vm_compute; reflexivity|].
  apply (C10_fork_overwrites_child [Mmap 7 0 100 "a"; Mmap 8 5 6 "c"] 8 7). lia.
Defined.

(** ** Strings *)

Lemma prefix_app (sub post : string) : String.prefix sub (sub +:+ post) = true.
Proof.
  induction sub as [|c sub IH]; simpl; [by destruct post|].
  destruct (ascii_dec c c); [exact IH|contradiction].
Qed.

Lemma contains_unfold (sub s : string) :
  contains sub s
  = String.prefix sub s ||
    match s with
    | EmptyString => false
    | String _ s' => contains sub s'
    end.
Proof. by destruct s. Qed.

Lemma contains_infix (sub pre post : string) :
  contains sub (pre +:+ sub +:+ post) = true.
Proof.
  induction pre as [|c pre IH].
  - rewrite contains_unfold. change (String.append EmptyString ?x) with x.
    by rewrite prefix_app.
  - rewrite contains_unfold. change (String c pre +:+ ?x) with (String c (pre +:+ x)).
    cbv beta iota. rewrite IH. apply orb_true_r.
Qed.

(** ** Aggregation *)

Lemma FunctionResult_eta (self : FunctionResult) :
  mkFunctionResult (sample_results self) = self.
Proof. by destruct self. Qed.

Lemma FileResult_eta (self : FileResult) :
  mkFileResult (function_results self) = self.
Proof. by destruct self. Qed.

(** When nothing is appended the list is not empty: it holds a duplicate or
    ten samples. *)
Lemma not_appended_nonempty l s dup :
  duplicates l s = Ok dup →
  negb dup && (length l <? 10)%nat = false → l ≠ [].
Proof. intros Hd Hc ->. simpl in Hd. injection Hd as <-. discriminate. Qed.

Lemma FunctionResult_add_cases (s : SampleResult) (self : FunctionResult)
    (sr : string) :
  unwinding_result s !! "stop_reason" = Some sr →
  let l := default [] (sample_results self !! sr) in
  FunctionResult_add_sample_result s self =
    let* dup := duplicates l s in
    if negb dup && (length l <? 10)%nat
    then Ok (mkFunctionResult (<[sr := l ++ [s]]> (sample_results self)))
    else Ok self.
Proof.
  intros Hsr. unfold FunctionResult_add_sample_result, getitem.
  rewrite Hsr. simpl.
  destruct (sample_results self !! sr) as [[|r l']|] eqn:E; simpl.
  - by rewrite insert_insert_eq.
  - destruct (bind (anchor (callchain r)) _) as [dup|e]; simpl; [|done].
    destruct dup; simpl; [by rewrite FunctionResult_eta|].
    destruct (_ <? _)%nat; [done|by rewrite FunctionResult_eta].
  - by rewrite insert_insert_eq.
Qed.

Lemma FileResult_add_cases (s : SampleResult) (self : FileResult)
    (node : CallChainNode) (sr : string) :
  last (callchain s) = Some node →
  unwinding_result s !! "stop_reason" = Some sr →
  let fnr := default FunctionResult_init
               (function_results self !! function_name node) in
  let l := default [] (sample_results fnr !! sr) in
  FileResult_add_sample_result s self =
    let* dup := duplicates l s in
    if negb dup && (length l <? 10)%nat
    then Ok (mkFileResult
               (<[function_name node :=
                    mkFunctionResult (<[sr := l ++ [s]]> (sample_results fnr))]>
                  (function_results self)))
    else Ok self.
Proof.
  intros Hnode Hsr fnr l. unfold FileResult_add_sample_result, anchor.
  rewrite Hnode. simpl. fold fnr.
  rewrite (FunctionResult_add_cases s fnr sr Hsr). fold l.
  destruct (duplicates l s) as [dup|e] eqn:Hd; simpl; [|done].
  destruct (negb dup && (length l <? 10)%nat) eqn:Hc; simpl; [done|].
  pose proof (not_appended_nonempty l s dup Hd Hc) as Hne.
  destruct (function_results self !! function_name node) as [fnr0|] eqn:E.
  - subst fnr. simpl. rewrite insert_id by done. by rewrite FileResult_eta.
  - exfalso. apply Hne. unfold l, fnr. simpl. by rewrite lookup_empty.
Qed.

Lemma stored_unfold (self : UnwindingResultErrorReport) (a b c : string) :
  stored self a b c
  = default []
      (sample_results
         (default FunctionResult_init
            (function_results
               (default FileResult_init (file_results self !! a)) !! b)) !! c).
Proof.
  unfold stored. destruct (file_results self !! a) as [fr|]; simpl.
  - destruct (function_results fr !! b) as [fnr|]; simpl; [done|].
    by rewrite lookup_empty.
  - by rewrite !lookup_empty.
Qed.

Lemma add_sample_result_omitted `{PyLib} (s : SampleResult)
    (j : CallChainRecord) (self : UnwindingResultErrorReport) (t : Z) :
  timed s t →
  should_omit self s j = Ok true →
  add_sample_result s j self
  = Ok (mkReport (omit_callchains_fixed_by_joiner self)
          (report_process_maps self) (add_time t (unwinding_times self))
          (file_results self)).
Proof.
  intros (ut & Hut & Ht) Homit. unfold add_sample_result, getitem.
  rewrite Hut. simpl. rewrite Ht. simpl. by rewrite Homit.
Qed.

Lemma add_sample_result_cases `{PyLib} (s : SampleResult)
    (j : CallChainRecord) (self : UnwindingResultErrorReport) (t : Z)
    (node : CallChainNode) (sr : string) :
  timed s t →
  should_omit self s j = Ok false →
  last (callchain s) = Some node →
  unwinding_result s !! "stop_reason" = Some sr →
  let fr := default FileResult_init (file_results self !! node_filename node) in
  let fnr := default FunctionResult_init
               (function_results fr !! function_name node) in
  let l := stored self (node_filename node) (function_name node) sr in
  add_sample_result s j self =
    let* dup := duplicates l s in
    if negb dup && (length l <? 10)%nat
    then Ok (mkReport (omit_callchains_fixed_by_joiner self)
               (report_process_maps self) (add_time t (unwinding_times self))
               (<[node_filename node :=
                    mkFileResult
                      (<[function_name node :=
                           mkFunctionResult
                             (<[sr := l ++ [s]]> (sample_results fnr))]>
                         (function_results fr))]> (file_results self)))
    else Ok (mkReport (omit_callchains_fixed_by_joiner self)
               (report_process_maps self) (add_time t (unwinding_times self))
               (file_results self)).
Proof.
  intros (ut & Hut & Ht) Homit Hnode Hsr fr fnr l.
  unfold add_sample_result, getitem.
  rewrite Hut. simpl. rewrite Ht. simpl. rewrite Homit. simpl.
  unfold anchor at 1. rewrite Hnode. simpl. fold fr.
  rewrite (FileResult_add_cases s fr node sr Hnode Hsr). fold fnr.
  assert (Hl : l = default [] (sample_results fnr !! sr))
    by apply stored_unfold.
  rewrite <- Hl.
  destruct (duplicates l s) as [dup|e] eqn:Hd; simpl; [|done].
  destruct (negb dup && (length l <? 10)%nat) eqn:Hc; simpl; [done|].
  pose proof (not_appended_nonempty l s dup Hd Hc) as Hne.
  destruct (file_results self !! node_filename node) as [fr0|] eqn:E.
  - subst fr. simpl. by rewrite insert_id.
  - exfalso. apply Hne. rewrite Hl. unfold fnr, fr. simpl.
    by rewrite !lookup_empty.
Qed.

(** The lists after an append: the triple's list grows by the sample, all
    others stay. *)
Lemma stored_after_append (self : UnwindingResultErrorReport)
    (fname func sr : string) (l' : list SampleResult) (flag : bool)
    (pm : ProcessMaps) (times : UnwindingTimes) (a b c : string) :
  let fr := default FileResult_init (file_results self !! fname) in
  let fnr := default FunctionResult_init (function_results fr !! func) in
  stored
    (mkReport flag pm times
       (<[fname :=
            mkFileResult
              (<[func := mkFunctionResult (<[sr := l']> (sample_results fnr))]>
                 (function_results fr))]> (file_results self))) a b c
  = if decide (a = fname ∧ b = func ∧ c = sr) then l'
    else stored self a b c.
Proof.
  intros fr fnr. rewrite !stored_unfold. simpl.
  destruct (decide (a = fname)) as [->|Ha].
  2:{ rewrite lookup_insert_ne by done. rewrite decide_False; [done|]. tauto. }
  rewrite lookup_insert_eq. simpl. fold fr.
  destruct (decide (b = func)) as [->|Hb].
  2:{ rewrite lookup_insert_ne by done. rewrite decide_False; [done|]. tauto. }
  rewrite lookup_insert_eq. simpl. fold fnr.
  destruct (decide (c = sr)) as [->|Hc].
  2:{ rewrite lookup_insert_ne by done. rewrite decide_False; [done|]. tauto. }
  rewrite lookup_insert_eq. simpl. by rewrite decide_True.
Qed.

Lemma should_omit_flag (self self' : UnwindingResultErrorReport) s j :
  omit_callchains_fixed_by_joiner self = omit_callchains_fixed_by_joiner self' →
  should_omit self s j = should_omit self' s j.
Proof. intros Hflag. unfold should_omit. by rewrite Hflag. Qed.

Lemma should_omit_total (self : UnwindingResultErrorReport) s j :
  anchored s → ∃ b, should_omit self s j = Ok b.
Proof.
  intros [node Hnode]. unfold should_omit, in_memory_code, anchor.
  rewrite Hnode. simpl.
  repeat match goal with |- context [if ?c then _ else _] => destruct c; simpl end;
    eauto.
Qed.

Lemma duplicates_total l s :
  Forall anchored l → anchored s → ∃ b, duplicates l s = Ok b.
Proof.
  intros Hall [node Hnode]. induction Hall as [|r l [rn Hrn] _ IH]; simpl; [eauto|].
  unfold anchor. rewrite Hrn, Hnode. simpl.
  destruct (_ =? _); eauto.
Qed.

Lemma duplicates_found l s node earlier enode :
  Forall anchored l →
  last (callchain s) = Some node →
  earlier ∈ l → last (callchain earlier) = Some enode →
  vaddr_in_file enode = vaddr_in_file node →
  duplicates l s = Ok true.
Proof.
  intros Hall Hnode Hin Hen Heq.
  induction Hall as [|r l [rn Hrn] _ IH]; [by apply elem_of_nil in Hin|].
  simpl. unfold anchor. rewrite Hrn, Hnode. simpl.
  destruct (Z.eqb_spec (vaddr_in_file rn) (vaddr_in_file node)); [done|].
  apply IH. apply elem_of_cons in Hin as [->|Hin]; [|done].
  congruence.
Qed.

Lemma duplicates_none l s :
  anchored s → Forall anchored l →
  anchor_vaddr s ∉ anchor_vaddr <$> l →
  duplicates l s = Ok false.
Proof.
  intros [node Hnode] Hall Hnot.
  induction Hall as [|r l [rn Hrn] _ IH]; [done|].
  rewrite fmap_cons in Hnot. apply not_elem_of_cons in Hnot as [Hne Hnot].
  simpl. unfold anchor, anchor_vaddr in *. rewrite Hrn, Hnode in *.
  simpl in *.
  destruct (Z.eqb_spec (vaddr_in_file rn) (vaddr_in_file node)); [congruence|].
  by apply IH.
Qed.

Lemma add_sample_result_ok_inv `{PyLib} s j self self' :
  add_sample_result s j self = Ok self' →
  ∃ t omit, timed s t ∧ should_omit self s j = Ok omit ∧
    (omit = false →
     ∃ node sr, last (callchain s) = Some node ∧
                unwinding_result s !! "stop_reason" = Some sr).
Proof.
  unfold add_sample_result, getitem, timed.
  destruct (unwinding_result s !! "used_time") as [ut|] eqn:Hut; simpl; [|done].
  destruct (py_int 10 ut) as [t|] eqn:Ht; simpl; [|done].
  destruct (should_omit self s j) as [omit|] eqn:Homit; simpl; [|done].
  intros Hok. exists t, omit. split; [eauto|]. split; [done|].
  intros ->. unfold anchor in Hok.
  destruct (last (callchain s)) as [node|] eqn:Hnode; simpl in Hok; [|done].
  unfold FileResult_add_sample_result, anchor in Hok.
  rewrite Hnode in Hok. simpl in Hok.
  unfold FunctionResult_add_sample_result, getitem in Hok.
  destruct (unwinding_result s !! "stop_reason") as [sr|]; simpl in Hok; [|done].
  eauto.
Qed.

(** One step of the aggregation: the timing grows by the sample's time; the
    lists either all stay, or the list of the sample's triple, shorter than
    ten and without a duplicate, gets the sample appended. *)
Lemma add_sample_result_step `{PyLib} s j self self' :
  add_sample_result s j self = Ok self' →
  omit_callchains_fixed_by_joiner self' = omit_callchains_fixed_by_joiner self ∧
  (∃ t, timed s t ∧ unwinding_times self' = add_time t (unwinding_times self)) ∧
  (file_results self' = file_results self ∨
   ∃ node sr,
     should_omit self s j = Ok false ∧
     last (callchain s) = Some node ∧
     unwinding_result s !! "stop_reason" = Some sr ∧
     let l := stored self (node_filename node) (function_name node) sr in
     duplicates l s = Ok false ∧ (length l < 10)%nat ∧
     ∀ a b c, stored self' a b c
              = if decide (a = node_filename node ∧ b = function_name node ∧
                           c = sr)
                then l ++ [s] else stored self a b c).
Proof.
  intros Hok.
  destruct (add_sample_result_ok_inv s j self self' Hok)
    as (t & omit & Ht & Homit & Hkept).
  destruct omit.
  - rewrite (add_sample_result_omitted s j self t Ht Homit) in Hok.
    injection Hok as <-. simpl. split; [done|]. split; [eauto|]. by left.
  - destruct (Hkept eq_refl) as (node & sr & Hnode & Hsr).
    rewrite (add_sample_result_cases s j self t node sr Ht Homit Hnode Hsr) in Hok.
    set (l := stored self (node_filename node) (function_name node) sr) in *.
    destruct (duplicates l s) as [dup|e] eqn:Hd; simpl in Hok; [|done].
    destruct (negb dup && (length l <? 10)%nat) eqn:Hc;
      injection Hok as <-; simpl; (split; [done|]); (split; [eauto|]);
      [|by left].
    right. exists node, sr. apply andb_true_iff in Hc as [Hdup Hlen].
    apply negb_true_iff in Hdup. subst dup.
    apply Nat.ltb_lt in Hlen.
    repeat split; [done..|].
    intros a b c. apply stored_after_append.
Qed.

Lemma stored_file_results (self self' : UnwindingResultErrorReport) a b c :
  file_results self' = file_results self →
  stored self' a b c = stored self a b c.
Proof. intros Heq. unfold stored. by rewrite Heq. Qed.

Lemma report_ok_init flag : report_ok (Report_init flag).
Proof.
  intros a b c. unfold stored. simpl. rewrite lookup_empty. simpl.
  split; [lia|constructor].
Qed.

Lemma report_ok_step `{PyLib} s j self self' :
  report_ok self → add_sample_result s j self = Ok self' → report_ok self'.
Proof.
  intros Hinv Hok a b c.
  destruct (add_sample_result_step s j self self' Hok)
    as (_ & _ & [Heq|(node & sr & _ & Hnode & _ & _ & Hlen & Hst)]).
  - rewrite (stored_file_results self self') by done. apply Hinv.
  - rewrite Hst. case_decide; [|apply Hinv].
    destruct (Hinv (node_filename node) (function_name node) sr) as [_ Hall].
    split; [rewrite length_app; simpl; lia|].
    apply Forall_app. split; [done|]. repeat constructor. by exists node.
Qed.

Lemma add_sample_results_cons `{PyLib} s j rest self :
  add_sample_results ((s, j) :: rest) self
  = let* self' := add_sample_result s j self in add_sample_results rest self'.
Proof. done. Qed.

Lemma report_ok_run `{PyLib} samples :
  ∀ self self', report_ok self →
    add_sample_results samples self = Ok self' → report_ok self'.
Proof.
  induction samples as [|[s j] rest IH]; intros self self' Hinv Hok.
  - simpl in Hok. by injection Hok as <-.
  - rewrite add_sample_results_cons in Hok.
    destruct (add_sample_result s j self) as [self1|] eqn:E; simpl in Hok; [|done].
    eapply IH; [|exact Hok]. by eapply report_ok_step.
Qed.

Lemma add_sample_results_flag `{PyLib} samples :
  ∀ self self', add_sample_results samples self = Ok self' →
    omit_callchains_fixed_by_joiner self' = omit_callchains_fixed_by_joiner self.
Proof.
  induction samples as [|[s j] rest IH]; intros self self' Hok.
  - simpl in Hok. by injection Hok as <-.
  - rewrite add_sample_results_cons in Hok.
    destruct (add_sample_result s j self) as [self1|] eqn:E; simpl in Hok; [|done].
    rewrite (IH _ _ Hok). by apply (add_sample_result_step s j self self1).
Qed.

(** ** C5 *)

(** C5: in a report reached by feeding samples to a new report, let a
    sample be retained ([should_omit] answers [False]) whose last call-chain
    node has the same [vaddr_in_file] as the last node of a sample already
    stored under the sample's (filename, function name, stop reason) triple.
    Then recording it succeeds and leaves [file_results], and so every stored
    list, unchanged.  Nothing is asked of the sample's pid, tid or time. *)
Theorem C5_duplicate_offset_is_discarded `{PyLib}
    (samples : list (SampleResult * CallChainRecord)) (flag : bool)
    (report : UnwindingResultErrorReport)
    (s : SampleResult) (j : CallChainRecord) (t : Z)
    (node : CallChainNode) (sr : string)
    (earlier : SampleResult) (enode : CallChainNode) :
  add_sample_results samples (Report_init flag) = Ok report →
  timed s t →
  should_omit report s j = Ok false →
  last (callchain s) = Some node →
  unwinding_result s !! "stop_reason" = Some sr →
  earlier ∈ stored report (node_filename node) (function_name node) sr →
  last (callchain earlier) = Some enode →
  vaddr_in_file enode = vaddr_in_file node →
  ∃ report',
    add_sample_result s j report = Ok report' ∧
    file_results report' = file_results report ∧
    ∀ a b c, stored report' a b c = stored report a b c.
Proof.
  intros Hrun Ht Homit Hnode Hsr Hin Hen Heq.
  pose proof (report_ok_run samples _ _ (report_ok_init flag) Hrun) as Hinv.
  destruct (Hinv (node_filename node) (function_name node) sr) as [_ Hall].
  rewrite (add_sample_result_cases s j report t node sr Ht Homit Hnode Hsr).
  rewrite (duplicates_found _ s node earlier enode Hall Hnode Hin Hen Heq).
  simpl. eexists. split; [done|]. simpl. split; [done|].
  intros a b c. by apply stored_file_results.
Qed.

Lemma C5_duplicate_offset_is_discarded_witness :
  let first := (sample_at 5).1 in
  let again :=
    mkSampleResult 77 78 {[ "used_time" := "9"; "stop_reason" := "X"; "time" := "123" ]}
      [mkCallChainNode 1 2 "other.so" 0 "g" 0 0;
       mkCallChainNode 3 4 "lib.so" 5 "f" 0 0] in
  ∃ report report',
    @add_sample_results PyLib_ref [sample_at 5] (Report_init false) = Ok report ∧
    stored report "lib.so" "f" "X" = [first] ∧
    @add_sample_result PyLib_ref again (sample_at 5).2 report = Ok report' ∧
    file_results report' = file_results report.
Proof.
  intros first again.
  destruct (@add_sample_results PyLib_ref [sample_at 5] (Report_init false))
    as [report|] eqn:Hrun; [|by vm_compute in Hrun].
  assert (Hst : stored report "lib.so" "f" "X" = [first]).
  { vm_compute in Hrun. injection Hrun as <-. vm_compute. reflexivity. }
  destruct (@C5_duplicate_offset_is_discarded PyLib_ref
              [sample_at 5] false report again (sample_at 5).2 9
              (mkCallChainNode 3 4 "lib.so" 5 "f" 0 0) "X" first
              (mkCallChainNode 16 32 "lib.so" 5 "f" 0 0))
    as (report' & Hadd & Hsame & _).
  - exact Hrun.
  - exists "9"%string. split; vm_compute; reflexivity.
  - rewrite (should_omit_flag report (Report_init false));
      [vm_compute; reflexivity|].
    by apply (@add_sample_results_flag PyLib_ref [sample_at 5]).
  - reflexivity.
  - vm_compute. reflexivity.
  - simpl. rewrite Hst. apply list_elem_of_singleton. reflexivity.
  - reflexivity.
  - reflexivity.
  - exists report, report'. done.
Defined.

(** ** C6 *)

Lemma kept_for_anchored `{PyLib} flag fname func sr sj :
  kept_for flag fname func sr sj → anchored sj.1.
Proof. intros (_ & _ & (node & Hnode & _) & _). by exists node. Qed.

(** Feeding samples that are all kept for one triple and have pairwise
    different offsets, also different from those already stored: the list
    is filled in arrival order up to ten. *)
Lemma add_sample_results_kept `{PyLib} flag fname func sr samples :
  ∀ self l0,
    omit_callchains_fixed_by_joiner self = flag →
    stored self fname func sr = l0 →
    Forall anchored l0 → (length l0 ≤ 10)%nat →
    Forall (kept_for flag fname func sr) samples →
    NoDup (anchor_vaddr <$> (l0 ++ samples.*1)) →
    ∃ self',
      add_sample_results samples self = Ok self' ∧
      stored self' fname func sr = take 10 (l0 ++ samples.*1).
Proof.
  induction samples as [|[s j] rest IH];
    intros self l0 Hflag Hst Hall Hlen Hkept Hnd.
  - exists self. split; [done|]. simpl. rewrite app_nil_r.
    by rewrite take_ge.
  - apply Forall_cons in Hkept as [Hk Hkept].
    pose proof (kept_for_anchored _ _ _ _ _ Hk) as Hanch.
    destruct Hk as ([t Ht] & Homit & (node & Hnode & <- & <-) & Hsr).
    simpl in Ht, Homit, Hnode, Hsr, Hanch.
    rewrite (should_omit_flag _ self) in Homit by done.
    rewrite add_sample_results_cons.
    rewrite (add_sample_result_cases s j self t node sr Ht Homit Hnode Hsr).
    rewrite Hst.
    rewrite fmap_app, fmap_cons in Hnd. simpl in Hnd.
    apply NoDup_app in Hnd as (Hnd0 & Hdisj & Hnd1).
    apply NoDup_cons in Hnd1 as [Hs Hnd1].
    rewrite (duplicates_none l0 s Hanch Hall).
    2:{ intros Hbad. apply (Hdisj _ Hbad). apply elem_of_cons. by left. }
    simpl. destruct (Nat.ltb_spec (length l0) 10) as [Hlt|Hge]; simpl.
    + match goal with
      | |- context [add_sample_results rest ?r] =>
        destruct (IH r (l0 ++ [s])) as (self' & Hrun & Hst')
      end.
      * exact Hflag.
      * rewrite <- Hst at 1. rewrite stored_after_append, decide_True by done.
        by rewrite Hst.
      * apply Forall_app. split; [exact Hall|by repeat constructor].
      * rewrite length_app. simpl. lia.
      * exact Hkept.
      * rewrite <- app_assoc. simpl. rewrite fmap_app, fmap_cons.
        apply NoDup_app. split; [done|]. split; [|by apply NoDup_cons].
        exact Hdisj.
      * exists self'. rewrite Hrun. split; [done|].
        rewrite Hst'. by rewrite <- app_assoc.
    + match goal with
      | |- context [add_sample_results rest ?r] =>
        destruct (IH r l0) as (self' & Hrun & Hst')
      end.
      * exact Hflag.
      * by rewrite <- Hst.
      * exact Hall.
      * exact Hlen.
      * exact Hkept.
      * rewrite fmap_app. apply NoDup_app. split; [done|]. split; [|done].
        intros x Hx Hx'. apply (Hdisj x Hx). apply elem_of_cons. by right.
      * exists self'. rewrite Hrun. split; [done|].
        rewrite Hst'. simpl. rewrite !take_app_le by lia. done.
Qed.

(** C6: take any report in which the list of a (filename, function name,
    stop reason) triple is empty, and feed it samples that are all retained
    for that triple and have pairwise distinct offsets-in-file at their last
    node.  The feeding succeeds and the triple's list is then the first ten
    of them in arrival order; with eleven samples it holds exactly ten, the
    eleventh being dropped.  In every report reached from a new one, no
    stored list has more than ten entries, and recording a retained sample
    whose triple already has ten entries succeeds and leaves [file_results]
    unchanged. *)
Theorem C6_ten_first_samples_are_kept `{PyLib}
    (self : UnwindingResultErrorReport) (fname func sr : string)
    (samples : list (SampleResult * CallChainRecord)) :
  stored self fname func sr = [] →
  Forall (kept_for (omit_callchains_fixed_by_joiner self) fname func sr)
         samples →
  NoDup (anchor_vaddr <$> samples.*1) →
  (∃ self',
     add_sample_results samples self = Ok self' ∧
     stored self' fname func sr = take 10 samples.*1 ∧
     (length samples = 11%nat →
      length (stored self' fname func sr) = 10%nat ∧
      ∃ s11, samples.*1 = stored self' fname func sr ++ [s11])) ∧
  (∀ flag any report,
     add_sample_results any (Report_init flag) = Ok report →
     ∀ a b c, (length (stored report a b c) ≤ 10)%nat) ∧
  (∀ flag any report s j t node sr',
     add_sample_results any (Report_init flag) = Ok report →
     timed s t →
     should_omit report s j = Ok false →
     last (callchain s) = Some node →
     unwinding_result s !! "stop_reason" = Some sr' →
     length (stored report (node_filename node) (function_name node) sr')
       = 10%nat →
     ∃ report',
       add_sample_result s j report = Ok report' ∧
       file_results report' = file_results report).
Proof.
  intros Hempty Hkept Hnd. split; [|split].
  - destruct (add_sample_results_kept _ fname func sr samples self []
                eq_refl Hempty) as (self' & Hrun & Hst);
      [constructor|simpl; lia|exact Hkept|exact Hnd|].
    simpl in Hst. exists self'. split; [done|]. split; [done|].
    intros Hlen. rewrite Hst, length_take, length_fmap, Hlen.
    split; [done|].
    exists (default (sample_at 0).1 (last samples.*1)).
    rewrite <- (take_drop 10 samples.*1) at 1. f_equal.
    assert (Hd : length (drop 10 samples.*1) = 1%nat)
      by (rewrite length_drop, length_fmap, Hlen; done).
    destruct (drop 10 samples.*1) as [|x [|y rest]] eqn:E; try done.
    f_equal. rewrite <- (take_drop 10 samples.*1), E.
    by rewrite last_app.
  - intros flag any report Hrun a b c.
    by apply (report_ok_run any _ _ (report_ok_init flag) Hrun).
  - intros flag any report s j t node sr' Hrun Ht Homit Hnode Hsr Hlen.
    pose proof (report_ok_run any _ _ (report_ok_init flag) Hrun) as Hinv.
    destruct (Hinv (node_filename node) (function_name node) sr') as [_ Hall].
    rewrite (add_sample_result_cases s j report t node sr' Ht Homit Hnode Hsr).
    destruct (duplicates_total _ s Hall ltac:(by exists node)) as [dup ->].
    rewrite Hlen. cbn [bind]. rewrite andb_false_r.
    eexists. split; [done|]. done.
Qed.

Lemma C6_ten_first_samples_are_kept_witness :
  ∃ report,
    @add_sample_results PyLib_ref eleven_samples (Report_init false) = Ok report ∧
    stored report "lib.so" "f" "X" = take 10 eleven_samples.*1 ∧
    length (stored report "lib.so" "f" "X") = 10%nat.
Proof.
  destruct (@C6_ten_first_samples_are_kept PyLib_ref (Report_init false)
              "lib.so" "f" "X" eleven_samples)
    as [(report & Hrun & Hst & Hlen) _].
  - vm_compute. reflexivity.
  - repeat (constructor;
      [split; [exists 5, "5"%string; split; vm_compute; reflexivity|];
       split; [vm_compute; reflexivity|];
       split; [eexists; split; [vm_compute; reflexivity|split; reflexivity]|];
       vm_compute; reflexivity|]).
    constructor.
  - apply (bool_decide_unpack _). vm_compute. exact I.
  - exists report. split; [exact Hrun|]. split; [exact Hst|].
    apply Hlen. reflexivity.
Defined.

(** ** C7 *)

(** C7: when the filename of the sample's last call-chain node contains
    '/dev/ashmem/dalvik-jit-code-cache' or '//anon' as a substring,
    [should_omit] returns [True], whatever the two call chains hold and
    whatever the omit-callchains-fixed-by-joiner flag is.  For every sample
    with a last node the answer is the first of: in-memory name, complete
    primary chain, flag set and complete joined chain. *)
Theorem C7_in_memory_code_is_omitted (self : UnwindingResultErrorReport)
    (s : SampleResult) (j : CallChainRecord) (node : CallChainNode) :
  last (callchain s) = Some node →
  (∀ pre post,
     node_filename node = pre +:+ "/dev/ashmem/dalvik-jit-code-cache" +:+ post ∨
     node_filename node = pre +:+ "//anon" +:+ post →
     should_omit self s j = Ok true) ∧
  should_omit self s j
  = Ok (if contains "/dev/ashmem/dalvik-jit-code-cache" (node_filename node)
           || contains "//anon" (node_filename node)
        then true
        else if is_callchain_complete (callchain s) then true
        else omit_callchains_fixed_by_joiner self &&
             is_callchain_complete (rec_callchain j)).
Proof.
  intros Hnode.
  assert (Heq : should_omit self s j
    = Ok (if contains "/dev/ashmem/dalvik-jit-code-cache" (node_filename node)
             || contains "//anon" (node_filename node)
          then true
          else if is_callchain_complete (callchain s) then true
          else omit_callchains_fixed_by_joiner self &&
               is_callchain_complete (rec_callchain j))).
  { unfold should_omit, in_memory_code, anchor. rewrite Hnode.
    cbn [of_option bind].
    destruct (contains "/dev/ashmem/dalvik-jit-code-cache" (node_filename node));
      [done|].
    destruct (contains "//anon" (node_filename node)); [done|].
    cbn [orb bind].
    destruct (is_callchain_complete (callchain s)); [done|].
    by destruct (_ && _). }
  split; [|exact Heq].
  intros pre post [Hf|Hf]; rewrite Heq, Hf, contains_infix;
    by rewrite ?orb_true_r.
Qed.

Lemma C7_in_memory_code_is_omitted_witness :
  should_omit (Report_init false)
    (mkSampleResult 1 2 ∅
       [mkCallChainNode 0 0 "/system/lib/libc.so" 0 "__libc_init" 0 0;
        mkCallChainNode 0 0 "/data/app//anon_inode:dmabuf" 0 "g" 0 0])
    (mkCallChainRecord (Some 1) (Some 2) [])
  = Ok true.
Proof.
  apply (proj1 (C7_in_memory_code_is_omitted (Report_init false)
            (mkSampleResult 1 2 ∅
               [mkCallChainNode 0 0 "/system/lib/libc.so" 0 "__libc_init" 0 0;
                mkCallChainNode 0 0 "/data/app//anon_inode:dmabuf" 0 "g" 0 0])
            (mkCallChainRecord (Some 1) (Some 2) [])
            (mkCallChainNode 0 0 "/data/app//anon_inode:dmabuf" 0 "g" 0 0)
            eq_refl) "/data/app"%string "_inode:dmabuf"%string).
  right. reflexivity.
Defined.

(** ** C8 *)

Lemma add_sample_results_count `{PyLib} samples :
  ∀ self self', add_sample_results samples self = Ok self' →
    count (unwinding_times self')
    = count (unwinding_times self) + Z.of_nat (length samples).
Proof.
  induction samples as [|[s j] rest IH]; intros self self' Hok.
  - simpl in Hok. injection Hok as <-. simpl. lia.
  - rewrite add_sample_results_cons in Hok.
    destruct (add_sample_result s j self) as [self1|] eqn:E; simpl in Hok; [|done].
    rewrite (IH _ _ Hok).
    destruct (add_sample_result_step s j self self1 E) as (_ & (t & _ & ->) & _).
    simpl length. simpl count. lia.
Qed.

Lemma add_sample_result_total `{PyLib} s j self :
  report_ok self → well_formed_sample s →
  ∃ self', add_sample_result s j self = Ok self'.
Proof.
  intros Hinv ([t Ht] & Hanch & [sr Hsr]).
  destruct (should_omit_total self s j Hanch) as [[|] Homit].
  - rewrite (add_sample_result_omitted s j self t Ht Homit). eauto.
  - destruct Hanch as [node Hnode].
    rewrite (add_sample_result_cases s j self t node sr Ht Homit Hnode Hsr).
    destruct (Hinv (node_filename node) (function_name node) sr) as [_ Hall].
    destruct (duplicates_total _ s Hall ltac:(by exists node)) as [dup ->].
    simpl. destruct (_ && _); eauto.
Qed.

Lemma add_sample_results_total `{PyLib} samples :
  ∀ self, report_ok self →
    Forall (λ sj, well_formed_sample sj.1) samples →
    ∃ self', add_sample_results samples self = Ok self'.
Proof.
  induction samples as [|[s j] rest IH]; intros self Hinv Hwf; [by exists self|].
  apply Forall_cons in Hwf as [Hs Hwf]. rewrite add_sample_results_cons.
  destruct (add_sample_result_total s j self Hinv Hs) as [self1 Hstep].
  rewrite Hstep. simpl. apply IH; [|done]. by eapply report_ok_step.
Qed.

(** C8: whenever a sequence of samples has been fed to a new report,
    [unwinding_times.count] is the number of samples fed, omitted ones
    included; feeding succeeds for samples as the report builder makes them
    (the keys are there, [int()] reads [used_time], the call chain is not
    empty); and a sample that [should_omit] rejects still adds one to the
    count (and its time to the total) while [file_results] stays as it was:
    the timing is updated before the omission is decided. *)
Theorem C8_count_is_number_of_samples `{PyLib}
    (samples : list (SampleResult * CallChainRecord)) (flag : bool) :
  (∀ report,
     add_sample_results samples (Report_init flag) = Ok report →
     count (unwinding_times report) = Z.of_nat (length samples)) ∧
  (Forall (λ sj, well_formed_sample sj.1) samples →
   ∃ report,
     add_sample_results samples (Report_init flag) = Ok report ∧
     count (unwinding_times report) = Z.of_nat (length samples)) ∧
  (∀ s j self t,
     timed s t → should_omit self s j = Ok true →
     ∃ self',
       add_sample_result s j self = Ok self' ∧
       count (unwinding_times self') = count (unwinding_times self) + 1 ∧
       total_time (unwinding_times self')
       = total_time (unwinding_times self) + t ∧
       file_results self' = file_results self).
Proof.
  split; [|split].
  - intros report Hrun.
    by rewrite (add_sample_results_count samples _ _ Hrun).
  - intros Hwf.
    destruct (add_sample_results_total samples (Report_init flag)
                (report_ok_init flag) Hwf) as [report Hrun].
    exists report. split; [done|].
    by rewrite (add_sample_results_count samples _ _ Hrun).
  - intros s j self t Ht Homit.
    rewrite (add_sample_result_omitted s j self t Ht Homit).
    eexists. split; [done|]. done.
Qed.

Lemma C8_count_is_number_of_samples_witness :
  let omitted :=
    (mkSampleResult 1 2 {[ "used_time" := "7"; "stop_reason" := "X" ]}
       [mkCallChainNode 0 0 "/system/lib/libc.so" 0 "__libc_init" 0 0;
        mkCallChainNode 0 0 "lib.so" 4 "g" 0 0],
     mkCallChainRecord (Some 1) (Some 2) []) in
  should_omit (Report_init false) omitted.1 omitted.2 = Ok true ∧
  ∃ report,
    @add_sample_results PyLib_ref [sample_at 1; omitted; sample_at 2]
      (Report_init false) = Ok report ∧
    count (unwinding_times report) = 3.
Proof.
  intros omitted. split; [vm_compute; reflexivity|].
  apply (@C8_count_is_number_of_samples PyLib_ref
           [sample_at 1; omitted; sample_at 2] false).
  repeat (constructor;
    [split; [eexists; eexists; split; vm_compute; reflexivity|];
     split; [eexists; vm_compute; reflexivity|];
     eexists; vm_compute; reflexivity|]).
  constructor.
Defined.

(** ** parse_callchain_record *)

Lemma parse_line_fatal `{PyLib} chain_type i l st k :
  parse_line chain_type i l st = Raise (Fatal k) ↔
  k = i ∧ ∃ x, split (strip l) = ["chain_type"%string; x] ∧ x ≠ chain_type.
Proof.
  unfold parse_line, log_fatal. split.
  - destruct (split (strip l)) as [|item0 rest] eqn:Hitems; [done|].
    destruct (String.eqb item0 "pid" && (length (item0 :: rest) =? 2)%nat).
    { destruct (py_int 10 _); simpl; done. }
    destruct (String.eqb item0 "tid" && (length (item0 :: rest) =? 2)%nat).
    { destruct (py_int 10 _); simpl; done. }
    destruct (String.eqb item0 "chain_type" && (length (item0 :: rest) =? 2)%nat)
      eqn:Hct.
    { apply andb_true_iff in Hct as [Hname Hlen].
      apply String.eqb_eq in Hname. subst item0.
      destruct rest as [|x [|y rest]]; try done.
      simpl. destruct (String.eqb_spec x chain_type); simpl; [done|].
      intros [= <-]. eauto. }
    destruct (String.eqb item0 "ip").
    { destruct (re_search_ip _) as [[g1 g2]|]; [|done].
      destruct (py_int 16 g1); simpl; [|done].
      destruct (py_int 16 g2); simpl; done. }
    destruct (String.eqb item0 "callchain:"); [done|].
    destruct (in_callchain st); [|done].
    destruct (0 <? _); [|done].
    destruct (re_match_frame _) as [[g1 g2]|]; [|done].
    destruct (py_int 16 g2); simpl; done.
  - intros [-> (x & -> & Hx)]. simpl.
    destruct (String.eqb_spec x chain_type); [done|]. done.
Qed.

Lemma parse_line_balanced `{PyLib} chain_type i l st st' :
  parse_line chain_type i l st = Ok st' → balanced st → balanced st'.
Proof.
  unfold parse_line, log_fatal, balanced. intros Hok (H1 & H2 & H3).
  destruct (split (strip l)) as [|item0 rest] eqn:Hitems.
  { by injection Hok as <-. }
  destruct (String.eqb item0 "pid" && (length (item0 :: rest) =? 2)%nat).
  { destruct (py_int 10 _); simpl in Hok; [|done]. by injection Hok as <-. }
  destruct (String.eqb item0 "tid" && (length (item0 :: rest) =? 2)%nat).
  { destruct (py_int 10 _); simpl in Hok; [|done]. by injection Hok as <-. }
  destruct (String.eqb item0 "chain_type" && (length (item0 :: rest) =? 2)%nat).
  { destruct (negb _); [done|]. by injection Hok as <-. }
  destruct (String.eqb item0 "ip").
  { destruct (re_search_ip _) as [[g1 g2]|]; [|by injection Hok as <-].
    destruct (py_int 16 g1); simpl in Hok; [|done].
    destruct (py_int 16 g2); simpl in Hok; [|done].
    injection Hok as <-. simpl. rewrite !length_app. simpl. lia. }
  destruct (String.eqb item0 "callchain:"); [by injection Hok as <-|].
  destruct (in_callchain st); [|by injection Hok as <-].
  destruct (0 <? _); [|by injection Hok as <-].
  destruct (re_match_frame _) as [[g1 g2]|]; [|by injection Hok as <-].
  destruct (py_int 16 g2); simpl in Hok; [|done].
  injection Hok as <-. simpl. rewrite !length_app. simpl. lia.
Qed.

Lemma parse_loop_balanced `{PyLib} chain_type ls :
  ∀ i st i' st',
    parse_loop chain_type ls i st = Ok (i', st') → balanced st → balanced st'.
Proof.
  induction ls as [|l rest IH]; intros i st i' st' Hok Hbal.
  - simpl in Hok. by injection Hok as _ <-.
  - simpl in Hok. destruct (startswith "record" l).
    { by injection Hok as _ <-. }
    destruct (parse_line chain_type i l st) as [st1|] eqn:E; simpl in Hok; [|done].
    eapply IH; [exact Hok|]. by eapply parse_line_balanced.
Qed.

(** The loop calls [log_fatal] exactly when it reaches a [chain_type] line
    with another tag: the [n] lines before it are consumed without an error
    and without meeting the next record. *)
Lemma parse_loop_fatal `{PyLib} chain_type ls :
  ∀ i st,
    is_fatal (parse_loop chain_type ls i st) ↔
    ∃ n l x st',
      ls !! n = Some l ∧
      parse_loop chain_type (take n ls) i st = Ok ((i + n)%nat, st') ∧
      startswith "record" l = false ∧
      split (strip l) = ["chain_type"%string; x] ∧ x ≠ chain_type.
Proof.
  induction ls as [|l0 rest IH]; intros i st.
  - split; [by intros [k ?]|]. by intros (n & l & x & st' & Hl & _).
  - cbn [parse_loop]. destruct (startswith "record" l0) eqn:Hrec.
    { split; [by intros [k ?]|].
      intros (n & l & x & st' & Hl & Hrun & Hnot & _).
      destruct n as [|n]; simpl in Hl, Hrun.
      - injection Hl as <-. congruence.
      - rewrite Hrec in Hrun. injection Hrun as Hi _. lia. }
    destruct (parse_line chain_type i l0 st) as [st1|e] eqn:E; cbn [bind].
    + rewrite IH. split.
      * intros (n & l & x & st' & Hl & Hrun & Hnot & Hsplit & Hx).
        exists (S n), l, x, st'. simpl. rewrite Hrec, E. cbn [bind].
        rewrite Nat.add_succ_r. done.
      * intros (n & l & x & st' & Hl & Hrun & Hnot & Hsplit & Hx).
        destruct n as [|n]; simpl in Hl, Hrun.
        -- injection Hl as <-.
           assert (Hbad : parse_line chain_type i l0 st = Raise (Fatal i))
             by (apply parse_line_fatal; eauto).
           congruence.
        -- rewrite Hrec, E in Hrun. cbn [bind] in Hrun.
           rewrite Nat.add_succ_r in Hrun. exists n, l, x, st'. done.
    + split.
      * intros [k [= ->]]. apply parse_line_fatal in E as [-> (x & Hsplit & Hx)].
        exists 0%nat, l0, x, st. simpl. rewrite Nat.add_0_r. done.
      * intros (n & l & x & st' & Hl & Hrun & Hnot & Hsplit & Hx).
        destruct n as [|n]; simpl in Hl, Hrun.
        -- injection Hl as <-.
           assert (Hbad : parse_line chain_type i l0 st = Raise (Fatal i))
             by (apply parse_line_fatal; eauto).
           rewrite E in Hbad. injection Hbad as ->. by exists i.
        -- rewrite Hrec, E in Hrun. done.
Qed.

Lemma map_addrs_spec pid ips pm :
  ∀ a b,
    map_addrs pid ips pm a b
    = (a ++ ((λ ip, (map_bounds pid pm ip).1) <$> ips),
       b ++ ((λ ip, (map_bounds pid pm ip).2) <$> ips)).
Proof.
  induction ips as [|ip rest IH]; intros a b; simpl.
  - by rewrite !app_nil_r.
  - unfold map_bounds at 1 3.
    destruct (find_record pid ip pm); rewrite IH, <- !app_assoc; done.
Qed.

Lemma balanced_init : balanced ParseState_init.
Proof. by repeat split. Qed.

(** After the scan, the call chain and the final check of
    [parse_callchain_record] in closed form. *)
Lemma parse_after_scan `{PyLib} lines i l chain_type pm i' st :
  lines !! i = Some l →
  startswith "record callchain:" l = true →
  parse_loop chain_type (drop (S i) lines) (S i) ParseState_init = Ok (i', st) →
  parse_callchain_record lines i chain_type pm
  = if bool_decide (ps_pid st = None) || bool_decide (ps_tid st = None) ||
       (length (ips st) =? 0)%nat ||
       negb (length (function_names st) =? length (ips st))%nat
    then Raise (Fatal i')
    else Ok (i', mkCallChainRecord (ps_pid st) (ps_tid st) (chain_nodes st pm)).
Proof.
  intros Hl Hhead Hscan. unfold parse_callchain_record, log_fatal.
  rewrite Hl, Hhead, Hscan. cbn [negb bind fst snd].
  destruct (parse_loop_balanced _ _ _ _ _ _ Hscan balanced_init)
    as (Hsps & Hfiles & Hvaddrs).
  rewrite map_addrs_spec. cbn [fst snd app].
  rewrite !length_fmap, Hsps, Hfiles, Hvaddrs, !Nat.eqb_refl.
  cbn [negb]. rewrite !orb_false_r.
  destruct (bool_decide (ps_pid st = None)); [done|].
  destruct (bool_decide (ps_tid st = None)); [done|].
  destruct (length (ips st) =? 0)%nat; [done|].
  destruct (length (function_names st) =? length (ips st))%nat eqn:E;
    cbn [orb negb]; [|done].
  do 3 f_equal. unfold chain_nodes. apply list_fmap_ext.
  intros k j Hj. apply lookup_seq in Hj as [-> Hlt]. simpl.
  rewrite !(list_lookup_total_fmap _ (ips st) k) by done. done.
Qed.

(** ** The scan and the lines *)














(** ** C9 *)




(** * Further properties *)

Lemma apply_events_snoc evs ev pm :
  apply_events (evs ++ [ev]) pm = apply_event ev (apply_events evs pm).
Proof. unfold apply_events. by rewrite foldl_app. Qed.

Lemma overlay_has_new m old : m ∈ overlay m old false.
Proof.
  induction old as [|x rest IH]; simpl; [apply elem_of_cons; by left|].
  destruct (_ <=? _); [apply elem_of_cons; by right|].
  destruct (_ <? _); [apply elem_of_cons; by right|].
  apply elem_of_cons. by left.
Qed.

Lemma find_in_covering lo l addr e :
  chain lo l → e ∈ l → start e ≤ addr < end_ e → find_in l addr = Some e.
Proof.
  intros Hch He Hcov. pose proof (find_in_spec lo l addr Hch) as Hspec.
  destruct (find_in l addr) as [e'|].
  - destruct Hspec as [He' Hcov']. f_equal.
    by eapply (chain_cover_unique lo l addr).
  - by destruct (Hspec e He).
Qed.

Lemma overlay_keeps m old used r :
  start m ≤ end_ m → r ∈ old →
  end_ r ≤ start m ∨ end_ m ≤ start r →
  r ∈ overlay m old used.
Proof.
  intros Hm Hin Hdisj. revert used.
  induction old as [|x rest IH]; intros used; [by apply elem_of_nil in Hin|].
  apply elem_of_cons in Hin as [<-|Hin]; simpl.
  - destruct (Z.leb_spec (end_ r) (start m)); [apply elem_of_cons; by left|].
    destruct (Z.ltb_spec (start r) (start m)); [lia|].
    apply elem_of_app. right. apply elem_of_app. left.
    unfold Z.geb. destruct (Z.compare_spec (start r) (end_ m));
      try (apply elem_of_cons; by left). lia.
  - destruct (_ <=? _); [apply elem_of_cons; right; by apply IH|].
    destruct (_ <? _); [apply elem_of_cons; right; by apply IH|].
    apply elem_of_app. right. apply elem_of_app. right. by apply IH.
Qed.

Lemma part_of_refl r : part_of r r.
Proof. unfold part_of. repeat split; lia. Qed.

Lemma overlay_parts m old used r' :
  r' ∈ overlay m old used →
  r' = m ∨ ∃ r, r ∈ old ∧ part_of r' r.
Proof.
  revert used. induction old as [|x rest IH]; intros used Hin; simpl in Hin.
  - destruct used; [by apply elem_of_nil in Hin|].
    apply list_elem_of_singleton in Hin. by left.
  - assert (Hrest : ∀ u, r' ∈ overlay m rest u →
                         r' = m ∨ ∃ r, r ∈ x :: rest ∧ part_of r' r).
    { intros u Hu. destruct (IH u Hu) as [?|(r & Hr & Hp)]; [by left|].
      right. exists r. split; [apply elem_of_cons; by right|done]. }
    assert (Hx : ∀ y, part_of y x → r' = y →
                      r' = m ∨ ∃ r, r ∈ x :: rest ∧ part_of r' r).
    { intros y Hp ->. right. exists x. split; [apply elem_of_cons; by left|done]. }
    destruct (Z.leb_spec (end_ x) (start m)).
    { apply elem_of_cons in Hin as [?|?]; [apply (Hx x); [apply part_of_refl|done]|eauto]. }
    destruct (Z.ltb_spec (start x) (start m)).
    { apply elem_of_cons in Hin as [?|?]; [|eauto].
      apply (Hx (set_end x (start m))); [|done]. unfold part_of. simpl. repeat split; lia. }
    apply elem_of_app in Hin as [Hin|Hin].
    { destruct used; [by apply elem_of_nil in Hin|].
      apply list_elem_of_singleton in Hin. by left. }
    apply elem_of_app in Hin as [Hin|Hin]; [|eauto].
    unfold Z.geb, Z.gtb in Hin.
    destruct (Z.compare_spec (start x) (end_ m));
      try (apply list_elem_of_singleton in Hin;
           apply (Hx x); [apply part_of_refl|done]).
    destruct (Z.compare_spec (end_ x) (end_ m));
      try (by apply elem_of_nil in Hin).
    apply list_elem_of_singleton in Hin.
    apply (Hx (set_start x (end_ m))); [|done]. unfold part_of. simpl. repeat split; lia.
Qed.

Lemma overlay_used_clip m old :
  ∀ lo, chain lo old → start m < lo →
        overlay m old true = omap (clip_right (start m) (end_ m)) old ∧
        omap (clip_left (start m)) old = [].
Proof.
  induction old as [|x rest IH]; intros lo Hch Hlo; [done|].
  simpl in Hch. destruct Hch as (H1 & H2 & Hch).
  destruct (IH (end_ x) Hch ltac:(lia)) as [IH1 IH2].
  cbn [overlay omap list_omap]. unfold clip_left, clip_right.
  destruct (Z.leb_spec (end_ x) (start m)); [lia|].
  destruct (Z.ltb_spec (start x) (start m)); [lia|].
  cbn [orb app]. rewrite IH1. split; [|exact IH2].
  destruct (start x >=? end_ m); [done|]. by destruct (end_ x >? end_ m).
Qed.

Lemma overlay_clip m old :
  ∀ lo, chain lo old →
        overlay m old false
        = omap (clip_left (start m)) old ++
          m :: omap (clip_right (start m) (end_ m)) old.
Proof.
  induction old as [|x rest IH]; intros lo Hch; [done|].
  simpl in Hch. destruct Hch as (H1 & H2 & Hch).
  cbn [overlay omap list_omap]. unfold clip_left at 1, clip_right at 1.
  destruct (Z.leb_spec (end_ x) (start m)).
  { cbn [orb]. rewrite (IH _ Hch). done. }
  destruct (Z.ltb_spec (start x) (start m)).
  { cbn [orb]. rewrite (IH _ Hch). done. }
  cbn [orb].
  destruct (overlay_used_clip m rest (end_ x) Hch ltac:(lia)) as [-> ->].
  cbn [app]. f_equal.
  destruct (start x >=? end_ m); [done|]. by destruct (end_ x >? end_ m).
Qed.

Lemma omap_clip_left_fixed s l :
  Forall (λ x, end_ x ≤ s) l → omap (clip_left s) l = l.
Proof.
  induction 1 as [|x l Hx _ IH]; [done|].
  cbn [omap list_omap]. unfold clip_left at 1.
  destruct (Z.leb_spec (end_ x) s); [|lia]. by rewrite IH.
Qed.

Lemma omap_clip_right_none s e l :
  Forall (λ x, end_ x ≤ s) l → omap (clip_right s e) l = [].
Proof.
  induction 1 as [|x l Hx _ IH]; [done|].
  cbn [omap list_omap]. unfold clip_right at 1.
  destruct (Z.leb_spec (end_ x) s); [|lia]. done.
Qed.

Lemma omap_clip_left_none s e l :
  s < e → Forall (λ x, e ≤ start x ∧ s < end_ x) l →
  omap (clip_left s) l = [].
Proof.
  intros Hse. induction 1 as [|x l [Hx1 Hx2] _ IH]; [done|].
  cbn [omap list_omap]. unfold clip_left at 1.
  destruct (Z.leb_spec (end_ x) s); [lia|].
  destruct (Z.ltb_spec (start x) s); [lia|]. done.
Qed.

Lemma omap_clip_right_fixed s e l :
  s < e → Forall (λ x, e ≤ start x ∧ s < end_ x) l →
  omap (clip_right s e) l = l.
Proof.
  intros Hse. induction 1 as [|x l [Hx1 Hx2] _ IH]; [done|].
  cbn [omap list_omap]. unfold clip_right at 1.
  destruct (Z.leb_spec (end_ x) s); [lia|].
  destruct (Z.ltb_spec (start x) s); [lia|]. cbn [orb].
  unfold Z.geb. destruct (Z.compare_spec (start x) e); try lia; by rewrite IH.
Qed.

Lemma clip_left_ends s l :
  Forall (λ x, end_ x ≤ s) (omap (clip_left s) l).
Proof.
  induction l as [|x l IH]; [constructor|].
  cbn [omap list_omap]. unfold clip_left at 1.
  destruct (Z.leb_spec (end_ x) s); [by constructor|].
  destruct (Z.ltb_spec (start x) s); [|done].
  constructor; [simpl; lia|done].
Qed.

Lemma clip_right_starts s e l :
  s < e →
  Forall (λ x, e ≤ start x ∧ s < end_ x) (omap (clip_right s e) l).
Proof.
  intros Hse. induction l as [|x l IH]; [constructor|].
  cbn [omap list_omap]. unfold clip_right at 1.
  destruct (Z.leb_spec (end_ x) s); [done|].
  destruct (Z.ltb_spec (start x) s); [done|]. cbn [orb].
  unfold Z.geb, Z.gtb. destruct (Z.compare_spec (start x) e);
    try (constructor; [lia|done]).
  destruct (Z.compare_spec (end_ x) e); try done.
  constructor; [simpl; lia|done].
Qed.

Lemma overlay_again m m' old lo :
  chain lo old → start m < end_ m →
  start m' = start m → end_ m' = end_ m →
  overlay m' (overlay m old false) false = overlay m' old false.
Proof.
  intros Hch Hm Hs He.
  assert (Hch1 : chain (Z.min lo (start m)) (overlay m old false)).
  { apply overlay_chain; [lia|lia|]. eapply chain_weaken; [|exact Hch]. lia. }
  rewrite (overlay_clip m' _ _ Hch1), (overlay_clip m' old lo Hch).
  rewrite (overlay_clip m old lo Hch), Hs, He.
  set (s := start m) in *. set (e := end_ m) in *.
  rewrite !omap_app. cbn [omap list_omap].
  rewrite (omap_clip_left_fixed s _ (clip_left_ends s old)).
  rewrite (omap_clip_right_none s e _ (clip_left_ends s old)).
  rewrite (omap_clip_left_none s e _ Hm (clip_right_starts s e old Hm)).
  rewrite (omap_clip_right_fixed s e _ Hm (clip_right_starts s e old Hm)).
  unfold clip_left, clip_right. fold s e.
  destruct (Z.leb_spec e s); [lia|]. rewrite Z.ltb_irrefl. cbn [orb].
  unfold Z.geb, Z.gtb. rewrite Z.compare_refl.
  destruct (Z.compare_spec s e); try lia. by rewrite app_nil_r.
Qed.

Lemma add_range_ordered evs pid s e f q :
  Forall event_ok evs → s ≤ e →
  ∃ lo, chain lo (ranges (add_range pid s e f
                            (apply_events evs ProcessMaps_init)) q).
Proof.
  intros Hok Hse.
  change (add_range pid s e f (apply_events evs ProcessMaps_init))
    with (apply_event (Mmap pid s e f) (apply_events evs ProcessMaps_init)).
  rewrite <- apply_events_snoc. apply reachable_ordered.
  apply Forall_app. split; [done|]. by repeat constructor.
Qed.

Lemma add_range_values evs pid s e f :
  ranges (add_range pid s e f (apply_events evs ProcessMaps_init)) pid
  = overlay (mkMapEntry s e f)
      (ranges (apply_events evs ProcessMaps_init) pid) false.
Proof. apply add_range_spec, reachable_separated. Qed.

(** ** Inserting and looking up *)

(** X1: after [add] of the range [s, e) for a pid, the range is in the pid's
    list, and [find] resolves every address of [s, e) to it. *)
Theorem find_after_add_is_new_range (evs : list MapEvent) (pid s e : Z)
    (f : string) (addr : Z) :
  Forall event_ok evs → s ≤ addr < e →
  let pm := add_range pid s e f (apply_events evs ProcessMaps_init) in
  mkMapEntry s e f ∈ ranges pm pid ∧
  find_range pid addr pm = Some (mkMapEntry s e f).
Proof.
  intros Hok Haddr pm.
  assert (Hin : mkMapEntry s e f ∈ ranges pm pid).
  { unfold pm. rewrite add_range_values. apply overlay_has_new. }
  split; [exact Hin|].
  destruct (add_range_ordered evs pid s e f pid Hok ltac:(lia)) as [lo Hch].
  rewrite find_range_values. by eapply find_in_covering.
Qed.

Lemma find_after_add_is_new_range_witness :
  find_range 7 12 (add_range 7 10 20 "b"
                     (apply_events [Mmap 7 0 100 "a"] ProcessMaps_init))
  = Some (mkMapEntry 10 20 "b").
Proof.
  apply (find_after_add_is_new_range [Mmap 7 0 100 "a"] 7 10 20 "b" 12).
  - repeat constructor. simpl. lia.
  - lia.
Defined.

(** X2: a stored range that does not overlap the inserted range [s, e) stays in
    the list as it is, and every address that resolved to it still does. *)
Theorem add_keeps_ranges_it_does_not_overlap (evs : list MapEvent)
    (pid s e : Z) (f : string) (r : MapEntry) :
  Forall event_ok evs → s ≤ e →
  let pm := apply_events evs ProcessMaps_init in
  r ∈ ranges pm pid →
  end_ r ≤ s ∨ e ≤ start r →
  r ∈ ranges (add_range pid s e f pm) pid ∧
  ∀ addr, find_range pid addr pm = Some r →
          find_range pid addr (add_range pid s e f pm) = Some r.
Proof.
  intros Hok Hse pm Hr Hdisj.
  assert (Hin : r ∈ ranges (add_range pid s e f pm) pid).
  { unfold pm. rewrite add_range_values. by apply overlay_keeps. }
  split; [exact Hin|]. intros addr Hf.
  destruct (reachable_ordered evs pid Hok) as [lo Hch].
  destruct (add_range_ordered evs pid s e f pid Hok Hse) as [lo' Hch'].
  pose proof (find_in_spec lo _ addr Hch) as Hspec.
  rewrite <- find_range_values in Hspec. fold pm in Hspec.
  rewrite Hf in Hspec. destruct Hspec as [_ Hcov].
  rewrite find_range_values. by eapply find_in_covering.
Qed.

Lemma add_keeps_ranges_it_does_not_overlap_witness :
  mkMapEntry 0 5 "a"
    ∈ ranges (add_range 7 10 20 "b"
                (apply_events [Mmap 7 0 5 "a"] ProcessMaps_init)) 7.
Proof.
  apply (add_keeps_ranges_it_does_not_overlap [Mmap 7 0 5 "a"] 7 10 20 "b"
           (mkMapEntry 0 5 "a")).
  - repeat constructor. simpl. lia.
  - lia.
  - vm_compute. apply elem_of_cons. by left.
  - left. simpl. lia.
Defined.

(** X3: [add] never maps an address to another file than the inserted one or
    the one it had: after an insert every stored range is the new range or a
    part of an old range with the old filename, and a found range is the new
    one or a part of the range found before the insert. *)
Theorem add_only_shrinks_old_ranges (evs : list MapEvent) (pid s e : Z)
    (f : string) :
  Forall event_ok evs → s ≤ e →
  let pm := apply_events evs ProcessMaps_init in
  let pm' := add_range pid s e f pm in
  (∀ r', r' ∈ ranges pm' pid →
         r' = mkMapEntry s e f ∨ ∃ r, r ∈ ranges pm pid ∧ part_of r' r) ∧
  (∀ addr r', find_range pid addr pm' = Some r' →
     r' = mkMapEntry s e f ∨
     ∃ r, find_range pid addr pm = Some r ∧ part_of r' r).
Proof.
  intros Hok Hse pm pm'.
  assert (Hparts : ∀ r', r' ∈ ranges pm' pid →
            r' = mkMapEntry s e f ∨ ∃ r, r ∈ ranges pm pid ∧ part_of r' r).
  { intros r' Hr'. unfold pm', pm in Hr'. rewrite add_range_values in Hr'.
    by apply overlay_parts in Hr'. }
  split; [exact Hparts|]. intros addr r' Hf.
  destruct (reachable_ordered evs pid Hok) as [lo Hch].
  destruct (add_range_ordered evs pid s e f pid Hok Hse) as [lo' Hch'].
  pose proof (find_in_spec lo' _ addr Hch') as Hspec.
  rewrite <- find_range_values in Hspec. fold pm pm' in Hspec.
  rewrite Hf in Hspec. destruct Hspec as [Hin Hcov].
  destruct (Hparts r' Hin) as [?|(r & Hr & Hp)]; [by left|].
  right. exists r. split; [|done].
  rewrite find_range_values. eapply find_in_covering; [exact Hch|done|].
  destruct Hp as (_ & ? & ?). lia.
Qed.

Lemma add_only_shrinks_old_ranges_witness :
  let pm := apply_events [Mmap 7 0 100 "a"] ProcessMaps_init in
  let pm' := add_range 7 10 20 "b" pm in
  (∀ r', r' ∈ ranges pm' 7 →
         r' = mkMapEntry 10 20 "b" ∨ ∃ r, r ∈ ranges pm 7 ∧ part_of r' r) ∧
  (∀ addr r', find_range 7 addr pm' = Some r' →
     r' = mkMapEntry 10 20 "b" ∨
     ∃ r, find_range 7 addr pm = Some r ∧ part_of r' r).
Proof.
  apply (add_only_shrinks_old_ranges [Mmap 7 0 100 "a"] 7 10 20 "b").
  - repeat constructor. simpl. lia.
  - lia.
Defined.

(** X4: on the lists the program builds, [add] of [s, e) gives: the old ranges
    below [s] (one that crosses [s] cut at [s]), then the new range, then
    the old ranges that start at or above [s] and reach beyond [e] (one that
    crosses [e] cut at [e]).  An old range that starts below [s] leaves
    nothing above [e].  A pid without ranges gets just the new range. *)
Theorem add_is_clip_new_clip (evs : list MapEvent) (pid s e : Z)
    (f : string) :
  Forall event_ok evs →
  let pm := apply_events evs ProcessMaps_init in
  ranges (add_range pid s e f pm) pid
  = omap (clip_left s) (ranges pm pid) ++
    mkMapEntry s e f :: omap (clip_right s e) (ranges pm pid) ∧
  (ranges pm pid = [] →
   ranges (add_range pid s e f pm) pid = [mkMapEntry s e f]).
Proof.
  intros Hok pm. unfold pm. rewrite add_range_values.
  destruct (reachable_ordered evs pid Hok) as [lo Hch].
  split; [by rewrite (overlay_clip _ _ lo Hch)|].
  by intros ->.
Qed.

Lemma add_is_clip_new_clip_witness :
  ranges (add_range 7 10 20 "b"
            (apply_events [Mmap 7 0 12 "a"; Mmap 7 15 30 "c"] ProcessMaps_init)) 7
  = omap (clip_left 10) [mkMapEntry 0 12 "a"; mkMapEntry 15 30 "c"] ++
    mkMapEntry 10 20 "b" ::
    omap (clip_right 10 20) [mkMapEntry 0 12 "a"; mkMapEntry 15 30 "c"].
Proof.
  apply (add_is_clip_new_clip [Mmap 7 0 12 "a"; Mmap 7 15 30 "c"] 7 10 20 "b").
  repeat constructor; simpl; lia.
Defined.

(** X5: inserting the same non-empty range twice, the second time with another
    filename, gives the list that inserting it once with the second filename
    gives: the later insert wins. *)
Theorem add_same_range_again_later_wins (evs : list MapEvent) (pid s e : Z)
    (f g : string) :
  Forall event_ok evs → s < e →
  let pm := apply_events evs ProcessMaps_init in
  ranges (add_range pid s e g (add_range pid s e f pm)) pid
  = ranges (add_range pid s e g pm) pid.
Proof.
  intros Hok Hse pm. unfold pm.
  change (add_range pid s e f (apply_events evs ProcessMaps_init))
    with (apply_event (Mmap pid s e f) (apply_events evs ProcessMaps_init)).
  rewrite <- apply_events_snoc. rewrite !add_range_values.
  rewrite apply_events_snoc. cbn [apply_event]. rewrite add_range_values.
  destruct (reachable_ordered evs pid Hok) as [lo Hch].
  by apply (overlay_again _ _ _ lo).
Qed.

Lemma add_same_range_again_later_wins_witness :
  ranges (add_range 7 10 20 "c"
            (add_range 7 10 20 "b"
               (apply_events [Mmap 7 0 100 "a"] ProcessMaps_init))) 7
  = ranges (add_range 7 10 20 "c"
              (apply_events [Mmap 7 0 100 "a"] ProcessMaps_init)) 7.
Proof.
  apply (add_same_range_again_later_wins [Mmap 7 0 100 "a"] 7 10 20 "b" "c").
  - repeat constructor. simpl. lia.
  - lia.
Defined.

(** ** Lookups of other processes *)

(** X6: [add] for one pid changes no lookup of another pid; [fork_pid] changes
    no lookup of a pid other than the child, and right after the fork the
    child resolves every address as the parent does. *)
Theorem find_of_other_pids_unchanged (evs : list MapEvent) (pid ppid q : Z)
    (s e : Z) (f : string) (addr : Z) :
  let pm := apply_events evs ProcessMaps_init in
  (q ≠ pid → find_range q addr (add_range pid s e f pm) = find_range q addr pm) ∧
  (q ≠ pid → find_range q addr (fork_pid pid ppid pm) = find_range q addr pm) ∧
  (find_range pid addr (fork_pid pid ppid pm) = find_range ppid addr pm).
Proof.
  intros pm. pose proof (reachable_separated evs) as Hsep. fold pm in Hsep.
  rewrite !find_range_values. split; [|split].
  - intros Hq. f_equal. by apply add_range_spec.
  - intros Hq. f_equal. destruct (decide (pid = ppid)) as [->|Hne].
    + unfold fork_pid. by rewrite decide_True.
    + by apply fork_pid_spec.
  - f_equal. destruct (decide (pid = ppid)) as [->|Hne].
    + unfold fork_pid. by rewrite decide_True.
    + by apply fork_pid_spec.
Qed.

Lemma find_of_other_pids_unchanged_witness :
  find_range 8 50 (add_range 7 10 20 "b"
                     (apply_events [Mmap 8 0 100 "a"] ProcessMaps_init))
  = find_range 8 50 (apply_events [Mmap 8 0 100 "a"] ProcessMaps_init).
Proof.
  apply (find_of_other_pids_unchanged [Mmap 8 0 100 "a"] 7 7 8 10 20 "b" 50).
  lia.
Defined.

(** ** Timing statistics *)

Lemma timed_used_time_of `{PyLib} s t : timed s t ↔ used_time_of s = Some t.
Proof.
  unfold timed, used_time_of. split.
  - intros (ut & -> & Ht). done.
  - destruct (unwinding_result s !! "used_time") as [ut|]; [|done].
    simpl. eauto.
Qed.

Lemma add_sample_results_times `{PyLib} samples :
  ∀ self self', add_sample_results samples self = Ok self' →
    length (times_of samples) = length samples ∧
    total_time (unwinding_times self')
    = total_time (unwinding_times self) + foldr Z.add 0 (times_of samples) ∧
    max_time (unwinding_times self')
    = foldl Z.max (max_time (unwinding_times self)) (times_of samples).
Proof.
  induction samples as [|[s j] rest IH]; intros self self' Hok.
  - simpl in Hok. injection Hok as <-. simpl. split; [done|]. split; [lia|done].
  - rewrite add_sample_results_cons in Hok.
    destruct (add_sample_result s j self) as [self1|] eqn:E; simpl in Hok; [|done].
    destruct (add_sample_result_step s j self self1 E) as (_ & (t & Ht & Hu) & _).
    destruct (IH _ _ Hok) as (Hlen & Htot & Hmax).
    apply timed_used_time_of in Ht.
    unfold times_of in *. cbn [omap list_omap fst]. rewrite Ht.
    cbn [length foldr foldl]. rewrite Hlen, Htot, Hmax, Hu. simpl.
    split; [done|]. split; [lia|done].
Qed.

Lemma foldl_max_bounds ts :
  ∀ m, m ≤ foldl Z.max m ts ∧ Forall (λ t, t ≤ foldl Z.max m ts) ts ∧
       (foldl Z.max m ts = m ∨ foldl Z.max m ts ∈ ts).
Proof.
  induction ts as [|t ts IH]; intros m; simpl.
  - split; [lia|]. split; [constructor|by left].
  - destruct (IH (Z.max m t)) as (H1 & H2 & H3).
    split; [lia|]. split.
    + constructor; [lia|done].
    + destruct H3 as [H3|H3]; [|right; apply elem_of_cons; by right].
      destruct (Z.max_spec m t) as [[_ Hm]|[_ Hm]]; rewrite Hm in H3 |- *.
      * right. rewrite H3. apply elem_of_cons. by left.
      * by left.
Qed.

Lemma sum_le_length_times_bound ts M :
  Forall (λ t, t ≤ M) ts → foldr Z.add 0 ts ≤ Z.of_nat (length ts) * M.
Proof.
  induction 1 as [|t ts Ht _ IH]; simpl; [lia|]. lia.
Qed.

(** X7: after feeding samples to a new report, [total_time] is the sum of the
    samples' used times, [max_time] is their maximum taken together with the
    initial 0 (so it is never negative, bounds every sample's time, and is 0
    or the time of one of the samples), and the total is at most
    [count * max_time]: the average the report prints never exceeds the
    maximum. *)
Theorem unwinding_times_sum_and_max `{PyLib}
    (samples : list (SampleResult * CallChainRecord)) (flag : bool)
    (report : UnwindingResultErrorReport) :
  add_sample_results samples (Report_init flag) = Ok report →
  let times := times_of samples in
  let ut := unwinding_times report in
  length times = length samples ∧
  total_time ut = foldr Z.add 0 times ∧
  max_time ut = foldl Z.max 0 times ∧
  0 ≤ max_time ut ∧
  Forall (λ t, t ≤ max_time ut) times ∧
  (max_time ut = 0 ∨ max_time ut ∈ times) ∧
  total_time ut ≤ count ut * max_time ut.
Proof.
  intros Hrun times ut.
  destruct (add_sample_results_times samples _ _ Hrun) as (Hlen & Htot & Hmax).
  pose proof (add_sample_results_count samples _ _ Hrun) as Hcount.
  simpl in Htot, Hmax, Hcount. fold times ut in Hlen, Htot, Hmax, Hcount.
  destruct (foldl_max_bounds times 0) as (H1 & H2 & H3).
  rewrite <- Hmax in H1, H2, H3.
  repeat split; try done.
  rewrite Htot, Hcount, <- Hlen. by apply sum_le_length_times_bound.
Qed.

Lemma unwinding_times_sum_and_max_witness :
  ∃ report,
    @add_sample_results PyLib_ref eleven_samples (Report_init false) = Ok report ∧
    total_time (unwinding_times report) = 55 ∧
    max_time (unwinding_times report) = 5.
Proof.
  destruct (@add_sample_results PyLib_ref eleven_samples (Report_init false))
    as [report|] eqn:Hrun; [|by vm_compute in Hrun].
  exists report. split; [done|].
  destruct (@unwinding_times_sum_and_max PyLib_ref eleven_samples false report
              Hrun) as (_ & -> & -> & _).
  split; vm_compute; reflexivity.
Defined.

(** ** The classifier *)

Lemma substring_all (s : string) :
  String.substring 0 (String.length s) s = s.
Proof. induction s as [|c s IH]; simpl; [done|]. by rewrite IH. Qed.

Lemma substring_after (pre suf : string) :
  String.substring (String.length pre) (String.length suf) (pre +:+ suf) = suf.
Proof. induction pre as [|c pre IH]; simpl; [apply substring_all|done]. Qed.

Lemma substring_split (s : string) :
  ∀ m k, (m + k = String.length s)%nat →
         s = String.substring 0 m s +:+ String.substring m k s.
Proof.
  induction s as [|c s IH]; intros m k Hlen; simpl in Hlen.
  - assert (m = 0%nat) as -> by lia. assert (k = 0%nat) as -> by lia. done.
  - destruct m as [|m]; simpl.
    + destruct k as [|k]; [done|].
      change (String c s = String c (String.substring 0 k s)). f_equal.
      assert (k = String.length s) as -> by lia. by rewrite substring_all.
    + change (String c s
              = String c (String.substring 0 m s +:+ String.substring m k s)).
      f_equal. apply IH. lia.
Qed.

Lemma length_append (a b : string) :
  String.length (a +:+ b) = (String.length a + String.length b)%nat.
Proof. induction a as [|c a IH]; simpl; [done|]. by rewrite IH. Qed.

Lemma endswith_spec (suf s : string) :
  endswith suf s = true ↔ ∃ pre, s = pre +:+ suf.
Proof.
  unfold endswith. split.
  - intros Hend. apply andb_true_iff in Hend as [Hle Heq].
    apply Nat.leb_le in Hle. apply String.eqb_eq in Heq.
    exists (String.substring 0 (String.length s - String.length suf) s).
    pose proof (substring_split s (String.length s - String.length suf)
                  (String.length suf) ltac:(lia)) as Hs.
    by rewrite Heq in Hs.
  - intros [pre ->]. rewrite length_append. apply andb_true_iff. split.
    + apply Nat.leb_le. lia.
    + apply String.eqb_eq.
      replace (String.length pre + String.length suf - String.length suf)%nat
        with (String.length pre) by lia.
      apply substring_after.
Qed.

(** X8: [is_callchain_complete] holds exactly of the call chains with a node
    whose filename ends with 'libc.so' and whose function name is
    '__libc_init' or '__start_thread'. *)
Theorem is_callchain_complete_iff_entry_node (callchain : list CallChainNode) :
  is_callchain_complete callchain = true ↔
  ∃ node, node ∈ callchain ∧ entry_node node.
Proof.
  assert (Hnode : ∀ node,
    endswith "libc.so" (node_filename node) &&
    bool_decide (function_name node ∈ ["__libc_init"; "__start_thread"]%string)
    = true ↔ entry_node node).
  { intros node. unfold entry_node.
    rewrite andb_true_iff, endswith_spec, bool_decide_eq_true.
    rewrite !elem_of_cons, elem_of_nil. tauto. }
  induction callchain as [|node rest IH]; simpl.
  - split; [done|]. intros (node & Hin & _). by apply elem_of_nil in Hin.
  - destruct (endswith "libc.so" (node_filename node) && _) eqn:E.
    + split; [|done]. intros _. exists node.
      split; [apply elem_of_cons; by left|]. by apply Hnode.
    + rewrite IH. split.
      * intros (n & Hin & Hn). exists n. split; [apply elem_of_cons; by right|done].
      * intros (n & Hin & Hn). apply elem_of_cons in Hin as [->|Hin]; [|eauto].
        apply Hnode in Hn. congruence.
Qed.

(** X9: the joined record matters only when the flag is set: without the flag
    [should_omit] gives the same answer for every joined record, and setting
    the flag never turns an omitted sample into a reported one.  A sample is
    reported only if its last node is not in-memory code and its own chain
    is not complete. *)
Theorem should_omit_flag_and_joiner (self self' : UnwindingResultErrorReport)
    (s : SampleResult) (j j' : CallChainRecord) :
  (omit_callchains_fixed_by_joiner self = false →
   should_omit self s j = should_omit self s j') ∧
  (omit_callchains_fixed_by_joiner self = false →
   omit_callchains_fixed_by_joiner self' = true →
   should_omit self s j = Ok true → should_omit self' s j = Ok true) ∧
  (should_omit self s j = Ok false →
   ∃ node, last (callchain s) = Some node ∧
     contains "/dev/ashmem/dalvik-jit-code-cache" (node_filename node) = false ∧
     contains "//anon" (node_filename node) = false ∧
     is_callchain_complete (callchain s) = false ∧
     (omit_callchains_fixed_by_joiner self = true →
      is_callchain_complete (rec_callchain j) = false)).
Proof.
  unfold should_omit, in_memory_code, anchor.
  destruct (last (callchain s)) as [node|]; cbn [of_option bind].
  2:{ split; [done|]. split; done. }
  destruct (contains "/dev/ashmem/dalvik-jit-code-cache" (node_filename node))
    eqn:E1; cbn [bind]; [split; [done|]; split; done|].
  destruct (contains "//anon" (node_filename node)) eqn:E2;
    cbn [bind]; [split; [done|]; split; done|].
  destruct (is_callchain_complete (callchain s)) eqn:E3;
    [split; [done|]; split; done|].
  split; [by intros ->|]. split.
  - intros -> ->. by destruct (is_callchain_complete (rec_callchain j)).
  - intros Hf. exists node. repeat split; try done.
    intros Hflag. rewrite Hflag in Hf.
    by destruct (is_callchain_complete (rec_callchain j)).
Qed.

Lemma should_omit_flag_and_joiner_witness :
  should_omit (Report_init false) (sample_at 3).1 (sample_at 3).2
  = should_omit (Report_init false) (sample_at 3).1
      (mkCallChainRecord None None
         [mkCallChainNode 0 0 "/system/lib/libc.so" 0 "__libc_init" 0 0]).
Proof.
  apply (should_omit_flag_and_joiner (Report_init false) (Report_init true)).
  reflexivity.
Defined.

(** ** The aggregation *)

Lemma duplicates_false_inv l s :
  duplicates l s = Ok false → anchored s →
  anchor_vaddr s ∉ anchor_vaddr <$> l.
Proof.
  intros Hd [node Hnode]. induction l as [|r rest IH]; [apply not_elem_of_nil|].
  simpl in Hd. unfold anchor in Hd. rewrite Hnode in Hd.
  destruct (last (callchain r)) as [rn|] eqn:Hrn; simpl in Hd; [|done].
  destruct (Z.eqb_spec (vaddr_in_file rn) (vaddr_in_file node)); [done|].
  rewrite fmap_cons. apply not_elem_of_cons. split; [|by apply IH].
  unfold anchor_vaddr. rewrite Hrn, Hnode. simpl. congruence.
Qed.

Lemma should_omit_false_reportable self s j :
  should_omit self s j = Ok false → reportable s.
Proof.
  unfold should_omit, in_memory_code, anchor, reportable.
  destruct (last (callchain s)) as [node|]; cbn [of_option bind]; [|done].
  destruct (contains "/dev/ashmem/dalvik-jit-code-cache" (node_filename node))
    eqn:E1; cbn [bind]; [done|].
  destruct (contains "//anon" (node_filename node)) eqn:E2; cbn [bind]; [done|].
  destruct (is_callchain_complete (callchain s)) eqn:E3; [done|].
  intros _. by exists node.
Qed.

Lemma buckets_ok_init flag : buckets_ok (Report_init flag).
Proof.
  intros a b c. unfold stored. simpl. rewrite lookup_empty. simpl.
  split; constructor.
Qed.

Lemma buckets_ok_step `{PyLib} s j self self' :
  buckets_ok self → add_sample_result s j self = Ok self' → buckets_ok self'.
Proof.
  intros Hinv Hok a b c.
  destruct (add_sample_result_step s j self self' Hok)
    as (_ & _ & [Heq|(node & sr & Homit & Hnode & Hsr & Hdup & _ & Hst)]).
  - rewrite (stored_file_results self self') by done. apply Hinv.
  - rewrite Hst. case_decide as Hk; [|apply Hinv].
    destruct Hk as (-> & -> & ->).
    destruct (Hinv (node_filename node) (function_name node) sr) as [Hnd Hall].
    split.
    + rewrite fmap_app. apply NoDup_app. split; [done|]. split.
      * intros x Hx Hx'. apply list_elem_of_singleton in Hx'. subst x.
        revert Hx. apply duplicates_false_inv; [done|]. by exists node.
      * apply NoDup_singleton.
    + apply Forall_app. split; [done|]. repeat constructor.
      * by exists node.
      * by eapply should_omit_false_reportable.
Qed.

Lemma buckets_ok_run `{PyLib} samples :
  ∀ self self', buckets_ok self →
    add_sample_results samples self = Ok self' → buckets_ok self'.
Proof.
  induction samples as [|[s j] rest IH]; intros self self' Hinv Hok.
  - simpl in Hok. by injection Hok as <-.
  - rewrite add_sample_results_cons in Hok.
    destruct (add_sample_result s j self) as [self1|] eqn:E; simpl in Hok; [|done].
    eapply IH; [|exact Hok]. by eapply buckets_ok_step.
Qed.

(** X10: in every report reached by feeding samples to a new one, each sample is
    stored under the triple it belongs to: a sample in the list of
    (filename, function name, stop reason) has a last call-chain node with
    that filename and function name, and that stop reason. *)
Theorem stored_samples_are_filed_under_their_triple `{PyLib}
    (samples : list (SampleResult * CallChainRecord)) (flag : bool)
    (report : UnwindingResultErrorReport) (a b c : string) (s : SampleResult) :
  add_sample_results samples (Report_init flag) = Ok report →
  s ∈ stored report a b c →
  filed_under a b c s.
Proof.
  intros Hrun Hin.
  destruct (buckets_ok_run samples _ _ (buckets_ok_init flag) Hrun a b c)
    as [_ Hall].
  rewrite Forall_forall in Hall. by apply Hall.
Qed.

(** X11: in every report reached by feeding samples to a new one, no stored list
    holds two samples with the same offset-in-file at their last node. *)
Theorem stored_offsets_are_distinct `{PyLib}
    (samples : list (SampleResult * CallChainRecord)) (flag : bool)
    (report : UnwindingResultErrorReport) (a b c : string) :
  add_sample_results samples (Report_init flag) = Ok report →
  NoDup (anchor_vaddr <$> stored report a b c) ∧
  ∀ i k s1 s2 n1 n2,
    stored report a b c !! i = Some s1 → stored report a b c !! k = Some s2 →
    last (callchain s1) = Some n1 → last (callchain s2) = Some n2 →
    vaddr_in_file n1 = vaddr_in_file n2 → i = k.
Proof.
  intros Hrun.
  destruct (buckets_ok_run samples _ _ (buckets_ok_init flag) Hrun a b c)
    as [Hnd _].
  split; [exact Hnd|]. intros i k s1 s2 n1 n2 H1 H2 Hn1 Hn2 Heq.
  apply (NoDup_lookup _ i k (Some (vaddr_in_file n1)) Hnd).
  - rewrite list_lookup_fmap, H1. simpl. unfold anchor_vaddr. by rewrite Hn1.
  - rewrite list_lookup_fmap, H2. simpl. unfold anchor_vaddr.
    by rewrite Hn2, Heq.
Qed.

(** X12: in every report reached by feeding samples to a new one, no stored
    sample stopped in in-memory code and none has a complete call chain:
    the filename of its last node contains neither marker, and its chain has
    no libc.so entry node. *)
Theorem stored_samples_are_reportable `{PyLib}
    (samples : list (SampleResult * CallChainRecord)) (flag : bool)
    (report : UnwindingResultErrorReport) (a b c : string) (s : SampleResult) :
  add_sample_results samples (Report_init flag) = Ok report →
  s ∈ stored report a b c →
  reportable s ∧
  contains "/dev/ashmem/dalvik-jit-code-cache" a = false ∧
  contains "//anon" a = false.
Proof.
  intros Hrun Hin.
  destruct (buckets_ok_run samples _ _ (buckets_ok_init flag) Hrun a b c)
    as [_ Hall].
  rewrite Forall_forall in Hall.
  destruct (Hall s Hin) as [(node & Hnode & <- & _) Hrep].
  split; [exact Hrep|].
  destruct Hrep as (node' & Hnode' & H1 & H2 & _).
  rewrite Hnode in Hnode'. injection Hnode' as <-. done.
Qed.

Lemma add_sample_result_frame `{PyLib} s j self self' :
  add_sample_result s j self = Ok self' →
  report_process_maps self' = report_process_maps self.
Proof.
  intros Hok.
  destruct (add_sample_result_ok_inv s j self self' Hok)
    as (t & omit & Ht & Homit & Hkept).
  destruct omit.
  - rewrite (add_sample_result_omitted s j self t Ht Homit) in Hok.
    by injection Hok as <-.
  - destruct (Hkept eq_refl) as (node & sr & Hnode & Hsr).
    rewrite (add_sample_result_cases s j self t node sr Ht Homit Hnode Hsr) in Hok.
    destruct (duplicates _ s) as [dup|]; simpl in Hok; [|done].
    destruct (_ && _); by injection Hok as <-.
Qed.

(** X13: feeding samples only ever appends to the stored lists: every list of
    the report before is a prefix of the list of the same triple after.  The
    registry and the flag of the report stay as they were. *)
Theorem feeding_samples_only_appends `{PyLib}
    (samples : list (SampleResult * CallChainRecord))
    (self self' : UnwindingResultErrorReport) :
  add_sample_results samples self = Ok self' →
  (∀ a b c, stored self a b c `prefix_of` stored self' a b c) ∧
  report_process_maps self' = report_process_maps self ∧
  omit_callchains_fixed_by_joiner self' = omit_callchains_fixed_by_joiner self.
Proof.
  revert self. induction samples as [|[s j] rest IH]; intros self Hok.
  - simpl in Hok. by injection Hok as <-.
  - rewrite add_sample_results_cons in Hok.
    destruct (add_sample_result s j self) as [self1|] eqn:E; simpl in Hok; [|done].
    destruct (IH _ Hok) as (Hpre & Hpm & Hflag).
    destruct (add_sample_result_step s j self self1 E) as (Hflag1 & _ & Hst).
    split; [|split; [|congruence]].
    + intros a b c. etransitivity; [|apply Hpre].
      destruct Hst as [Heq|(node & sr & _ & _ & _ & _ & _ & Hst)].
      * by rewrite (stored_file_results self self1).
      * rewrite Hst. case_decide as Hk; [|done].
        destruct Hk as (-> & -> & ->). by apply prefix_app_r.
    + rewrite Hpm. by apply (add_sample_result_frame s j).
Qed.

Lemma feeding_samples_only_appends_witness :
  ∃ before after,
    @add_sample_results PyLib_ref [sample_at 1] (Report_init false) = Ok before ∧
    @add_sample_results PyLib_ref [sample_at 2; sample_at 3] before = Ok after ∧
    stored before "lib.so" "f" "X" `prefix_of` stored after "lib.so" "f" "X".
Proof.
  destruct (@add_sample_results PyLib_ref [sample_at 1] (Report_init false))
    as [before|] eqn:H1; [|by vm_compute in H1].
  destruct (@add_sample_results PyLib_ref [sample_at 2; sample_at 3] before)
    as [after|] eqn:H2.
  2:{ vm_compute in H1. injection H1 as <-. by vm_compute in H2. }
  exists before, after. split; [done|]. split; [done|].
  by apply (@feeding_samples_only_appends PyLib_ref
              [sample_at 2; sample_at 3] before after H2).
Defined.

Lemma no_empty_bucket_init flag : no_empty_bucket (Report_init flag).
Proof. intros a fr Hlk. simpl in Hlk. by rewrite lookup_empty in Hlk. Qed.

Lemma no_empty_bucket_step `{PyLib} s j self self' :
  no_empty_bucket self → add_sample_result s j self = Ok self' →
  no_empty_bucket self'.
Proof.
  intros Hinv Hok.
  destruct (add_sample_result_ok_inv s j self self' Hok)
    as (t & omit & Ht & Homit & Hkept).
  destruct omit.
  { rewrite (add_sample_result_omitted s j self t Ht Homit) in Hok.
    injection Hok as <-. exact Hinv. }
  destruct (Hkept eq_refl) as (node & sr & Hnode & Hsr).
  rewrite (add_sample_result_cases s j self t node sr Ht Homit Hnode Hsr) in Hok.
  destruct (duplicates _ s) as [dup|]; simpl in Hok; [|done].
  destruct (_ && _); injection Hok as <-; [|exact Hinv].
  set (l := stored self (node_filename node) (function_name node) sr).
  intros a fr Hlk. cbn [file_results] in Hlk.
  destruct (decide (a = node_filename node)) as [->|Ha].
  2:{ rewrite lookup_insert_ne in Hlk by done. by apply (Hinv a). }
  rewrite lookup_insert_eq in Hlk. injection Hlk as <-.
  cbn [function_results]. split; [apply insert_non_empty|].
  intros b fnr Hb.
  destruct (decide (b = function_name node)) as [->|Hb'].
  2:{ rewrite lookup_insert_ne in Hb by done.
      destruct (file_results self !! node_filename node) as [fr0|] eqn:Efr;
        simpl in Hb; [|by rewrite lookup_empty in Hb].
      destruct (Hinv _ fr0 Efr) as [_ Hfn]. by apply (Hfn b). }
  rewrite lookup_insert_eq in Hb. injection Hb as <-.
  cbn [sample_results]. split; [apply insert_non_empty|].
  intros c lc Hc.
  destruct (decide (c = sr)) as [->|Hc'].
  { rewrite lookup_insert_eq in Hc. injection Hc as <-.
    intros Hnil. by apply app_eq_nil in Hnil as [_ ?]. }
  rewrite lookup_insert_ne in Hc by done.
  destruct (file_results self !! node_filename node) as [fr0|] eqn:Efr;
    simpl in Hc; [|by rewrite !lookup_empty in Hc].
  destruct (function_results fr0 !! function_name node) as [fnr0|] eqn:Efn;
    simpl in Hc; [|by rewrite lookup_empty in Hc].
  destruct (Hinv _ fr0 Efr) as [_ Hfn].
  destruct (Hfn _ fnr0 Efn) as [_ Hl]. by apply (Hl c).
Qed.

(** X14: in every report reached by feeding samples to a new one, the
    aggregation has no empty part: every [FileResult] has a function, every
    [FunctionResult] has a stop reason, and every list has a sample. *)
Theorem aggregation_has_no_empty_bucket `{PyLib}
    (samples : list (SampleResult * CallChainRecord)) (flag : bool)
    (report : UnwindingResultErrorReport) :
  add_sample_results samples (Report_init flag) = Ok report →
  no_empty_bucket report.
Proof.
  assert (Hgen : ∀ self, no_empty_bucket self →
            add_sample_results samples self = Ok report →
            no_empty_bucket report).
  { induction samples as [|[s j] rest IH]; intros self Hinv Hok.
    - simpl in Hok. by injection Hok as <-.
    - rewrite add_sample_results_cons in Hok.
      destruct (add_sample_result s j self) as [self1|] eqn:E;
        simpl in Hok; [|done].
      eapply IH; [|exact Hok]. by eapply no_empty_bucket_step. }
  apply Hgen, no_empty_bucket_init.
Qed.

Lemma stored_samples_are_filed_under_their_triple_witness :
  filed_under "lib.so" "f" "X" (sample_at 1).1.
Proof.
  destruct (@add_sample_results PyLib_ref [sample_at 1] (Report_init false))
    as [report|] eqn:Hrun; [|by vm_compute in Hrun].
  apply (@stored_samples_are_filed_under_their_triple PyLib_ref
           [sample_at 1] false report "lib.so" "f" "X" (sample_at 1).1 Hrun).
  vm_compute in Hrun. injection Hrun as <-. vm_compute. constructor.
Defined.

Lemma stored_offsets_are_distinct_witness :
  ∃ report,
    @add_sample_results PyLib_ref [sample_at 1; sample_at 1; sample_at 2]
      (Report_init false) = Ok report ∧
    NoDup (anchor_vaddr <$> stored report "lib.so" "f" "X").
Proof.
  destruct (@add_sample_results PyLib_ref [sample_at 1; sample_at 1; sample_at 2]
              (Report_init false)) as [report|] eqn:Hrun;
    [|by vm_compute in Hrun].
  exists report. split; [done|].
  by apply (@stored_offsets_are_distinct PyLib_ref
              [sample_at 1; sample_at 1; sample_at 2] false report
              "lib.so" "f" "X" Hrun).
Defined.

Lemma stored_samples_are_reportable_witness :
  reportable (sample_at 1).1.
Proof.
  destruct (@add_sample_results PyLib_ref [sample_at 1] (Report_init false))
    as [report|] eqn:Hrun; [|by vm_compute in Hrun].
  apply (@stored_samples_are_reportable PyLib_ref
           [sample_at 1] false report "lib.so" "f" "X" (sample_at 1).1 Hrun).
  vm_compute in Hrun. injection Hrun as <-. vm_compute. constructor.
Defined.

Lemma aggregation_has_no_empty_bucket_witness :
  ∃ report,
    @add_sample_results PyLib_ref [sample_at 1; sample_at 2] (Report_init false)
      = Ok report ∧
    no_empty_bucket report.
Proof.
  destruct (@add_sample_results PyLib_ref [sample_at 1; sample_at 2]
              (Report_init false)) as [report|] eqn:Hrun;
    [|by vm_compute in Hrun].
  exists report. split; [done|].
  by apply (@aggregation_has_no_empty_bucket PyLib_ref
              [sample_at 1; sample_at 2] false report Hrun).
Defined.

(** ** Errors of [add_sample_result] *)

(** X15: on a report reached by feeding samples to a new one, recording a sample
    raises KeyError exactly when the sample has no 'used_time', or it is not
    omitted and has no 'stop_reason'; ValueError exactly when [int()]
    rejects its 'used_time'; IndexError exactly when its time is read and
    its call chain is empty; and never the error of [log_fatal].  A sample
    without 'stop_reason' that is omitted raises nothing. *)
Theorem add_sample_result_errors `{PyLib}
    (samples : list (SampleResult * CallChainRecord)) (flag : bool)
    (report : UnwindingResultErrorReport)
    (s : SampleResult) (j : CallChainRecord) :
  add_sample_results samples (Report_init flag) = Ok report →
  (add_sample_result s j report = Raise KeyError ↔
   unwinding_result s !! "used_time" = None ∨
   ((∃ t, timed s t) ∧ should_omit report s j = Ok false ∧
    unwinding_result s !! "stop_reason" = None)) ∧
  (add_sample_result s j report = Raise ValueError ↔
   ∃ ut, unwinding_result s !! "used_time" = Some ut ∧ py_int 10 ut = None) ∧
  (add_sample_result s j report = Raise IndexError ↔
   (∃ t, timed s t) ∧ callchain s = []) ∧
  (∀ k, add_sample_result s j report ≠ Raise (Fatal k)).
Proof.
  intros Hrun.
  pose proof (report_ok_run samples _ _ (report_ok_init flag) Hrun) as Hinv.
  destruct (unwinding_result s !! "used_time") as [ut|] eqn:Hut.
  2:{ assert (Hr : add_sample_result s j report = Raise KeyError).
      { unfold add_sample_result, getitem. by rewrite Hut. }
      rewrite Hr. split; [split; [by left|done]|].
      split; [split; [done|by intros (? & ? & _)]|].
      split; [|done]. split; [done|].
      intros [(t & ut & Hut' & _) _]. congruence. }
  destruct (py_int 10 ut) as [t|] eqn:Hint.
  2:{ assert (Hr : add_sample_result s j report = Raise ValueError).
      { unfold add_sample_result, getitem. rewrite Hut. simpl. by rewrite Hint. }
      rewrite Hr. split.
      { split; [done|]. intros [?|[(t & ut' & Hut' & Ht) _]]; congruence. }
      split; [split; [by exists ut|done]|].
      split; [|done]. split; [done|].
      intros [(t & ut' & Hut' & Ht) _]. congruence. }
  assert (Ht : timed s t) by (by exists ut).
  assert (Hnov : ¬ ∃ ut', Some ut = Some ut' ∧ py_int 10 ut' = None).
  { intros (ut' & [= <-] & ?). congruence. }
  destruct (last (callchain s)) as [node|] eqn:Hnode.
  2:{ assert (Hr : add_sample_result s j report = Raise IndexError).
      { unfold add_sample_result, getitem. rewrite Hut. simpl. rewrite Hint.
        simpl. unfold should_omit, in_memory_code, anchor. by rewrite Hnode. }
      rewrite Hr. apply last_None in Hnode.
      split.
      { split; [done|]. intros [?|(_ & Homit & _)]; [done|].
        unfold should_omit, in_memory_code, anchor in Homit.
        by rewrite Hnode in Homit. }
      split; [split; [done|by intros ?]|].
      split; [|done]. split; [|done]. intros _. split; [eauto|done]. }
  assert (Hne : callchain s ≠ []).
  { intros Hnil. by rewrite Hnil in Hnode. }
  destruct (should_omit_total report s j ltac:(by exists node)) as [omit Homit].
  destruct omit.
  { rewrite (add_sample_result_omitted s j report t Ht Homit).
    split; [split; [done|]; intros [?|(_ & ? & _)]; congruence|].
    split; [split; [done|by intros ?]|].
    split; [|done]. split; [done|]. by intros [_ ?]. }
  destruct (unwinding_result s !! "stop_reason") as [sr|] eqn:Hsr.
  - rewrite (add_sample_result_cases s j report t node sr Ht Homit Hnode Hsr).
    destruct (Hinv (node_filename node) (function_name node) sr) as [_ Hall].
    destruct (duplicates_total _ s Hall ltac:(by exists node)) as [dup ->].
    cbn [bind]. destruct (_ && _).
    + split; [split; [done|]; intros [?|(_ & _ & ?)]; congruence|].
      split; [split; [done|by intros ?]|].
      split; [|done]. split; [done|]. by intros [_ ?].
    + split; [split; [done|]; intros [?|(_ & _ & ?)]; congruence|].
      split; [split; [done|by intros ?]|].
      split; [|done]. split; [done|]. by intros [_ ?].
  - assert (Hr : add_sample_result s j report = Raise KeyError).
    { unfold add_sample_result, getitem. rewrite Hut. simpl. rewrite Hint.
      simpl. rewrite Homit. simpl. unfold anchor at 1. rewrite Hnode. simpl.
      unfold FileResult_add_sample_result, anchor. rewrite Hnode. simpl.
      unfold FunctionResult_add_sample_result, getitem. by rewrite Hsr. }
    rewrite Hr. split; [split; [|done]; intros _; right; eauto|].
    split; [split; [done|by intros ?]|].
    split; [|done]. split; [done|]. by intros [_ ?].
Qed.

Lemma add_sample_result_errors_witness :
  @add_sample_result PyLib_ref
    (mkSampleResult 1 2 {[ "used_time" := "5" ]}
       [mkCallChainNode 16 32 "lib.so" 4 "f" 0 0])
    (sample_at 1).2 (Report_init false) = Raise KeyError.
Proof.
  apply (@add_sample_result_errors PyLib_ref [] false (Report_init false)
           (mkSampleResult 1 2 {[ "used_time" := "5" ]}
              [mkCallChainNode 16 32 "lib.so" 4 "f" 0 0])
           (sample_at 1).2 eq_refl).
  right. split; [exists 5, "5"%string; split; vm_compute; reflexivity|].
  split; vm_compute; reflexivity.
Defined.

(** ** The record parser *)

Lemma parse_ok_inv `{PyLib} lines i chain_type pm i' record :
  parse_callchain_record lines i chain_type pm = Ok (i', record) →
  ∃ l st pid tid,
    lines !! i = Some l ∧ startswith "record callchain:" l = true ∧
    parse_loop chain_type (drop (S i) lines) (S i) ParseState_init
      = Ok (i', st) ∧
    ps_pid st = Some pid ∧ ps_tid st = Some tid ∧
    length (ips st) ≠ 0%nat ∧
    record = mkCallChainRecord (Some pid) (Some tid) (chain_nodes st pm).
Proof.
  intros Hok. pose proof Hok as Hok'.
  unfold parse_callchain_record, log_fatal in Hok.
  destruct (lines !! i) as [l|] eqn:Hl; [|by destruct (_ =? _)%nat].
  destruct (startswith "record callchain:" l) eqn:Hhead; [|done].
  cbn [negb] in Hok.
  destruct (parse_loop chain_type (drop (S i) lines) (S i) ParseState_init)
    as [[i2 st]|e] eqn:Hscan; [|done].
  clear Hok.
  rewrite (parse_after_scan lines i l chain_type pm i2 st Hl Hhead Hscan) in Hok'.
  destruct (bool_decide_reflect (ps_pid st = None)) as [Hp|Hp];
    cbn [orb] in Hok'; [done|].
  destruct (bool_decide_reflect (ps_tid st = None)) as [Ht|Ht];
    cbn [orb] in Hok'; [done|].
  destruct (Nat.eqb_spec (length (ips st)) 0) as [Hn|Hn];
    cbn [orb] in Hok'; [done|].
  destruct (negb _); [done|]. injection Hok' as <- <-.
  destruct (ps_pid st) as [pid|] eqn:Hpid; [|done].
  destruct (ps_tid st) as [tid|] eqn:Htid; [|done].
  exists l, st, pid, tid. rewrite Hpid. done.
Qed.

Lemma parse_loop_index `{PyLib} chain_type ls :
  ∀ i st i' st',
    parse_loop chain_type ls i st = Ok (i', st') →
    (i ≤ i' ≤ i + length ls)%nat ∧
    (∀ n l, (n < i' - i)%nat → ls !! n = Some l →
            startswith "record" l = false) ∧
    (∀ l, ls !! (i' - i)%nat = Some l → startswith "record" l = true).
Proof.
  induction ls as [|l0 rest IH]; intros i st i' st' Hok.
  - simpl in Hok. injection Hok as <- <-. simpl.
    split; [lia|]. split; intros; by rewrite lookup_nil in *.
  - cbn [parse_loop] in Hok. destruct (startswith "record" l0) eqn:Hrec.
    + injection Hok as <- <-. rewrite Nat.sub_diag. simpl.
      split; [lia|]. split; [intros; lia|]. by intros l [= <-].
    + destruct (parse_line chain_type i l0 st) as [st1|] eqn:E;
        cbn [bind] in Hok; [|done].
      destruct (IH _ _ _ _ Hok) as (Hb & Hbefore & Hat). simpl.
      split; [lia|].
      replace (i' - i)%nat with (S (i' - S i)) by lia. split.
      * intros n l Hn Hl. destruct n as [|n]; simpl in Hl.
        -- by injection Hl as <-.
        -- apply (Hbefore n l); [lia|done].
      * intros l Hl. simpl in Hl. by apply Hat.
Qed.

(** X16: a successful [parse_callchain_record] consumes exactly one record: the
    returned index is beyond the header and at most the number of lines, no
    line between the header and the returned index starts with 'record',
    and the line at the returned index, when there is one, does. *)
Theorem parse_consumes_one_record `{PyLib} (lines : list string) (i : nat)
    (chain_type : string) (pm : ProcessMaps) (i' : nat)
    (record : CallChainRecord) :
  parse_callchain_record lines i chain_type pm = Ok (i', record) →
  (i < i' ≤ length lines)%nat ∧
  (∀ k l, (i < k < i')%nat → lines !! k = Some l →
          startswith "record" l = false) ∧
  (∀ l, lines !! i' = Some l → startswith "record" l = true).
Proof.
  intros Hok.
  destruct (parse_ok_inv _ _ _ _ _ _ Hok)
    as (l & st & pid & tid & Hl & _ & Hscan & _).
  destruct (parse_loop_index _ _ _ _ _ _ Hscan) as (Hb & Hbefore & Hat).
  apply lookup_lt_Some in Hl. rewrite length_drop in Hb.
  split; [lia|]. split.
  - intros k lk Hk Hlk. apply (Hbefore (k - S i)%nat lk); [lia|].
    rewrite lookup_drop. by replace (S i + (k - S i))%nat with k by lia.
  - intros li Hli. apply Hat. rewrite lookup_drop.
    by replace (S i + (i' - S i))%nat with i' by lia.
Qed.

Lemma parse_consumes_one_record_witness :
  let lines := ("record callchain:"%string :: drop 1 headless_lines) in
  (0 < 7 ≤ length lines)%nat ∧
  (∀ k l, (0 < k < 7)%nat → lines !! k = Some l →
          startswith "record" l = false) ∧
  (∀ l, lines !! 7%nat = Some l → startswith "record" l = true).
Proof.
  apply (@parse_consumes_one_record PyLib_ref
           ("record callchain:"%string :: drop 1 headless_lines) 0
           "ORIGINAL_OFFLINE" ProcessMaps_init 7
           (mkCallChainRecord (Some 7) (Some 8)
              [mkCallChainNode 16 32512 "lib.so" 4 "f" 0 0])).
  vm_compute. reflexivity.
Defined.

Lemma parse_loop_more `{PyLib} chain_type ls more :
  ∀ i st i' st',
    parse_loop chain_type ls i st = Ok (i', st') →
    (i' - i < length ls)%nat →
    parse_loop chain_type (ls ++ more) i st = Ok (i', st').
Proof.
  induction ls as [|l0 rest IH]; intros i st i' st' Hok Hin;
    [simpl in Hin; lia|].
  cbn [parse_loop app] in *. destruct (startswith "record" l0); [done|].
  destruct (parse_line chain_type i l0 st) as [st1|]; cbn [bind] in *; [|done].
  apply IH; [done|].
  destruct (parse_loop_index _ _ _ _ _ _ Hok) as (Hb & _). simpl in Hin. lia.
Qed.

(** X17: the parser reads only its own record: when it returns an index inside
    the input (the record is followed by another one), lines appended to the
    input do not change the result. *)
Theorem parse_ignores_later_lines `{PyLib} (lines more : list string)
    (i : nat) (chain_type : string) (pm : ProcessMaps) (i' : nat)
    (record : CallChainRecord) :
  parse_callchain_record lines i chain_type pm = Ok (i', record) →
  (i' < length lines)%nat →
  parse_callchain_record (lines ++ more) i chain_type pm = Ok (i', record).
Proof.
  intros Hok Hin.
  destruct (parse_ok_inv _ _ _ _ _ _ Hok)
    as (l & st & pid & tid & Hl & Hhead & Hscan & Hp & Ht & Hn & ->).
  pose proof (lookup_lt_Some _ _ _ Hl) as Hi.
  destruct (parse_loop_index _ _ _ _ _ _ Hscan) as (Hb & _).
  assert (Hl' : (lines ++ more) !! i = Some l) by (by apply lookup_app_l_Some).
  assert (Hscan' : parse_loop chain_type (drop (S i) (lines ++ more)) (S i)
                     ParseState_init = Ok (i', st)).
  { rewrite drop_app_le by lia. apply parse_loop_more; [done|].
    rewrite length_drop. lia. }
  rewrite (parse_after_scan _ i l chain_type pm i' st Hl' Hhead Hscan').
  rewrite (parse_after_scan _ i l chain_type pm i' st Hl Hhead Hscan) in Hok.
  exact Hok.
Qed.

Lemma parse_ignores_later_lines_witness :
  @parse_callchain_record PyLib_ref
    (("record callchain:"%string :: drop 1 headless_lines ++ ["record x"%string])
     ++ ["  pid 9"%string]) 0 "ORIGINAL_OFFLINE" ProcessMaps_init
  = Ok (7%nat, mkCallChainRecord (Some 7) (Some 8)
                 [mkCallChainNode 16 32512 "lib.so" 4 "f" 0 0]).
Proof.
  apply (@parse_ignores_later_lines PyLib_ref).
  - vm_compute. reflexivity.
  - vm_compute. lia.
Defined.

Lemma map_bounds_right lo pm pid addr :
  chain lo (ranges pm pid) →
  match find_range pid addr pm with
  | Some r => map_bounds (Some pid) pm addr = (start r, end_ r) ∧
              r ∈ ranges pm pid ∧ start r ≤ addr < end_ r
  | None => map_bounds (Some pid) pm addr = (0, 0) ∧
            ∀ r, r ∈ ranges pm pid → ¬ (start r ≤ addr < end_ r)
  end.
Proof.
  intros Hch. pose proof (find_in_spec lo _ addr Hch) as Hspec.
  rewrite <- find_range_values in Hspec.
  unfold map_bounds, find_record. unfold find_range in *.
  destruct (find pid addr pm) as [r|]; simpl in *; [|done].
  by destruct Hspec.
Qed.

(** X18: in a registry built from mmap records (with [start <= end]) and fork
    records, every node of a parsed record carries the right map bounds for
    the record's pid: the bounds of the stored range that covers its ip, or
    zero and zero when no stored range covers it. *)
Theorem parsed_nodes_have_right_bounds `{PyLib} (evs : list MapEvent)
    (lines : list string) (i : nat) (chain_type : string) (i' : nat)
    (record : CallChainRecord) :
  Forall event_ok evs →
  let pm := apply_events evs ProcessMaps_init in
  parse_callchain_record lines i chain_type pm = Ok (i', record) →
  ∃ pid, rec_pid record = Some pid ∧
         Forall (bounds_right pm pid) (rec_callchain record).
Proof.
  intros Hok pm Hparse.
  destruct (parse_ok_inv _ _ _ _ _ _ Hparse)
    as (l & st & pid & tid & _ & _ & _ & Hp & _ & _ & ->).
  exists pid. split; [done|]. simpl. unfold chain_nodes.
  apply Forall_fmap, Forall_forall. intros k _. simpl. rewrite Hp.
  destruct (reachable_ordered evs pid Hok) as [lo Hch]. fold pm in Hch.
  pose proof (map_bounds_right lo pm pid (ips st !!! k) Hch) as Hb.
  unfold bounds_right. simpl.
  destruct (find_range pid (ips st !!! k) pm) as [r|].
  - destruct Hb as (-> & Hin & Hcov). right. exists r. simpl. done.
  - destruct Hb as (-> & Hno). left. done.
Qed.

Lemma parsed_nodes_have_right_bounds_witness :
  Forall (bounds_right (apply_events [Mmap 7 0 32 "lib.so"] ProcessMaps_init) 7)
         [mkCallChainNode 16 32512 "lib.so" 4 "f" 0 32].
Proof.
  destruct (@parsed_nodes_have_right_bounds PyLib_ref [Mmap 7 0 32 "lib.so"]
              ("record callchain:"%string :: drop 1 headless_lines) 0
              "ORIGINAL_OFFLINE" 7
              (mkCallChainRecord (Some 7) (Some 8)
                 [mkCallChainNode 16 32512 "lib.so" 4 "f" 0 32]))
    as (pid & Hpid & Hall).
  - repeat constructor. simpl. lia.
  - vm_compute. reflexivity.
  - simpl in Hpid. injection Hpid as <-. exact Hall.
Defined.

Lemma parse_line_errors `{PyLib} chain_type i l st e :
  parse_line chain_type i l st = Raise e →
  e = ValueError ∨ e = Fatal i.
Proof.
  unfold parse_line, log_fatal.
  destruct (split (strip l)) as [|item0 rest] eqn:Hitems; [done|].
  destruct (String.eqb item0 "pid" && (length (item0 :: rest) =? 2)%nat).
  { destruct (py_int 10 _); simpl; [done|]. intros [= <-]. by left. }
  destruct (String.eqb item0 "tid" && (length (item0 :: rest) =? 2)%nat).
  { destruct (py_int 10 _); simpl; [done|]. intros [= <-]. by left. }
  destruct (String.eqb item0 "chain_type" && (length (item0 :: rest) =? 2)%nat).
  { destruct (negb _); [|done]. intros [= <-]. by right. }
  destruct (String.eqb item0 "ip").
  { destruct (re_search_ip _) as [[g1 g2]|]; [|done].
    destruct (py_int 16 g1); simpl; [|intros [= <-]; by left].
    destruct (py_int 16 g2); simpl; [done|]. intros [= <-]. by left. }
  destruct (String.eqb item0 "callchain:"); [done|].
  destruct (in_callchain st); [|done].
  destruct (0 <? _); [|done].
  destruct (re_match_frame _) as [[g1 g2]|]; [|done].
  destruct (py_int 16 g2); simpl; [done|]. intros [= <-]. by left.
Qed.

Lemma parse_loop_errors `{PyLib} chain_type ls :
  ∀ i st e, parse_loop chain_type ls i st = Raise e →
            e = ValueError ∨ ∃ k, e = Fatal k.
Proof.
  induction ls as [|l0 rest IH]; intros i st e Hr; [done|].
  cbn [parse_loop] in Hr. destruct (startswith "record" l0); [done|].
  destruct (parse_line chain_type i l0 st) as [st1|e1] eqn:E; cbn [bind] in Hr.
  - by eapply IH.
  - injection Hr as <-. apply parse_line_errors in E as [?|?]; eauto.
Qed.

(** X19: [parse_callchain_record] raises IndexError exactly when it is called
    with an index beyond the end of the input, and it never raises
    KeyError: besides returning, it ends with [log_fatal] or with the
    ValueError of a failed [int()]. *)
Theorem parse_callchain_record_errors `{PyLib} (lines : list string)
    (i : nat) (chain_type : string) (pm : ProcessMaps) :
  (parse_callchain_record lines i chain_type pm = Raise IndexError ↔
   (length lines < i)%nat) ∧
  parse_callchain_record lines i chain_type pm ≠ Raise KeyError ∧
  ((i ≤ length lines)%nat →
   (∃ i' record, parse_callchain_record lines i chain_type pm
                 = Ok (i', record)) ∨
   parse_callchain_record lines i chain_type pm = Raise ValueError ∨
   is_fatal (parse_callchain_record lines i chain_type pm)).
Proof.
  unfold parse_callchain_record, log_fatal.
  destruct (lines !! i) as [l|] eqn:Hl.
  - apply lookup_lt_Some in Hl.
    destruct (startswith "record callchain:" l); cbn [negb].
    2:{ split; [split; [done|lia]|]. split; [done|].
        intros _. right. right. by exists i. }
    destruct (parse_loop chain_type (drop (S i) lines) (S i) ParseState_init)
      as [[i2 st]|e] eqn:Hscan; cbn [bind fst snd].
    + destruct (_ || _).
      * split; [split; [done|lia]|]. split; [done|].
        intros _. right. right. by exists i2.
      * split; [split; [done|lia]|]. split; [done|]. intros _. left. eauto.
    + destruct (parse_loop_errors _ _ _ _ _ Hscan) as [->|[k ->]].
      * split; [split; [done|lia]|]. split; [done|]. intros _. right. by left.
      * split; [split; [done|lia]|]. split; [done|].
        intros _. right. right. by exists k.
  - apply lookup_ge_None in Hl.
    destruct (Nat.eqb_spec i (length lines)).
    + split; [split; [done|lia]|]. split; [done|].
      intros _. right. right. by exists i.
    + split; [split; [lia|done]|]. split; [done|]. lia.
Qed.

Lemma parse_callchain_record_errors_witness :
  (∃ i' record,
     @parse_callchain_record PyLib_ref headless_lines 7 "ORIGINAL_OFFLINE"
       ProcessMaps_init = Ok (i', record)) ∨
  @parse_callchain_record PyLib_ref headless_lines 7 "ORIGINAL_OFFLINE"
    ProcessMaps_init = Raise ValueError ∨
  is_fatal (@parse_callchain_record PyLib_ref headless_lines 7
              "ORIGINAL_OFFLINE" ProcessMaps_init).
Proof.
  apply (@parse_callchain_record_errors PyLib_ref headless_lines 7
           "ORIGINAL_OFFLINE" ProcessMaps_init).
  vm_compute. lia.
Defined.

Example build_eval :
  match @build_report PyLib_ref DumpLib_ref sample_dump false with
  | Some (Ok r) =>
    Some (report_process_maps r, unwinding_times r,
          stored r "/system/lib/libfoo.so" "foo" "ACCESS_REG_FAILED")
  | _ => None
  end
  = Some (apply_events [Mmap 7 4096 12288 "/system/lib/libfoo.so"; Fork 8 7]
          ProcessMaps_init,
        mkUnwindingTimes 678 1 678,
        [mkSampleResult 8 9
           {[ "time" := "12345"; "used_time" := "678";
              "stop_reason" := "ACCESS_REG_FAILED" ]}%string
           [mkCallChainNode 4112 32512 "/system/lib/libfoo.so" 16 "foo"
              4096 12288]]).
Proof. vm_compute. reflexivity. Qed.

(** ** The loop over the dump *)

Lemma prefix_inv (a l : string) :
  String.prefix a l = true → ∃ rest, l = a +:+ rest.
Proof.
  revert l. induction a as [|c a IH]; intros l Hp; [by exists l|].
  destruct l as [|d l]; [done|]. simpl in Hp.
  destruct (ascii_dec c d) as [->|]; [|done].
  destruct (IH l Hp) as [rest ->]. by exists rest.
Qed.

Lemma header_is_record l :
  is_unwinding_header l = true → startswith "record" l = true.
Proof. intros [rest ->]%prefix_inv. reflexivity. Qed.

Lemma mmap_is_not_header l :
  startswith "record mmap:" l = true → is_unwinding_header l = false.
Proof. intros [rest ->]%prefix_inv. reflexivity. Qed.

Lemma callchain_is_not_header l :
  startswith "record callchain:" l = true → is_unwinding_header l = false.
Proof. intros [rest ->]%prefix_inv. reflexivity. Qed.

Lemma not_record_not_header l :
  startswith "record" l = false → is_unwinding_header l = false.
Proof.
  intros Hr. destruct (is_unwinding_header l) eqn:E; [|done].
  apply header_is_record in E. congruence.
Qed.

Lemma record_body_index {St} (body : string → St → result St) ls :
  ∀ i st i' st',
    record_body body ls i st = Ok (i', st') →
    (i ≤ i' ≤ i + length ls)%nat ∧
    (∀ n l, (n < i' - i)%nat → ls !! n = Some l →
            startswith "record" l = false).
Proof.
  induction ls as [|l0 rest IH]; intros i st i' st' Hok.
  - simpl in Hok. injection Hok as <- <-. simpl.
    split; [lia|]. intros; by rewrite lookup_nil in *.
  - cbn [record_body] in Hok. destruct (startswith "record" l0) eqn:Hrec.
    + injection Hok as <- <-. rewrite Nat.sub_diag. simpl.
      split; [lia|]. intros; lia.
    + destruct (body l0 st) as [st1|] eqn:E; cbn [bind] in Hok; [|done].
      destruct (IH _ _ _ _ Hok) as (Hb & Hbefore). simpl.
      split; [lia|]. intros n l Hn Hl. destruct n as [|n]; simpl in Hl.
      * by injection Hl as <-.
      * apply (Hbefore n l); [lia|done].
Qed.

Lemma record_body_keeps {St} (body : string → St → result St)
    (P : St → Prop) ls :
  (∀ l st st', body l st = Ok st' → P st → P st') →
  ∀ i st i' st', record_body body ls i st = Ok (i', st') → P st → P st'.
Proof.
  intros Hbody. induction ls as [|l0 rest IH]; intros i st i' st' Hok HP.
  - simpl in Hok. by injection Hok as _ <-.
  - cbn [record_body] in Hok. destruct (startswith "record" l0).
    + by injection Hok as _ <-.
    + destruct (body l0 st) as [st1|] eqn:E; cbn [bind] in Hok; [|done].
      eapply IH; [exact Hok|]. by eapply Hbody.
Qed.

Lemma record_body_errors {St} (body : string → St → result St) ls :
  (∀ l st e, body l st = Raise e → e = ValueError) →
  ∀ i st e, record_body body ls i st = Raise e → e = ValueError.
Proof.
  intros Hbody. induction ls as [|l0 rest IH]; intros i st e Hr; [done|].
  cbn [record_body] in Hr. destruct (startswith "record" l0); [done|].
  destruct (body l0 st) as [st1|e1] eqn:E; cbn [bind] in Hr.
  - by eapply IH.
  - injection Hr as <-. by eapply Hbody.
Qed.

Lemma headers_skip (lines : list string) n :
  ∀ a, (∀ k l, (a ≤ k < a + n)%nat → lines !! k = Some l →
               is_unwinding_header l = false) →
       unwinding_headers (drop a lines)
       = unwinding_headers (drop (a + n) lines).
Proof.
  induction n as [|n IH]; intros a Hno; [by rewrite Nat.add_0_r|].
  destruct (lines !! a) as [l|] eqn:Hl.
  - rewrite (drop_S _ _ _ Hl). unfold unwinding_headers. cbn [List.filter].
    rewrite (Hno a l) by (done || lia).
    replace (a + S n)%nat with (S a + n)%nat by lia.
    apply (IH (S a)). intros k lk Hk. apply Hno. lia.
  - apply lookup_ge_None in Hl. by rewrite !drop_ge by lia.
Qed.

Lemma headers_here (lines : list string) i l :
  lines !! i = Some l →
  unwinding_headers (drop i lines)
  = ((if is_unwinding_header l then 1 else 0)
     + unwinding_headers (drop (S i) lines))%nat.
Proof.
  intros Hl. rewrite (drop_S _ _ _ Hl). unfold unwinding_headers.
  cbn [List.filter]. by destruct (is_unwinding_header l).
Qed.

Lemma record_body_no_header {St} (body : string → St → result St)
    (lines : list string) i st i' st' :
  record_body body (drop i lines) i st = Ok (i', st') →
  (i ≤ length lines)%nat →
  (i ≤ i' ≤ length lines)%nat ∧
  ∀ k l, (i ≤ k < i')%nat → lines !! k = Some l →
         is_unwinding_header l = false.
Proof.
  intros Hok Hi.
  destruct (record_body_index _ _ _ _ _ _ Hok) as (Hb & Hbefore).
  rewrite length_drop in Hb. split; [lia|].
  intros k l Hk Hl. apply not_record_not_header.
  apply (Hbefore (k - i)%nat l); [lia|].
  rewrite lookup_drop. by replace (i + (k - i))%nat with k by lia.
Qed.

Lemma chain_nodes_anchored st pm :
  length (ips st) ≠ 0%nat → is_Some (last (chain_nodes st pm)).
Proof.
  intros Hn. unfold chain_nodes. rewrite fmap_last.
  destruct (length (ips st)) as [|n]; [done|].
  rewrite seq_S, last_snoc. by eexists.
Qed.

Lemma parse_no_header `{PyLib} lines i chain_type pm i' record :
  parse_callchain_record lines i chain_type pm = Ok (i', record) →
  (i < i' ≤ length lines)%nat ∧
  (∀ k l, (i ≤ k < i')%nat → lines !! k = Some l →
          is_unwinding_header l = false) ∧
  is_Some (last (rec_callchain record)).
Proof.
  intros Hok.
  destruct (parse_ok_inv _ _ _ _ _ _ Hok)
    as (l & st & pid & tid & Hl & Hhead & Hscan & _ & _ & Hn & ->).
  destruct (parse_loop_index _ _ _ _ _ _ Hscan) as (Hb & Hbefore & _).
  pose proof (lookup_lt_Some _ _ _ Hl) as Hi. rewrite length_drop in Hb.
  split; [lia|]. split; [|by apply chain_nodes_anchored].
  intros k lk Hk Hlk. destruct (decide (k = i)) as [->|Hne].
  - rewrite Hl in Hlk. injection Hlk as <-. by apply callchain_is_not_header.
  - apply not_record_not_header. apply (Hbefore (k - S i)%nat lk); [lia|].
    rewrite lookup_drop. by replace (S i + (k - S i))%nat with k by lia.
Qed.

Lemma parse_errors `{PyLib} lines i chain_type pm e :
  parse_callchain_record lines i chain_type pm = Raise e →
  (i ≤ length lines)%nat →
  e = ValueError ∨ ∃ k, e = Fatal k.
Proof.
  unfold parse_callchain_record, log_fatal. intros Hr Hi.
  destruct (lines !! i) as [l|] eqn:Hl.
  - destruct (startswith "record callchain:" l); cbn [negb] in Hr.
    2:{ injection Hr as <-. eauto. }
    destruct (parse_loop chain_type (drop (S i) lines) (S i) ParseState_init)
      as [[i2 st]|e1] eqn:Hscan; cbn [bind fst snd] in Hr.
    + destruct (_ || _); [|done]. injection Hr as <-. eauto.
    + injection Hr as <-. by eapply parse_loop_errors.
  - apply lookup_ge_None in Hl.
    destruct (Nat.eqb_spec i (length lines)); [|lia].
    injection Hr as <-. eauto.
Qed.

Lemma check_keys_ok {A} keys d i (k : result A) x :
  check_keys keys d i k = Ok x →
  k = Ok x ∧ Forall (λ key, is_Some (d !! key)) keys.
Proof.
  induction keys as [|key rest IH]; simpl; [done|].
  destruct (d !! key) eqn:E; [|done].
  intros [-> Hall]%IH. split; [done|]. constructor; [by rewrite E|done].
Qed.

Lemma check_keys_cases {A} keys d i (k : result A) :
  (Forall (λ key, is_Some (d !! key)) keys ∧ check_keys keys d i k = k) ∨
  check_keys keys d i k = Raise (Fatal i).
Proof.
  induction keys as [|key rest IH]; simpl; [by left|].
  destruct (d !! key) eqn:E; [|by right].
  destruct IH as [[Hall ->]| ->]; [|by right].
  left. split; [|done]. constructor; [by rewrite E|done].
Qed.

Lemma add_sample_result_with_process_maps `{PyLib} s j pm r :
  add_sample_result s j (with_process_maps pm r)
  = match add_sample_result s j r with
    | Ok r' => Ok (with_process_maps pm r')
    | Raise e => Raise e
    end.
Proof.
  unfold add_sample_result.
  destruct (getitem "used_time" (unwinding_result s)); cbn [bind]; [|done].
  destruct (of_option ValueError _); cbn [bind]; [|done].
  change (should_omit (with_process_maps pm r) s j) with (should_omit r s j).
  destruct (should_omit r s j) as [[|]|]; cbn [bind]; [done| |done].
  destruct (anchor (callchain s)); cbn [bind]; [|done].
  cbn [with_process_maps file_results].
  by destruct (FileResult_add_sample_result _ _).
Qed.

Lemma add_sample_results_snoc `{PyLib} samples s j :
  ∀ self,
    add_sample_results (samples ++ [(s, j)]) self
    = let* r := add_sample_results samples self in add_sample_result s j r.
Proof.
  induction samples as [|[s0 j0] rest IH]; intros self.
  - simpl. by destruct (add_sample_result s j self).
  - cbn [app]. rewrite !add_sample_results_cons.
    destruct (add_sample_result s0 j0 self); cbn [bind]; [apply IH|done].
Qed.

Lemma report_ok_with_process_maps pm r :
  report_ok r → report_ok (with_process_maps pm r).
Proof. intros Hinv a b c. apply (Hinv a b c). Qed.

Lemma add_sample_result_only_value_error `{PyLib} s j self e :
  report_ok self →
  is_Some (unwinding_result s !! "used_time") →
  is_Some (unwinding_result s !! "stop_reason") →
  anchored s →
  add_sample_result s j self = Raise e → e = ValueError.
Proof.
  intros Hinv [ut Hut] Hsr Hanch Hr.
  destruct (py_int 10 ut) as [t|] eqn:Hint.
  - destruct (add_sample_result_total s j self Hinv) as [self' Hok];
      [|congruence].
    split; [by exists t, ut|done].
  - unfold add_sample_result, getitem in Hr. rewrite Hut in Hr.
    cbn [of_option bind] in Hr. rewrite Hint in Hr. simpl in Hr. congruence.
Qed.

Lemma mmap_line_errors `{PyLib} `{DumpLib} l st e :
  mmap_line l st = Raise e → e = ValueError.
Proof.
  unfold mmap_line. destruct (startswith "  pid" l).
  - destruct (re_search_mmap l) as [[[g1 g2] g3]|]; [|done].
    destruct (py_int 10 g1); cbn; [|congruence].
    destruct (py_int 16 g2); cbn; [|congruence].
    destruct (py_int 16 g3); cbn; congruence.
  - by destruct (startswith "  pgoff" l).
Qed.

Lemma fork_line_errors `{PyLib} `{DumpLib} l st e :
  fork_line l st = Raise e → e = ValueError.
Proof.
  unfold fork_line. destruct (startswith "  pid" l); [|done].
  destruct (re_search_fork l) as [[g1 g2]|]; [|done].
  destruct (py_int 10 g1); cbn; [|congruence].
  destruct (py_int 10 g2); cbn; congruence.
Qed.

Lemma result_line_errors l st e : result_line l st = Raise e → e = ValueError.
Proof. unfold result_line. by destruct (_ =? _)%nat. Qed.

Lemma mmap_line_keeps `{PyLib} `{DumpLib} l st st' :
  lengths_nonneg →
  mmap_line l st = Ok st' →
  (∀ s e, mm_start st = Some s → mm_end st = Some e → s ≤ e) →
  ∀ s e, mm_start st' = Some s → mm_end st' = Some e → s ≤ e.
Proof.
  intros Hlen. unfold mmap_line. destruct (startswith "  pid" l).
  - destruct (re_search_mmap l) as [[[g1 g2] g3]|] eqn:Hm;
      [|by intros [= <-]].
    destruct (py_int 10 g1); cbn; [|done].
    destruct (py_int 16 g2); cbn; [|done].
    destruct (py_int 16 g3) as [v|] eqn:Hv; cbn; [|done].
    intros [= <-] _ s e [= <-] [= <-]. pose proof (Hlen _ _ _ _ _ Hm Hv). lia.
  - destruct (startswith "  pgoff" l); by intros [= <-].
Qed.

(** One turn of the loop: the index moves forward and stays within the
    dump, and the turn is an event on the registry, a skipped line, or one
    sample that is fed to the report. *)
Lemma build_step_spec `{PyLib} `{DumpLib} lines i report i' report' :
  build_step lines i report = Ok (i', report') →
  (i < i' ≤ length lines)%nat ∧
  ((∃ ev,
      report' = with_process_maps
                  (apply_event ev (report_process_maps report)) report ∧
      (lengths_nonneg → event_ok ev) ∧
      unwinding_headers (drop i lines) = unwinding_headers (drop i' lines)) ∨
   (report' = report ∧
    unwinding_headers (drop i lines) = unwinding_headers (drop i' lines)) ∨
   (∃ s j,
      add_sample_result s j report = Ok report' ∧
      anchored s ∧ is_Some (unwinding_result s !! "stop_reason") ∧
      unwinding_headers (drop i lines)
      = S (unwinding_headers (drop i' lines)))).
Proof.
  unfold build_step. intros Hok.
  destruct (lines !! i) as [l|] eqn:Hl; [|done].
  pose proof (lookup_lt_Some _ _ _ Hl) as Hi.
  destruct (startswith "record mmap:" l) eqn:Hmmap.
  { destruct (record_body mmap_line (drop (S i) lines) (S i)
                (mkMmapState None None None None)) as [[i1 st]|] eqn:Hrb;
      cbn [bind fst snd] in Hok; [|done].
    destruct (record_body_no_header _ _ _ _ _ _ Hrb ltac:(lia)) as (Hb & Hno).
    destruct (mm_pid st) as [pid|]; [|done].
    destruct (mm_start st) as [s|] eqn:Hs; [|done].
    destruct (mm_end st) as [e|] eqn:He; [|done].
    destruct (mm_filename st) as [f|]; [|done].
    injection Hok as <- <-. split; [lia|]. left. exists (Mmap pid s e f).
    split; [done|]. split.
    - intros Hlen. simpl.
      refine (record_body_keeps mmap_line
                (λ st, ∀ s e, mm_start st = Some s → mm_end st = Some e → s ≤ e)
                _ (λ l st st', mmap_line_keeps l st st' Hlen) _ _ _ _ Hrb
                _ s e Hs He).
      done.
    - rewrite (headers_here _ _ _ Hl), (mmap_is_not_header _ Hmmap).
      replace (drop i1 lines) with (drop (S i + (i1 - S i)) lines)
      by (f_equal; lia).
      apply headers_skip. intros k lk Hk. apply Hno. lia. }
  destruct (startswith "record unwinding_result:" l) eqn:Hhead.
  { destruct (record_body result_line (drop (S i) lines) (S i) ∅)
      as [[i1 d]|] eqn:Hrb; cbn [bind fst snd] in Hok; [|done].
    destruct (record_body_no_header _ _ _ _ _ _ Hrb ltac:(lia)) as (Hb & Hno).
    apply check_keys_ok in Hok as [Hok Hkeys].
    destruct (parse_callchain_record lines i1 "ORIGINAL_OFFLINE"
                (report_process_maps report)) as [[i2 original]|] eqn:Hp1;
      cbn [bind fst snd] in Hok; [|done].
    destruct (parse_callchain_record lines i2 "JOINED_OFFLINE"
                (report_process_maps report)) as [[i3 joined]|] eqn:Hp2;
      cbn [bind fst snd] in Hok; [|done].
    destruct (parse_no_header _ _ _ _ _ _ Hp1) as (Hb1 & Hno1 & Hanch).
    destruct (parse_no_header _ _ _ _ _ _ Hp2) as (Hb2 & Hno2 & _).
    match type of Hok with
    | context [add_sample_result ?s ?j report] =>
      destruct (add_sample_result s j report) as [report1|] eqn:Hadd;
        cbn [bind] in Hok; [|done]; injection Hok as <- <-;
        split; [lia|]; right; right; exists s, j
    end.
    split; [done|]. split; [done|]. split.
    - apply Forall_cons in Hkeys as [_ Hkeys].
      apply Forall_cons in Hkeys as [_ Hkeys].
      by apply Forall_cons in Hkeys as [Hkeys _].
    - rewrite (headers_here _ _ _ Hl).
      change (is_unwinding_header l) with (startswith "record unwinding_result:" l).
      rewrite Hhead. cbn [Nat.add]. f_equal.
      replace (drop i3 lines) with (drop (S i + (i3 - S i)) lines)
        by (f_equal; lia).
      apply headers_skip. intros k lk Hk Hlk.
      destruct (decide (k < i1)%nat); [apply (Hno k lk); [lia|done]|].
      destruct (decide (k < i2)%nat); [apply (Hno1 k lk); [lia|done]|].
      apply (Hno2 k lk); [lia|done]. }
  destruct (startswith "record fork:" l) eqn:Hfork.
  { destruct (record_body fork_line (drop (S i) lines) (S i) (None, None))
      as [[i1 [pid ppid]]|] eqn:Hrb; cbn [bind fst snd] in Hok; [|done].
    destruct (record_body_no_header _ _ _ _ _ _ Hrb ltac:(lia)) as (Hb & Hno).
    destruct pid as [pid|]; [|done]. destruct ppid as [ppid|]; [|done].
    injection Hok as <- <-. split; [lia|]. left. exists (Fork pid ppid).
    split; [done|]. split; [done|].
    rewrite (headers_here _ _ _ Hl).
    change (is_unwinding_header l) with (startswith "record unwinding_result:" l).
    rewrite Hhead. cbn [Nat.add].
    replace (drop i1 lines) with (drop (S i + (i1 - S i)) lines)
      by (f_equal; lia).
    apply headers_skip. intros k lk Hk. apply Hno. lia. }
  injection Hok as <- <-. split; [lia|]. right. left. split; [done|].
  rewrite (headers_here _ _ _ Hl).
  change (is_unwinding_header l) with (startswith "record unwinding_result:" l).
  by rewrite Hhead.
Qed.

(** What one turn of the loop can raise, on a report whose stored samples
    have call chains. *)
Lemma build_step_errors `{PyLib} `{DumpLib} lines i report e :
  (i < length lines)%nat → report_ok report →
  build_step lines i report = Raise e →
  e = ValueError ∨ ∃ k, e = Fatal k.
Proof.
  unfold build_step. intros Hi Hinv Hr.
  destruct (lines !! i) as [l|] eqn:Hl;
    [|apply lookup_ge_None in Hl; lia].
  destruct (startswith "record mmap:" l).
  { destruct (record_body mmap_line (drop (S i) lines) (S i)
                (mkMmapState None None None None)) as [[i1 st]|e1] eqn:Hrb;
      cbn [bind fst snd] in Hr.
    - right. exists i1. unfold log_fatal in Hr.
      destruct (mm_pid st), (mm_start st), (mm_end st), (mm_filename st);
        congruence.
    - injection Hr as <-. left.
      eapply record_body_errors; [|exact Hrb].
      intros ???. apply mmap_line_errors. }
  destruct (startswith "record unwinding_result:" l).
  { destruct (record_body result_line (drop (S i) lines) (S i) ∅)
      as [[i1 d]|e1] eqn:Hrb; cbn [bind fst snd] in Hr.
    2:{ injection Hr as <-. left.
        eapply record_body_errors; [|exact Hrb].
        intros ???. apply result_line_errors. }
    destruct (record_body_no_header _ _ _ _ _ _ Hrb ltac:(lia)) as (Hb & _).
    match type of Hr with
    | check_keys ?keys d i1 ?k = _ =>
      destruct (check_keys_cases keys d i1 k) as [[Hkeys Heq]|Heq];
        rewrite Heq in Hr; clear Heq
    end.
    2:{ injection Hr as <-. eauto. }
    apply Forall_cons in Hkeys as [_ Hkeys].
    apply Forall_cons in Hkeys as [Hut Hkeys].
    apply Forall_cons in Hkeys as [Hsr _].
    destruct (parse_callchain_record lines i1 "ORIGINAL_OFFLINE"
                (report_process_maps report)) as [[i2 original]|e1] eqn:Hp1;
      cbn [bind fst snd] in Hr.
    2:{ injection Hr as <-. eapply parse_errors; [exact Hp1|lia]. }
    destruct (parse_no_header _ _ _ _ _ _ Hp1) as (Hb1 & _ & Hanch).
    destruct (parse_callchain_record lines i2 "JOINED_OFFLINE"
                (report_process_maps report)) as [[i3 joined]|e1] eqn:Hp2;
      cbn [bind fst snd] in Hr.
    2:{ injection Hr as <-. eapply parse_errors; [exact Hp2|lia]. }
    match type of Hr with
    | context [add_sample_result ?s ?j report] =>
      destruct (add_sample_result s j report) as [report1|e1] eqn:Hadd;
        cbn [bind] in Hr; [done|]; injection Hr as <-; left;
        by apply (add_sample_result_only_value_error s j report e1)
    end. }
  destruct (startswith "record fork:" l); [|done].
  destruct (record_body fork_line (drop (S i) lines) (S i) (None, None))
    as [[i1 [pid ppid]]|e1] eqn:Hrb; cbn [bind fst snd] in Hr.
  - right. exists i1. unfold log_fatal in Hr.
    destruct pid, ppid; congruence.
  - injection Hr as <-. left.
    eapply record_body_errors; [|exact Hrb].
    intros ???. apply fork_line_errors.
Qed.

Lemma built_from_ok `{PyLib} flag evs samples report :
  built_from flag evs samples report → report_ok report.
Proof.
  intros (r & Hrun & ->). apply report_ok_with_process_maps.
  by apply (report_ok_run samples _ _ (report_ok_init flag) Hrun).
Qed.

(** The loop invariant: the report is built from the events and the samples
    of the lines read so far, one sample for each [record unwinding_result]
    line. *)
Lemma build_loop_spec `{PyLib} `{DumpLib} lines flag fuel :
  ∀ i report evs samples,
    (length lines - i ≤ fuel)%nat →
    built_from flag evs samples report →
    (lengths_nonneg → Forall event_ok evs) →
    Forall (λ sj, well_formed_sample sj.1) samples →
    (length samples + unwinding_headers (drop i lines))%nat
    = unwinding_headers lines →
    ∃ res, build_loop fuel lines i report = Some res ∧
      match res with
      | Ok report' =>
        ∃ evs' samples',
          built_from flag evs' samples' report' ∧
          (lengths_nonneg → Forall event_ok evs') ∧
          Forall (λ sj, well_formed_sample sj.1) samples' ∧
          length samples' = unwinding_headers lines
      | Raise e => e = ValueError ∨ ∃ k, e = Fatal k
      end.
Proof.
  induction fuel as [|fuel IH]; intros i report evs samples Hfuel Hb Hev Hwf Hn.
  - exists (Ok report). cbn [build_loop].
    destruct (Nat.ltb_spec i (length lines)); [lia|]. split; [done|].
    exists evs, samples. rewrite drop_ge in Hn by lia.
    unfold unwinding_headers at 1 in Hn. simpl in Hn.
    split; [done|]. split; [done|]. split; [done|]. lia.
  - cbn [build_loop]. destruct (Nat.ltb_spec i (length lines)) as [Hi|Hi].
    2:{ exists (Ok report). split; [done|].
        exists evs, samples. rewrite drop_ge in Hn by lia.
        unfold unwinding_headers at 1 in Hn. simpl in Hn.
        split; [done|]. split; [done|]. split; [done|]. lia. }
    destruct (build_step lines i report) as [[i' report']|e] eqn:Hstep.
    2:{ exists (Raise e). split; [done|].
        eapply build_step_errors; [exact Hi| |exact Hstep].
        by eapply built_from_ok. }
    cbn [fst snd].
    destruct (build_step_spec _ _ _ _ _ Hstep)
      as (Hi' & [(ev & -> & Hok & Hh)|[(-> & Hh)|(s & j & Hadd & Ha & Hsr & Hh)]]).
    + apply (IH i' _ (evs ++ [ev]) samples); [lia| | |done|lia].
      * destruct Hb as (r & Hrun & ->). exists r. split; [done|].
        by rewrite apply_events_snoc.
      * intros Hlen. apply Forall_app. split; [by apply Hev|].
        constructor; [by apply Hok|done].
    + apply (IH i' _ evs samples); [lia|done..|lia].
    + apply (IH i' _ evs (samples ++ [(s, j)])); [lia| |done| |].
      * destruct Hb as (r & Hrun & ->).
        rewrite add_sample_result_with_process_maps in Hadd.
        destruct (add_sample_result s j r) as [r'|] eqn:Hr; [|done].
        injection Hadd as <-. exists r'. split; [|done].
        rewrite add_sample_results_snoc, Hrun. done.
      * apply Forall_app. split; [done|]. constructor; [|done].
        destruct (add_sample_result_step _ _ _ _ Hadd) as (_ & (t & Ht & _) & _).
        split; [by exists t|]. done.
      * rewrite length_app. simpl. lia.
Qed.

(** X20: the [while] loop of [build_unwinding_result_report] ends: every turn
    moves the index forward, so it takes at most as many turns as the dump
    has lines, and it ends with a report or with an error. *)
Theorem build_report_ends `{PyLib} `{DumpLib} (lines : list string)
    (flag : bool) :
  is_Some (build_report lines flag).
Proof.
  destruct (build_loop_spec lines flag (length lines) 0 (Report_init flag)
              [] []) as (res & Hres & _).
  - lia.
  - by exists (Report_init flag).
  - by intros _.
  - done.
  - by rewrite drop_0.
  - by exists res.
Qed.

(** X21: the only errors of the loop are the ValueError of a failed [int()] and
    the error of [log_fatal]: it never raises KeyError or IndexError, since
    it checks the keys of the unwinding result before the sample is fed, the
    parser makes no empty call chain, and no record is read past the end of
    the dump. *)
Theorem build_report_errors `{PyLib} `{DumpLib} (lines : list string)
    (flag : bool) (e : exn) :
  build_report lines flag = Some (Raise e) →
  e = ValueError ∨ ∃ k, e = Fatal k.
Proof.
  intros Hr.
  destruct (build_loop_spec lines flag (length lines) 0 (Report_init flag)
              [] []) as (res & Hres & Hspec).
  - lia.
  - by exists (Report_init flag).
  - by intros _.
  - done.
  - by rewrite drop_0.
  - unfold build_report in Hr. rewrite Hr in Hres. by injection Hres as <-.
Qed.

Lemma build_report_errors_witness :
  Fatal 2 = ValueError ∨ ∃ k, Fatal 2 = Fatal k.
Proof.
  apply (@build_report_errors PyLib_ref DumpLib_ref truncated_dump false).
  vm_compute. reflexivity.
Defined.

(** X22: the report built from a dump is a new report after a sequence of mmap
    and fork events on its registry and a sequence of samples fed to it;
    every sample has the three keys the loop checks,
    a 'used_time' that [int()] reads and a call chain that is not empty;
    and, when the lengths of the mmap records are not negative, every event
    has [start <= end]. *)
Theorem built_report_is_events_and_samples `{PyLib} `{DumpLib}
    (lines : list string) (flag : bool)
    (report : UnwindingResultErrorReport) :
  build_report lines flag = Some (Ok report) →
  ∃ evs samples,
    built_from flag evs samples report ∧
    Forall (λ sj, well_formed_sample sj.1) samples ∧
    (lengths_nonneg → Forall event_ok evs).
Proof.
  intros Hr.
  destruct (build_loop_spec lines flag (length lines) 0 (Report_init flag)
              [] []) as (res & Hres & Hspec).
  - lia.
  - by exists (Report_init flag).
  - by intros _.
  - done.
  - by rewrite drop_0.
  - unfold build_report in Hr. rewrite Hr in Hres. injection Hres as <-.
    destruct Hspec as (evs & samples & Hb & Hev & Hwf & _).
    by exists evs, samples.
Qed.

(** X23: the count of the built report is the number of
    [record unwinding_result] lines of the dump: each of them gives one
    sample, and no other line gives one. *)
Theorem built_report_counts_unwinding_results `{PyLib} `{DumpLib}
    (lines : list string) (flag : bool)
    (report : UnwindingResultErrorReport) :
  build_report lines flag = Some (Ok report) →
  count (unwinding_times report) = Z.of_nat (unwinding_headers lines).
Proof.
  intros Hr.
  destruct (build_loop_spec lines flag (length lines) 0 (Report_init flag)
              [] []) as (res & Hres & Hspec).
  - lia.
  - by exists (Report_init flag).
  - by intros _.
  - done.
  - by rewrite drop_0.
  - unfold build_report in Hr. rewrite Hr in Hres. injection Hres as <-.
    destruct Hspec as (evs & samples & (r & Hrun & ->) & _ & _ & <-).
    cbn [with_process_maps unwinding_times].
    by rewrite (add_sample_results_count samples _ _ Hrun).
Qed.

Lemma built_report_counts_unwinding_results_witness :
  count (unwinding_times sample_report)
  = Z.of_nat (unwinding_headers sample_dump).
Proof.
  apply (@built_report_counts_unwinding_results PyLib_ref DumpLib_ref
           sample_dump false sample_report).
  vm_compute. reflexivity.
Defined.

Lemma digits_go_nonneg base s :
  ∀ acc v, 0 ≤ base → 0 ≤ acc → digits_go base s acc = Some v → 0 ≤ v.
Proof.
  induction s as [|c s IH]; intros acc v Hbase Hacc; simpl.
  - intros [= <-]. done.
  - unfold digit_value.
    set (n := Z.of_nat (nat_of_ascii c)).
    destruct ((48 <=? n) && (n <=? 57)) eqn:E1.
    { destruct (n - 48 <? base); [|done]. apply IH; [done|]. nia. }
    destruct ((97 <=? n) && (n <=? 102)) eqn:E2.
    { destruct (n - 87 <? base); [|done]. apply IH; [done|]. nia. }
    destruct ((65 <=? n) && (n <=? 70)) eqn:E3; [|done].
    destruct (n - 55 <? base); [|done]. apply IH; [done|]. nia.
Qed.

Lemma lengths_nonneg_ref : @lengths_nonneg PyLib_ref DumpLib_ref.
Proof.
  intros l g1 g2 g3 v _. cbn [py_int PyLib_ref]. unfold digits_int.
  destruct g3; [done|]. by apply digits_go_nonneg.
Qed.

Lemma built_report_is_events_and_samples_witness :
  ∃ evs samples,
    @built_from PyLib_ref false evs samples sample_report ∧
    Forall (λ sj, @well_formed_sample PyLib_ref sj.1) samples ∧
    (@lengths_nonneg PyLib_ref DumpLib_ref → Forall event_ok evs).
Proof.
  apply (@built_report_is_events_and_samples PyLib_ref DumpLib_ref
           sample_dump false sample_report).
  vm_compute. reflexivity.
Defined.

(** X24: in the report built from a dump whose mmap records have lengths that
    are not negative, the registry holds no range object twice and every
    process's ranges are in order: each starts where or after the one
    before it ends. *)
Theorem built_report_registry_is_ordered `{PyLib} `{DumpLib}
    (lines : list string) (flag : bool)
    (report : UnwindingResultErrorReport) :
  lengths_nonneg →
  build_report lines flag = Some (Ok report) →
  separated (report_process_maps report) ∧
  ordered (report_process_maps report).
Proof.
  intros Hlen Hr.
  destruct (build_loop_spec lines flag (length lines) 0 (Report_init flag)
              [] []) as (res & Hres & Hspec).
  - lia.
  - by exists (Report_init flag).
  - by intros _.
  - done.
  - by rewrite drop_0.
  - unfold build_report in Hr. rewrite Hr in Hres. injection Hres as <-.
    destruct Hspec as (evs & samples & (r & Hrun & ->) & Hev & _).
    cbn [with_process_maps report_process_maps]. split.
    + apply reachable_separated.
    + intros pid. apply reachable_ordered. by apply Hev.
Qed.

Lemma built_report_registry_is_ordered_witness :
  separated (report_process_maps sample_report) ∧
  ordered (report_process_maps sample_report).
Proof.
  apply (@built_report_registry_is_ordered PyLib_ref DumpLib_ref
           sample_dump false sample_report).
  - exact lengths_nonneg_ref.
  - vm_compute. reflexivity.
Defined.
